(** * Inferno initial-mount engine: a shallow embedding of
      [packages/inferno/src/DOM/mounting.ts] and [DOM/recycling.ts].

    JavaScript objects that the mount engine mutates (the IV records, the
    shared lifecycle array) live in an explicit store that every mounter
    threads through; DOM calls and user callbacks are recorded in a trace. *)

From Stdlib Require Import ZArith Lia.
From stdpp Require Import base list strings gmap.

Open Scope Z_scope.
Open Scope nat_scope.

(** ** JavaScript data *)

(** Identity of a DOM node, of an IV object and of a user supplied function. *)
Abbreviation domref := nat (only parsing).
Abbreviation ivref := nat (only parsing).
Abbreviation callback := nat (only parsing).

(** The logical context object handed down the recursion; opaque to the engine. *)
Definition contextT := list (string * string).

(** A props object: its enumerable keys in enumeration order. *)
Definition propsT := list (string * string).
Definition EMPTY_OBJ : propsT := [].

(** [string | number] primitives (numbers restricted to integers). *)
Inductive prim :=
| PStr (s : string)
| PNum (n : Z).

(** The [key] of a View Node. *)
Inductive keyT :=
| KNull
| KUndefined
| KStr (s : string)
| KNum (n : Z).

(** The [ref] of a View Node: a callback, an object carrying the functional
    component hooks, or some other (rejected) value. *)
Inductive refT :=
| RNull
| RUndefined
| RBool (b : bool)
| RStr (s : string)
| RNum (n : Z)
| RFunc (cb : callback)
| RObj (onComponentWillMount onComponentDidMount : option callback).

(** Values that reach [mount] as input or as [children]. A component [type] is
    the function (or constructor) itself; a class instance carries its
    [render] method, the child context [$CX] and [componentDidMount]. *)
#[warnings="-register-all"]
Inductive value :=
| VUndefined
| VNull
| VBool (b : bool)
| VStr (s : string)
| VNum (n : Z)
| VArr (l : list value)
| VObj (v : VNode)
with VNode :=
| mkVNode (flags : Z) (type : vtype) (props : option propsT) (children : value)
          (key : keyT) (ref : refT) (className : option string)
with vtype :=
| TTag (tag : string)
| TFunc (fn : propsT -> contextT -> value)
| TClass (new : propsT -> contextT -> instanceT)
| TDom (container : domref)
with instanceT :=
| mkInstance (render : propsT -> contextT -> value) (CX : contextT)
             (componentDidMount : option callback).

Definition flags (v : VNode) : Z := let 'mkVNode x _ _ _ _ _ _ := v in x.
Definition type (v : VNode) : vtype := let 'mkVNode _ x _ _ _ _ _ := v in x.
Definition props (v : VNode) : option propsT := let 'mkVNode _ _ x _ _ _ _ := v in x.
Definition children (v : VNode) : value := let 'mkVNode _ _ _ x _ _ _ := v in x.
Definition key (v : VNode) : keyT := let 'mkVNode _ _ _ _ x _ _ := v in x.
Definition ref (v : VNode) : refT := let 'mkVNode _ _ _ _ _ x _ := v in x.
Definition className (v : VNode) : option string := let 'mkVNode _ _ _ _ _ _ x := v in x.

Definition render (i : instanceT) : propsT -> contextT -> value :=
  let 'mkInstance x _ _ := i in x.
Definition CX (i : instanceT) : contextT :=let 'mkInstance _ x _ := i in x.
Definition componentDidMount (i : instanceT) : option callback :=
  let 'mkInstance _ _ x := i in x.

(** ** Predicates of [inferno-shared] and [isVNode] *)

(** Modelled from the spec: the helpers of the [inferno-shared] package are
    not part of the sources; [isInvalid] recognises the four "invalid"
    sentinels null, undefined, true and false. *)
Definition isInvalid (o : value) : bool :=
  match o with
  | VNull | VUndefined | VBool _ => true
  | _ => false
  end.

Definition isStringOrNumber (o : value) : bool :=
  match o with
  | VStr _ | VNum _ => true
  | _ => false
  end.

Definition isArray (o : value) : bool :=
  match o with
  | VArr _ => true
  | _ => false
  end.

(** [typeof o === "object"] (arrays and null included). *)
Definition typeofObject (o : value) : bool :=
  match o with
  | VNull | VArr _ | VObj _ => true
  | _ => false
  end.

Definition asText (o : value) : option prim :=
  match o with
  | VStr s => Some (PStr s)
  | VNum n => Some (PNum n)
  | _ => None
  end.

(** Modelled from the spec: [isVNode] of [core/implementation] is not part of
    the sources; an object is recognised as a View Node when it has a positive
    [flags] value. *)
Definition asVNode (o : value) : option VNode :=
  match o with
  | VObj v => if (0 <? flags v)%Z then Some v else None
  | _ => None
  end.

Definition isVNode (o : value) : bool :=
  match asVNode o with
  | Some _ => true
  | None => false
  end.

Definition isNullOrUndefKey (k : keyT) : bool :=
  match k with
  | KNull | KUndefined => true
  | _ => false
  end.

(** [isVNode(child) && !isNullOrUndef(child.key)] *)
Definition hasKey (child : value) : bool :=
  match asVNode child with
  | Some v => negb (isNullOrUndefKey (key v))
  | None => false
  end.

(** What [children.length] and [children[i]] give for the values that can
    reach the array mounter: reading [length] of null or undefined is a
    TypeError, booleans, numbers and View-Node shaped objects have no
    [length] (the loop body never runs), a string is indexed by character. *)
Definition arrayLike (o : value) : option (list value) :=
  match o with
  | VArr l => Some l
  | VNull | VUndefined => None
  | VStr s => Some ((fun a => VStr (String a EmptyString)) <$> String.list_ascii_of_string s)
  | VBool _ | VNum _ | VObj _ => Some []
  end.

(** Truthiness and type tests on [ref] values. *)
Definition truthyRef (r : refT) : bool :=
  match r with
  | RNull | RUndefined | RBool false => false
  | RStr s => negb (String.eqb s "")
  | RNum n => negb (n =? 0)%Z
  | RBool true | RFunc _ | RObj _ _ => true
  end.

Definition isNullRef (r : refT) : bool :=
  match r with
  | RNull => true
  | _ => false
  end.

Definition isInvalidRef (r : refT) : bool :=
  match r with
  | RNull | RUndefined | RBool _ => true
  | _ => false
  end.

Definition onComponentWillMount (r : refT) : option callback :=
  match r with
  | RObj w _ => w
  | _ => None
  end.

Definition onComponentDidMount (r : refT) : option callback :=
  match r with
  | RObj _ m => m
  | _ => None
  end.

(** ** Bit layouts and configuration *)

(** The constants of [inferno-vnode-flags] and the [IVFlags] enumeration are
    not part of the sources; the engine is parametric in their values. *)
Record VNodeFlagsT := mkVNodeFlags {
  Element : Z;
  Component : Z;
  ComponentClass : Z;
  Portal : Z;
  SvgElement : Z;
  FormElement : Z
}.

Record IVFlagsT := mkIVFlags {
  HasInvalidChildren : Z;
  HasTextChildren : Z;
  HasBasicChildren : Z;
  HasKeyedChildren : Z;
  HasNonKeydChildren : Z
}.

Inductive IVTypes :=
| Regular
| IsVirtualArray.

(** A hook slot of the global [options] object. *)
Inductive hook :=
| HNull
| HUndefined
| HFunc (cb : callback).

Record Options := mkOptions {
  afterRender : hook;
  afterMount : hook;
  findDOMNodeEnabled : bool
}.

Definition truthyHook (h : hook) : bool :=
  match h with
  | HFunc _ => true
  | _ => false
  end.

Definition isNullHook (h : hook) : bool :=
  match h with
  | HNull => true
  | _ => false
  end.

(** ** The store *)

(** A DOM reference held in a variable or field: a node, null or undefined. *)
Inductive domval :=
| DNull
| DUndefined
| DNode (n : domref).

Definition isNullDom (d : domval) : bool :=
  match d with
  | DNull => true
  | _ => false
  end.

(** The [c] field of an IV: null, one child IV or an array of child IVs. *)
Inductive ivchildren :=
| CNull
| CSingle (r : ivref)
| CArray (rs : list ivref).

(** An IV object. [iv_d], [iv_c], [iv_f], [iv_t] and [iv_b] are the fields
    [d], [c], [f], [t] and [b] of the source; [iv_i] and [iv_k] hold the two
    arguments of [createIV] (the mirrored input and the positional index). *)
Record IV := mkIV {
  iv_i : value;
  iv_k : nat;
  iv_d : domval;
  iv_c : ivchildren;
  iv_f : Z;
  iv_t : IVTypes;
  iv_b : option ivref
}.

(** Faults: the messages of [throwError] and native JavaScript faults. *)
Inductive error :=
| InvalidInputError (isObject : bool)
| StringRefError
| ClassLifecycleRefError
| BadRefError
| GenericError
| TypeError.

(** Observable calls made by the engine, in program order. *)
Inductive event :=
| EvCreateText (n : domref) (text : prim)
| EvCreateElement (n : domref) (tag : string) (isSVG : bool)
| EvSetTextContent (n : domref) (text : prim)
| EvPatchProp (prop value : string) (n : domref) (isSVG hasControlledValue : bool)
| EvProcessElement (flags : Z) (iv : ivref) (n : domref) (hasControlledValue : bool)
| EvSetAttributeClass (n : domref) (className : string)
| EvSetClassName (n : domref) (className : string)
| EvInsert (parentDOM n : domref) (nextNode : option domref)
| EvCreateInstance (instance : ivref)
| EvAfterRender (cb : callback) (instance : ivref)
| EvAfterMount (cb : callback) (vNode : VNode)
| EvSetUPD (instance : ivref) (b : bool)
| EvMapSet (instance : ivref) (dom : domval)
| EvRefInstance (cb : callback) (instance : ivref)
| EvRefDom (cb : callback) (dom : domref)
| EvComponentDidMount (cb : callback) (instance : ivref)
| EvOnComponentWillMount (cb : callback) (props : propsT)
| EvOnComponentDidMount (cb : callback) (dom : domval) (props : propsT).

(** The closures pushed on the lifecycle array, with what they captured. *)
Inductive lifecycleFn :=
| LRef (value : callback) (dom : domref)
| LClassDidMount (instance : ivref) (afterMount : hook) (vNode : VNode)
                 (didMount : option callback)
| LFuncDidMount (didMount : callback) (dom : domval) (props : propsT).

(** A queue entry; [owner] is the IV whose mounter pushed the closure (kept
    to relate queue positions to the IV tree, it plays no role at run time). *)
Record lifecycleEntry := mkEntry {
  owner : ivref;
  fn : lifecycleFn
}.

(** Which mounter performed an assignment. *)
Inductive mounter :=
| MText
| MElement
| MArray
| MComponent.

(** One assignment [target.d = val], performed by mounter [who] while it was
    mounting the IV [self] it received. *)
Record domWrite := mkDomWrite {
  who : mounter;
  self : ivref;
  target : ivref;
  val : domval
}.

Record state := mkState {
  ivs : list IV;
  nextDom : nat;
  lifecycle : list lifecycleEntry;
  trace : list event;
  domWrites : list domWrite
}.

(** ** The mount monad: state, faults and fuel *)

Inductive outcome (A : Type) :=
| Ok (a : A)
| Throw (e : error)
| OutOfFuel.
Arguments Ok {A} a.
Arguments Throw {A} e.
Arguments OutOfFuel {A}.

Definition M (A : Type) : Type := state -> outcome A * state.

Definition ret {A} (a : A) : M A := fun s => (Ok a, s).

Definition bind {A B} (m : M A) (k : A -> M B) : M B :=
  fun s =>
    match m s with
    | (Ok a, s1) => k a s1
    | (Throw e, s1) => (Throw e, s1)
    | (OutOfFuel, s1) => (OutOfFuel, s1)
    end.

Definition throw {A} (e : error) : M A := fun s => (Throw e, s).

Definition outOfFuel {A} : M A := fun s => (OutOfFuel, s).

Definition when (b : bool) (m : M unit) : M unit := if b then m else ret tt.

Declare Scope mount_scope.
Delimit Scope mount_scope with mount.
Notation "'let*' x ':=' m 'in' k" := (bind m (fun x => k))
  (at level 10, x name, m at level 100, k at level 200) : mount_scope.
Notation "m ';;' k" := (bind m (fun _ => k))
  (at level 100, k at level 200, right associativity) : mount_scope.
Open Scope mount_scope.

Definition modify_ivs (g : list IV -> list IV) : M unit :=
  fun s => (Ok tt, mkState (g (ivs s)) (nextDom s) (lifecycle s) (trace s) (domWrites s)).

Definition emit (ev : event) : M unit :=
  fun s => (Ok tt, mkState (ivs s) (nextDom s) (lifecycle s) (trace s ++ [ev]) (domWrites s)).

(** [lifecycle.push(fn)] *)
Definition push (o : ivref) (f : lifecycleFn) : M unit :=
  fun s => (Ok tt, mkState (ivs s) (nextDom s) (lifecycle s ++ [mkEntry o f]) (trace s)
                           (domWrites s)).

Definition freshDom : M domref :=
  fun s => (Ok (nextDom s),
            mkState (ivs s) (S (nextDom s)) (lifecycle s) (trace s) (domWrites s)).

(** [document.createTextNode(text)] *)
Definition createTextNode (text : prim) : M domref :=
  let* n := freshDom in
  emit (EvCreateText n text) ;;
  ret n.

(** Modelled from the spec: [documentCreateElement] of [utils/common] creates
    the DOM element for [type] in the namespace selected by [isSVG]. *)
Definition documentCreateElement (tag : string) (isSVG : bool) : M domref :=
  let* n := freshDom in
  emit (EvCreateElement n tag isSVG) ;;
  ret n.

(** Modelled from the spec: [insertOrAppend] of [utils/common] is the
    parent-relative "insert before anchor or append" primitive; handing it
    something that is not a node is a native fault. *)
Definition insertOrAppend (parentDOM : domref) (dom : domval) (nextNode : option domref)
  : M unit :=
  match dom with
  | DNode n => emit (EvInsert parentDOM n nextNode)
  | _ => throw TypeError
  end.

(** Modelled from the spec: [createIV] of [core/implementation] makes a fresh
    IV for [input] tagged with the positional index, with no DOM node, no
    children and no back reference yet. *)
Definition createIV (input : value) (i : nat) : M ivref :=
  fun s => (Ok (length (ivs s)),
            mkState (ivs s ++ [mkIV input i DNull CNull 0%Z Regular None])
                    (nextDom s) (lifecycle s) (trace s) (domWrites s)).

(** Field reads and writes on the IV object [iv]. Every reference handed to a
    mounter denotes an allocated IV; a write through any other number leaves
    the store as it is. *)
Definition get_iv (iv : ivref) : M IV :=
  fun s => match ivs s !! iv with
           | Some x => (Ok x, s)
           | None => (Throw TypeError, s)
           end.

Definition set_c (iv : ivref) (c : ivchildren) : M unit :=
  modify_ivs (alter (fun x => mkIV (iv_i x) (iv_k x) (iv_d x) c (iv_f x) (iv_t x) (iv_b x)) iv).

Definition set_f (iv : ivref) (f : Z) : M unit :=
  modify_ivs (alter (fun x => mkIV (iv_i x) (iv_k x) (iv_d x) (iv_c x) f (iv_t x) (iv_b x)) iv).

Definition set_t (iv : ivref) (t : IVTypes) : M unit :=
  modify_ivs (alter (fun x => mkIV (iv_i x) (iv_k x) (iv_d x) (iv_c x) (iv_f x) t (iv_b x)) iv).

Definition set_b (iv : ivref) (b : ivref) : M unit :=
  modify_ivs (alter (fun x => mkIV (iv_i x) (iv_k x) (iv_d x) (iv_c x) (iv_f x) (iv_t x) (Some b)) iv).

(** [target.d = v], journalled with the mounter and the IV it is mounting. *)
Definition set_d (who : mounter) (self target : ivref) (v : domval) : M unit :=
  fun s => (Ok tt,
            mkState (alter (fun x => mkIV (iv_i x) (iv_k x) v (iv_c x) (iv_f x) (iv_t x) (iv_b x))
                           target (ivs s))
                    (nextDom s) (lifecycle s) (trace s)
                    (domWrites s ++ [mkDomWrite who self target v])).

(** [(iv.c as any[]).push(childIV)] *)
Definition push_c (iv : ivref) (childIV : ivref) : M unit :=
  let* x := get_iv iv in
  match iv_c x with
  | CArray rs => set_c iv (CArray (rs ++ [childIV]))
  | _ => throw TypeError
  end.

(** [(iv.c as IV[])[0].d] *)
Definition first_child_d (iv : ivref) : M domval :=
  let* x := get_iv iv in
  match iv_c x with
  | CArray (r :: _) => let* y := get_iv r in ret (iv_d y)
  | _ => throw TypeError
  end.

(** What a queued closure does when the queue is flushed. *)
Definition runLifecycle (f : lifecycleFn) : list event :=
  match f with
  | LRef value dom => [EvRefDom value dom]
  | LClassDidMount instance afterMount vNode didMount =>
      [EvSetUPD instance true]
      ++ match afterMount with
         | HFunc cb => [EvAfterMount cb vNode]
         | _ => []
         end
      ++ match didMount with
         | Some cb => [EvComponentDidMount cb instance]
         | None => []
         end
      ++ [EvSetUPD instance false]
  | LFuncDidMount didMount dom props => [EvOnComponentDidMount didMount dom props]
  end.

(** The flush performed by the caller of the outermost mount: every queued
    closure is invoked once, in collection order. *)
Definition flush (q : list lifecycleEntry) : list event :=
  concat ((fun e => runLifecycle (fn e)) <$> q).

(** ** The mounters of [DOM/mounting.ts] *)

Section Mounting.

Variable VNodeFlags : VNodeFlagsT.
Variable IVFlags : IVFlagsT.
Variable options : Options.
(** [process.env.NODE_ENV === "production"] *)
Variable production : bool.
(** The opaque collaborator of [wrappers/processElement]. *)
Variable isControlledFormElement : propsT -> bool.

(** [(flags & mask) > 0] *)
Definition hasFlag (flags mask : Z) : bool := (0 <? Z.land flags mask)%Z.

Definition mountText (iv : ivref) (text : prim) (parentDOM : domref)
    (nextNode : option domref) (context : contextT) (isSVG insertIntoDom : bool)
  : M domval :=
  let* dom := createTextNode text in
  when insertIntoDom
    (set_d MText iv iv (DNode dom) ;;
     insertOrAppend parentDOM (DNode dom) nextNode) ;;
  set_f iv (HasTextChildren IVFlags) ;;
  ret (DNode dom).

(** [mountRef(dom, value, lifecycle)]; [iv] is the element's IV, recorded as
    the owner of the queued closure. *)
Definition mountRef (iv : ivref) (dom : domref) (value : refT) : M unit :=
  match value with
  | RFunc cb => push iv (LRef cb dom)
  | _ =>
      if isInvalidRef value then ret tt
      else
        when (negb production) (throw StringRefError) ;;
        throw GenericError
  end.

Definition mountClassComponentCallbacks (vNode : VNode) (ref : refT) (iv : ivref)
    (instance : instanceT) : M unit :=
  when (truthyRef ref)
    match ref with
    | RFunc cb => emit (EvRefInstance cb iv)
    | _ =>
        when (negb production)
          match ref with
          | RStr _ | RNum _ => throw StringRefError
          | RObj _ _ => throw ClassLifecycleRefError
          | _ => throw BadRefError
          end ;;
        throw GenericError
    end ;;
  let hasDidMount := componentDidMount instance in
  let afterMount := afterMount options in
  when (bool_decide (is_Some hasDidMount) || negb (isNullHook afterMount))
    (push iv (LClassDidMount iv afterMount vNode hasDidMount)).

Definition mountFunctionalComponentCallbacks (iv : ivref) (props : propsT) (ref : refT)
    (dom : domval) : M unit :=
  when (truthyRef ref)
    (match onComponentWillMount ref with
     | Some cb => emit (EvOnComponentWillMount cb props)
     | None => ret tt
     end ;;
     match onComponentDidMount ref with
     | Some cb => push iv (LFuncDidMount cb dom props)
     | None => ret tt
     end).

(** [for (const prop in props) patchProp(prop, null, props[prop], dom, isSVG,
    hasControlledValue)] *)
Fixpoint patchProps (props : propsT) (dom : domref) (isSVG hasControlledValue : bool)
  : M unit :=
  match props with
  | [] => ret tt
  | (prop, v) :: rest =>
      emit (EvPatchProp prop v dom isSVG hasControlledValue) ;;
      patchProps rest dom isSVG hasControlledValue
  end.

(** The loop of [mountArrayChildren]; [mountChild childIV child] stands for
    [mount(childIV, child, parentDOM, nextNode, lifecycle, context, isSVG, true)]. *)
Fixpoint mountArrayLoop (mountChild : ivref -> value -> M domval) (iv : ivref)
    (forceKeyed : bool) (children : list value) (i : nat) (firstValid : bool) : M unit :=
  match children with
  | [] => ret tt
  | child :: rest =>
      if negb (isInvalid child) then
        when firstValid
          (set_c iv (CArray []) ;;
           set_f iv (if forceKeyed || hasKey child
                     then HasKeyedChildren IVFlags
                     else HasNonKeydChildren IVFlags)) ;;
        let* childIV := createIV child i in
        push_c iv childIV ;;
        mountChild childIV child ;;
        mountArrayLoop mountChild iv forceKeyed rest (S i) false
      else mountArrayLoop mountChild iv forceKeyed rest (S i) firstValid
  end.

(** Modelled from the spec: [createClassComponentInstance] is a collaborator
    that is not part of the sources. It is taken to construct the instance of
    the class (the call is traced as [EvCreateInstance]; the instance is
    identified with the component's IV) and to leave the IV store and the
    lifecycle queue as they are. *)
Fixpoint mount (fuel : nat) (iv : ivref) (input : value) (parentDOM : domref)
    (nextNode : option domref) (context : contextT) (isSVG insertIntoDOM : bool)
    {struct fuel} : M domval :=
  match fuel with
  | O => outOfFuel
  | S fuel =>
      match asText input with
      | Some text => mountText iv text parentDOM nextNode context isSVG insertIntoDOM
      | None =>
          match asVNode input with
          | Some vNode =>
              mountVNode fuel iv vNode parentDOM nextNode context isSVG insertIntoDOM
          | None =>
              when (negb production)
                (when (negb (isArray input))
                   (if typeofObject input
                    then throw (InvalidInputError true)
                    else throw (InvalidInputError false))) ;;
              mountArrayChildren fuel iv input parentDOM nextNode context isSVG false true ;;
              ret DNull
          end
      end
  end

with mountVNode (fuel : nat) (iv : ivref) (input : VNode) (parentDOM : domref)
    (nextNode : option domref) (context : contextT) (isSVG insertIntoDOM : bool)
    {struct fuel} : M domval :=
  match fuel with
  | O => outOfFuel
  | S fuel =>
      let flags := flags input in
      if hasFlag flags (Element VNodeFlags) then
        mountElement fuel iv input parentDOM nextNode context isSVG insertIntoDOM
      else if hasFlag flags (Component VNodeFlags) then
        mountComponent fuel iv input parentDOM nextNode context isSVG insertIntoDOM
      else if hasFlag flags (Portal VNodeFlags) then
        mountPortal fuel iv input parentDOM nextNode context false insertIntoDOM
      else ret DUndefined
  end

with mountPortal (fuel : nat) (iv : ivref) (vNode : VNode) (parentDOM : domref)
    (nextNode : option domref) (context : contextT) (isSVG insertIntoDom : bool)
    {struct fuel} : M domval :=
  match fuel with
  | O => outOfFuel
  | S fuel =>
      let* childIV := createIV (children vNode) 0 in
      set_c iv (CSingle childIV) ;;
      match type vNode with
      | TDom container =>
          mount fuel childIV (children vNode) container None context isSVG true
      | _ => throw TypeError
      end ;;
      mountText iv (PStr "") parentDOM nextNode context isSVG insertIntoDom
  end

with mountElement (fuel : nat) (iv : ivref) (vNode : VNode) (parentDOM : domref)
    (nextNode : option domref) (context : contextT) (isSVG insertIntoDom : bool)
    {struct fuel} : M domval :=
  match fuel with
  | O => outOfFuel
  | S fuel =>
      let flags := flags vNode in
      let isSVG := isSVG || hasFlag flags (SvgElement VNodeFlags) in
      match type vNode with
      | TTag tag =>
          let* dom := documentCreateElement tag isSVG in
          let children := children vNode in
          let props := props vNode in
          let className := className vNode in
          let ref := ref vNode in
          (if isInvalid children then set_f iv (HasInvalidChildren IVFlags)
           else
             match asText children with
             | Some text =>
                 emit (EvSetTextContent dom text) ;;
                 set_f iv (HasTextChildren IVFlags)
             | None =>
                 let childrenIsSVG := isSVG && negb (String.eqb tag "foreignObject") in
                 match asVNode children with
                 | Some child =>
                     let* childIV := createIV children 0 in
                     set_c iv (CSingle childIV) ;;
                     set_f iv (HasBasicChildren IVFlags) ;;
                     mountVNode fuel childIV child dom None context childrenIsSVG true ;;
                     ret tt
                 | None =>
                     mountArrayChildren fuel iv children dom None context childrenIsSVG
                                        false false
                 end
             end) ;;
          match props with
          | Some props =>
              let isFormElement := hasFlag flags (FormElement VNodeFlags) in
              let hasControlledValue :=
                if isFormElement then isControlledFormElement props else false in
              patchProps props dom isSVG hasControlledValue ;;
              when isFormElement (emit (EvProcessElement flags iv dom hasControlledValue))
          | None => ret tt
          end ;;
          match className with
          | Some className =>
              if isSVG then emit (EvSetAttributeClass dom className)
              else emit (EvSetClassName dom className)
          | None => ret tt
          end ;;
          when (negb (isNullRef ref)) (mountRef iv dom ref) ;;
          when insertIntoDom
            (set_d MElement iv iv (DNode dom) ;;
             insertOrAppend parentDOM (DNode dom) nextNode) ;;
          ret (DNode dom)
      | _ => throw TypeError
      end
  end

with mountArrayChildren (fuel : nat) (iv : ivref) (children : value) (parentDOM : domref)
    (nextNode : option domref) (context : contextT) (isSVG forceKeyed isVirtual : bool)
    {struct fuel} : M unit :=
  match fuel with
  | O => outOfFuel
  | S fuel =>
      set_c iv CNull ;;
      set_f iv (HasInvalidChildren IVFlags) ;;
      match arrayLike children with
      | Some l =>
          mountArrayLoop
            (fun childIV child =>
               mount fuel childIV child parentDOM nextNode context isSVG true)
            iv forceKeyed l 0 true
      | None => throw TypeError
      end ;;
      if isVirtual then
        set_t iv IsVirtualArray ;;
        let* x := get_iv iv in
        if hasFlag (iv_f x) (Z.lor (HasKeyedChildren IVFlags) (HasNonKeydChildren IVFlags))
        then let* d := first_child_d iv in set_d MArray iv iv d
        else set_d MArray iv iv DNull
      else set_t iv Regular
  end

with mountComponent (fuel : nat) (iv : ivref) (vNode : VNode) (parentDOM : domref)
    (nextNode : option domref) (context : contextT) (isSVG insertIntoDom : bool)
    {struct fuel} : M domval :=
  match fuel with
  | O => outOfFuel
  | S fuel =>
      let isClass := hasFlag (flags vNode) (ComponentClass VNodeFlags) in
      let props := default EMPTY_OBJ (props vNode) in
      let ref := ref vNode in
      let* rendered :=
        (if isClass then
           match type vNode with
           | TClass new =>
               emit (EvCreateInstance iv) ;;
               let instance := new props context in
               let renderOutput := render instance props context in
               match afterRender options with
               | HFunc cb => emit (EvAfterRender cb iv)
               | _ => ret tt
               end ;;
               ret (renderOutput, CX instance, Some instance)
           | _ => throw TypeError
           end
         else
           match type vNode with
           | TFunc fn => ret (fn props context, context, None)
           | _ => throw TypeError
           end) in
      let '(renderOutput, context, instance) := rendered in
      let* dom :=
        (if isInvalid renderOutput then
           set_f iv (HasInvalidChildren IVFlags) ;;
           ret DNull
         else
           set_f iv (HasBasicChildren IVFlags) ;;
           let* childIV := createIV renderOutput 0 in
           set_c iv (CSingle childIV) ;;
           set_b childIV iv ;;
           let* dom := mount fuel childIV renderOutput parentDOM nextNode context isSVG
                             false in
           set_d MComponent iv childIV dom ;;
           ret dom) in
      match instance with
      | Some instance =>
          mountClassComponentCallbacks vNode ref iv instance ;;
          emit (EvSetUPD iv false) ;;
          when (findDOMNodeEnabled options) (emit (EvMapSet iv dom))
      | None => mountFunctionalComponentCallbacks iv props ref dom
      end ;;
      when (insertIntoDom && negb (isNullDom dom))
        (set_d MComponent iv iv dom ;;
         insertOrAppend parentDOM dom nextNode) ;;
      ret dom
  end.

End Mounting.

Arguments bind : simpl never.
Arguments ret : simpl never.
Arguments throw : simpl never.
Arguments when : simpl never.
Arguments emit : simpl never.
Arguments push : simpl never.
Arguments freshDom : simpl never.
Arguments createTextNode : simpl never.
Arguments documentCreateElement : simpl never.
Arguments insertOrAppend : simpl never.
Arguments createIV : simpl never.
Arguments get_iv : simpl never.
Arguments set_c : simpl never.
Arguments set_f : simpl never.
Arguments set_t : simpl never.
Arguments set_b : simpl never.
Arguments set_d : simpl never.
Arguments push_c : simpl never.
Arguments first_child_d : simpl never.
Arguments mountText : simpl never.
Arguments mountRef : simpl never.
Arguments mountClassComponentCallbacks : simpl never.
Arguments mountFunctionalComponentCallbacks : simpl never.
Arguments patchProps : simpl never.
Arguments mountArrayLoop : simpl never.

(** ** The recycling pools of [DOM/recycling.ts] *)

Module Recycling.

(** What a pool is indexed by: a tag name, a component function (by
    identity) or null. *)
Inductive tagT :=
| TagNull
| TagName (s : string)
| TagFunction (f : nat).

#[global] Instance tagT_eq_dec : EqDecision tagT.
Proof. solve_decision. Defined.

#[global] Instance tagT_countable : Countable tagT.
Proof.
  refine (inj_countable'
            (fun t => match t with
                      | TagNull => inl tt
                      | TagName s => inr (inl s)
                      | TagFunction f => inr (inr f)
                      end)
            (fun x => match x with
                      | inl _ => TagNull
                      | inr (inl s) => TagName s
                      | inr (inr f) => TagFunction f
                      end) _).
  by intros [].
Defined.

#[global] Instance keyT_eq_dec : EqDecision keyT.
Proof. solve_decision. Defined.

#[global] Instance keyT_countable : Countable keyT.
Proof.
  refine (inj_countable'
            (fun k => match k with
                      | KNull => inl true
                      | KUndefined => inl false
                      | KStr s => inr (inl s)
                      | KNum n => inr (inr n)
                      end)
            (fun x => match x with
                      | inl true => KNull
                      | inl false => KUndefined
                      | inr (inl s) => KStr s
                      | inr (inr n) => KNum n
                      end) _).
  by intros [].
Defined.

(** The node handed to [pool]: its [type], its [key] and its DOM node. *)
Record IVNode := mkIVNode {
  type : tagT;
  key : keyT;
  dom : option nat
}.

(** [class Pools]: the non-keyed nodes, and the nodes of each key. *)
Record Pools := mkPools {
  nonKeyed : list IVNode;
  keyed : gmap keyT (list IVNode)
}.

Definition newPools : Pools := mkPools [] ∅.

Definition componentPools : gmap tagT Pools := ∅.
Definition elementPools : gmap tagT Pools := ∅.

Definition isNull (k : keyT) : bool :=
  match k with
  | KNull => true
  | _ => false
  end.

Definition recycleElement (vNode : IVNode) (context : contextT) (isSVG : bool)
  : option nat := None.

Definition recycleComponent (vNode : IVNode) (context : contextT) (isSVG : bool)
  : option nat := None.

(** [pool(vNode, tagPools)]; the map and the arrays it holds are updated in
    place, which is the returned map here. *)
Definition pool (vNode : IVNode) (tagPools : gmap tagT Pools) : gmap tagT Pools :=
  let tag := type vNode in
  let key := key vNode in
  let pools :=
    match tagPools !! tag with
    | Some pools => pools
    | None => newPools
    end in
  let pools :=
    if isNull key then mkPools (nonKeyed pools ++ [vNode]) (keyed pools)
    else
      let keyedPool :=
        match keyed pools !! key with
        | Some keyedPool => keyedPool
        | None => []
        end in
      mkPools (nonKeyed pools) (<[key := keyedPool ++ [vNode]]> (keyed pools)) in
  <[tag := pools]> tagPools.

End Recycling.

(** ** Specification vocabulary *)

(** Partial-correctness triples for the mount monad: when [m] runs to
    completion from a state satisfying [P], its result and final state
    satisfy [Q]. *)
Definition hoare {A} (P : state -> Prop) (m : M A) (Q : A -> state -> Prop) : Prop :=
  forall s a s', P s -> m s = (Ok a, s') -> Q a s'.

(** [m] maintains the state invariant [I] and returns a value satisfying [V]. *)
Definition keeps {A} (I : state -> Prop) (m : M A) (V : A -> Prop) : Prop :=
  hoare I m (fun a s => I s /\ V a).

(** Events that only a queued lifecycle closure produces. *)
Definition deferred (ev : event) : bool :=
  match ev with
  | EvRefDom _ _ | EvAfterMount _ _ | EvComponentDidMount _ _
  | EvOnComponentDidMount _ _ _ | EvSetUPD _ true => true
  | _ => false
  end.

(** [extends iv s0 s]: [s] is reached from [s0] by steps of a mounter working
    on the IV [iv]. The store only grows; an IV that existed in [s0] and is
    not [iv] is untouched; [iv] keeps its input, index and back reference;
    trace, lifecycle queue and journal are only appended to, and nothing
    that is reserved to lifecycle closures is traced. *)
Record extends (iv : ivref) (s0 s : state) : Prop := mkExtends {
  ext_len : length (ivs s0) <= length (ivs s);
  ext_frame : forall r, r < length (ivs s0) -> r <> iv -> ivs s !! r = ivs s0 !! r;
  ext_self : forall x, ivs s0 !! iv = Some x ->
     exists x', ivs s !! iv = Some x' /\ iv_i x' = iv_i x /\ iv_k x' = iv_k x
                /\ iv_b x' = iv_b x;
  ext_dom : nextDom s0 <= nextDom s;
  ext_trace : exists evs, trace s = trace s0 ++ evs
                          /\ Forall (fun ev => deferred ev = false) evs;
  ext_lifecycle : lifecycle s0 `prefix_of` lifecycle s;
  ext_writes : domWrites s0 `prefix_of` domWrites s
}.

(** A write of a mounter working on [iv] since [s0] is admissible when it goes
    to [iv] or to an IV allocated after [s0]. *)
Definition mine (iv : ivref) (s0 : state) (r : ivref) : Prop :=
  r = iv \/ length (ivs s0) <= r.

(** The valid entries of an array of children, each with its position;
    [i] is the position of the head of [children]. *)
Fixpoint validEntries (children : list value) (i : nat) : list (nat * value) :=
  match children with
  | [] => []
  | child :: rest =>
      if isInvalid child then validEntries rest (S i)
      else (i, child) :: validEntries rest (S i)
  end.

(** The array loop as the specification words it: only the valid entries are
    visited, each with its position; the first one visited decides the
    shape flag. *)
Fixpoint mountEntries (IVFlags : IVFlagsT) (mountChild : ivref -> value -> M domval)
    (iv : ivref) (forceKeyed : bool) (entries : list (nat * value)) (firstValid : bool)
  : M unit :=
  match entries with
  | [] => ret tt
  | (i, child) :: rest =>
      when firstValid
        (set_c iv (CArray []) ;;
         set_f iv (if forceKeyed || hasKey child
                   then HasKeyedChildren IVFlags
                   else HasNonKeydChildren IVFlags)) ;;
      let* childIV := createIV child i in
      push_c iv childIV ;;
      mountChild childIV child ;;
      mountEntries IVFlags mountChild iv forceKeyed rest false
  end.

Arguments mountEntries : simpl never.

(** The IV [iv] exists in [s] and satisfies [phi]. *)
Definition holds (iv : ivref) (phi : IV -> Prop) (s : state) : Prop :=
  exists x, ivs s !! iv = Some x /\ phi x.

(** The IV [r] mirrors the entry [e]: it was created for that child and
    carries its position. *)
Definition mirrors (s : state) (r : ivref) (e : nat * value) : Prop :=
  holds r (fun y => iv_k y = e.1 /\ iv_i y = e.2) s.

(** Nothing was allocated, created, traced or queued between [s0] and [s]. *)
Definition unchanged (s0 s : state) : Prop :=
  length (ivs s) = length (ivs s0) /\ nextDom s = nextDom s0
  /\ trace s = trace s0 /\ lifecycle s = lifecycle s0.

(** [grows s s']: every IV of [s] is still there in [s'], with the back
    reference it had. *)
Definition grows (s s' : state) : Prop :=
  forall r y, ivs s !! r = Some y -> exists y', ivs s' !! r = Some y' /\ iv_b y' = iv_b y.

(** An assignment to a [d] field is in order when the mounter assigned the
    field of the IV it was mounting, or when it is the Component Mounter
    assigning the field of the IV whose back reference is the component's IV
    (the IV it created for its render output). *)
Definition okWrite (s : state) (w : domWrite) : Prop :=
  self w = target w
  \/ (who w = MComponent /\ holds (target w) (fun y => iv_b y = Some (self w)) s).

(** Every assignment journalled since [s0] is in order. *)
Definition journal (s0 s : state) : Prop :=
  exists ws, domWrites s = domWrites s0 ++ ws /\ Forall (okWrite s) ws.

(** [ev] inserts a node into the DOM node [p]. *)
Definition insertsInto (p : domref) (ev : event) : bool :=
  match ev with
  | EvInsert q _ _ => Nat.eqb q p
  | _ => false
  end.

(** [avoids p input]: no portal that mounting [input] reaches, in [input]
    itself or in what its components render, has [p] as its target. *)
#[warnings="-register-all"]
Inductive avoids (p : domref) : value -> Prop :=
| avoids_undefined : avoids p VUndefined
| avoids_null : avoids p VNull
| avoids_bool b : avoids p (VBool b)
| avoids_str s : avoids p (VStr s)
| avoids_num n : avoids p (VNum n)
| avoids_arr l : Forall (avoids p) l -> avoids p (VArr l)
| avoids_obj v :
    avoids p (children v) ->
    (forall container, type v = TDom container -> container <> p) ->
    (forall fn, type v = TFunc fn -> forall pr cx, avoids p (fn pr cx)) ->
    (forall new, type v = TClass new ->
                 forall pr cx, avoids p (render (new pr cx) pr cx)) ->
    avoids p (VObj v).

(** Since [s0] no node was inserted into the DOM node [p], which existed
    before any node created since. *)
Definition clean (p : domref) (s0 s : state) : Prop :=
  p < nextDom s
  /\ exists evs, trace s = trace s0 ++ evs
                 /\ Forall (fun ev => insertsInto p ev = false) evs.

(** ** The IV tree and the order of the lifecycle queue *)

(** The child IVs an IV refers to through its [c] field. *)
Definition childRefs (c : ivchildren) : list ivref :=
  match c with
  | CNull => []
  | CSingle r => [r]
  | CArray rs => rs
  end.

Definition kids (x : IV) : list ivref := childRefs (iv_c x).

Definition kidsOf (s : state) (a : ivref) : option (list ivref) :=
  kids <$> ivs s !! a.

(** [child s a b]: in the store of [s] the IV [b] is a child of the IV [a]. *)
Definition child (s : state) (a b : ivref) : Prop :=
  exists ks, kidsOf s a = Some ks /\ b ∈ ks.

(** [descendant s a b]: [b] lies in the subtree of [a], and is not [a]. *)
Definition descendant (s : state) : ivref -> ivref -> Prop := tc (child s).

(** The IV [c] exists and has no child yet, as [createIV] leaves it. *)
Definition fresh (c : ivref) (s : state) : Prop := kidsOf s c = Some [].

(** The entries [q] were queued by IVs of the set [D], which contains the
    children of its members, all allocated after their parent; an entry
    queued by an IV comes after every entry queued inside its subtree. *)
Record postOrder (D : ivref -> Prop) (s : state) (q : list lifecycleEntry) : Prop :=
  mkPostOrder {
    po_closed : forall a b, D a -> child s a b -> a < b /\ D b;
    po_owners : Forall (fun e => D (owner e)) q;
    po_order : forall i j ei ej,
        q !! i = Some ei -> q !! j = Some ej ->
        descendant s (owner ei) (owner ej) -> j < i
  }.

Definition range (n0 n1 : nat) (a : ivref) : Prop := n0 <= a < n1.

Definition rooted (c : ivref) (n0 n1 : nat) (a : ivref) : Prop :=
  a = c \/ range n0 n1 a.

(** What a mounter working on [c] leaves behind: the entries queued since
    [s], by [c] and by the IVs allocated since, in post-order. *)
Definition ordered (c : ivref) (s s' : state) : Prop :=
  exists q, lifecycle s' = lifecycle s ++ q
            /\ postOrder (rooted c (length (ivs s)) (length (ivs s'))) s' q.

(** Between [s0] and [s] no IV was allocated, no [c] field changed, and the
    entries queued satisfy [P]. *)
Definition tailBy (P : lifecycleEntry -> Prop) (s0 s : state) : Prop :=
  length (ivs s) = length (ivs s0)
  /\ (forall a, kidsOf s a = kidsOf s0 a)
  /\ exists own, lifecycle s = lifecycle s0 ++ own /\ Forall P own.

(** ... and nothing was queued. *)
Definition still : state -> state -> Prop := tailBy (fun _ => False).

(** ... and what was queued was queued by [c]. *)
Definition tail (c : ivref) : state -> state -> Prop :=
  tailBy (fun e => owner e = c).

(** A mounter working on [c] since [s0] has reached [s] without queueing
    anything of its own: the children of [c] were allocated since [s0], and
    what was queued was queued in post-order by the IVs allocated since. *)
Definition mid (c : ivref) (s0 s : state) : Prop :=
  length (ivs s0) <= length (ivs s)
  /\ (forall b, child s c b -> range (length (ivs s0)) (length (ivs s)) b)
  /\ exists q, lifecycle s = lifecycle s0 ++ q
               /\ postOrder (range (length (ivs s0)) (length (ivs s))) s q.

(** Between [s1] and [s4] one IV was allocated, fresh, and given to [c] as a
    further child; nothing else changed in the tree or in the queue. *)
Definition alloc (c : ivref) (s1 s4 : state) : Prop :=
  length (ivs s4) = S (length (ivs s1))
  /\ lifecycle s4 = lifecycle s1
  /\ (forall a, a < length (ivs s1) -> a <> c -> kidsOf s4 a = kidsOf s1 a)
  /\ fresh (length (ivs s1)) s4
  /\ (forall b, child s4 c b -> child s1 c b \/ b = length (ivs s1)).

(** ** Fuel *)

(** [refines m1 m2]: whatever [m1] does without running out of fuel, [m2]
    does as well. *)
Definition refines {A} (m1 m2 : M A) : Prop :=
  forall s o s', m1 s = (o, s') -> o <> OutOfFuel -> m2 s = (o, s').

(** ** DOM bookkeeping *)

(** The DOM node an event creates, and the DOM node an event inserts. *)
Definition createdNode (ev : event) : option domref :=
  match ev with
  | EvCreateText n _ | EvCreateElement n _ _ => Some n
  | _ => None
  end.

Definition insertedNode (ev : event) : option domref :=
  match ev with
  | EvInsert _ n _ => Some n
  | _ => None
  end.

Definition created (evs : list event) : list domref := omap createdNode evs.
Definition inserted (evs : list event) : list domref := omap insertedNode evs.

(** The node a mount call has created but left to its caller to insert. *)
Definition pending (insertIntoDOM : bool) (r : domval) : list domref :=
  if insertIntoDOM then []
  else match r with
       | DNode n => [n]
       | _ => []
       end.

(** Between [s] and [s'] the nodes created are the next unused ones, one
    after the other, and each of them was inserted once, except those of
    [P]. *)
Definition accounted (P : list domref) (s s' : state) : Prop :=
  nextDom s <= nextDom s'
  /\ exists evs, trace s' = trace s ++ evs
                 /\ created evs = seq (nextDom s) (nextDom s' - nextDom s)
                 /\ created evs ≡ₚ inserted evs ++ P.

(** Between [s0] and [s] no node was created or inserted. *)
Definition neutral (s0 s : state) : Prop :=
  nextDom s = nextDom s0
  /\ exists evs, trace s = trace s0 ++ evs /\ created evs = [] /\ inserted evs = [].

(** [s] comes after [s0]: no IV was dropped and the trace was only added
    to. *)
Definition later (s0 s : state) : Prop :=
  length (ivs s0) <= length (ivs s) /\ exists evs, trace s = trace s0 ++ evs.

(** ** Components *)

(** What a component View Node renders in a context: the render output of a
    fresh instance for a class component, the result of the call for a
    functional component; nothing when the [type] does not fit the kind bit. *)
Definition renderOutputOf (VNodeFlags : VNodeFlagsT) (vNode : VNode) (context : contextT)
  : option value :=
  let props := default EMPTY_OBJ (props vNode) in
  if hasFlag (flags vNode) (ComponentClass VNodeFlags) then
    match type vNode with
    | TClass new => Some (render (new props context) props context)
    | _ => None
    end
  else
    match type vNode with
    | TFunc fn => Some (fn props context)
    | _ => None
    end.

(** Between [s0] and [s] the IV store, the DOM node supply and the journal of
    [d] assignments did not change. *)
Definition sameStore (s0 s : state) : Prop :=
  ivs s = ivs s0 /\ nextDom s = nextDom s0 /\ domWrites s = domWrites s0.

(** The insertion that ends a mount of a root node. *)
Definition rootInsertion (insertIntoDOM : bool) (parentDOM : domref) (r : domval)
    (nextNode : option domref) : list event :=
  match r with
  | DNode n => if insertIntoDOM then [EvInsert parentDOM n nextNode] else []
  | _ => []
  end.

(** The synchronous call and the queue entry of
    [mountClassComponentCallbacks], and the error a rejected [ref] raises. *)
Definition classRefCall (iv : ivref) (ref : refT) : list event :=
  match ref with
  | RFunc cb => [EvRefInstance cb iv]
  | _ => []
  end.

Definition classDidMountEntry (options : Options) (vNode : VNode) (iv : ivref)
    (instance : instanceT) : list lifecycleEntry :=
  if bool_decide (is_Some (componentDidMount instance))
     || negb (isNullHook (afterMount options))
  then [mkEntry iv (LClassDidMount iv (afterMount options) vNode
                                   (componentDidMount instance))]
  else [].

Definition classRefError (production : bool) (ref : refT) : error :=
  if production then GenericError
  else match ref with
       | RStr _ | RNum _ => StringRefError
       | RObj _ _ => ClassLifecycleRefError
       | _ => BadRefError
       end.

(** The synchronous call and the queue entry of
    [mountFunctionalComponentCallbacks]. *)
Definition willMountCall (props : propsT) (ref : refT) : list event :=
  if truthyRef ref then
    match onComponentWillMount ref with
    | Some cb => [EvOnComponentWillMount cb props]
    | None => []
    end
  else [].

Definition funcDidMountEntry (iv : ivref) (props : propsT) (ref : refT) (dom : domval)
  : list lifecycleEntry :=
  if truthyRef ref then
    match onComponentDidMount ref with
    | Some cb => [mkEntry iv (LFuncDidMount cb dom props)]
    | None => []
    end
  else [].

(** ** Elements *)

(** The calls [mountElement] makes for the props of an element: one
    [patchProp] per key, in enumeration order, then [processElement] for a
    form element. *)
Definition propCalls (props : propsT) (dom : domref) (isSVG hasControlledValue : bool)
  : list event :=
  (fun p => EvPatchProp p.1 p.2 dom isSVG hasControlledValue) <$> props.

Definition elementPropCalls (VNodeFlags : VNodeFlagsT)
    (isControlledFormElement : propsT -> bool) (vNode : VNode) (iv : ivref)
    (dom : domref) (isSVG : bool) : list event :=
  match props vNode with
  | Some props =>
      let isFormElement := hasFlag (flags vNode) (FormElement VNodeFlags) in
      let hasControlledValue :=
        if isFormElement then isControlledFormElement props else false in
      propCalls props dom isSVG hasControlledValue
      ++ (if isFormElement
          then [EvProcessElement (flags vNode) iv dom hasControlledValue]
          else [])
  | None => []
  end.

(** The call that sets the class of an element. *)
Definition classCall (vNode : VNode) (dom : domref) (isSVG : bool) : list event :=
  match className vNode with
  | Some className =>
      [if isSVG then EvSetAttributeClass dom className else EvSetClassName dom className]
  | None => []
  end.

(** ** Anchors *)

(** [ev] is not an insertion into [p] before another anchor than [a]. *)
Definition anchoredAt (p : domref) (a : option domref) (ev : event) : bool :=
  match ev with
  | EvInsert q _ a' => negb (Nat.eqb q p) || bool_decide (a' = a)
  | _ => true
  end.

(** Since [s0] every node inserted into the DOM node [p], which existed
    before any node created since, was inserted before the anchor [a]. *)
Definition anchored (p : domref) (a : option domref) (s0 s : state) : Prop :=
  p < nextDom s
  /\ exists evs, trace s = trace s0 ++ evs
                 /\ Forall (fun ev => anchoredAt p a ev = true) evs.

(** ** Pools *)

(** The sequence a pooled node with tag [tag] and key [k] is looked up in
    (the lookup of the disabled [recycle]): the non-keyed sequence of the
    tag's pool for the null key, the sequence of the key otherwise; empty
    when there is none. *)
Definition pooledUnder (tagPools : gmap Recycling.tagT Recycling.Pools)
    (tag : Recycling.tagT) (k : keyT) : list Recycling.IVNode :=
  match tagPools !! tag with
  | Some pools =>
      if Recycling.isNull k then Recycling.nonKeyed pools
      else default [] (Recycling.keyed pools !! k)
  | None => []
  end.

(** [pool] called on each node of [vNodes] in turn. *)
Definition poolAll (vNodes : list Recycling.IVNode)
    (tagPools : gmap Recycling.tagT Recycling.Pools) : gmap Recycling.tagT Recycling.Pools :=
  foldl (fun m v => Recycling.pool v m) tagPools vNodes.

(** No pool is empty, no per-key sequence is empty, and null is not among
    the keys of a keyed map. *)
Definition poolsTidy (tagPools : gmap Recycling.tagT Recycling.Pools) : Prop :=
  forall tag pools,
    tagPools !! tag = Some pools ->
    (Recycling.nonKeyed pools <> [] \/ Recycling.keyed pools <> ∅)
    /\ forall k l, Recycling.keyed pools !! k = Some l -> k <> KNull /\ l <> [].

(** ** A concrete configuration for the examples *)

(** A bit layout with disjoint primary-kind bits: HtmlElement 2, ComponentClass
    4, ComponentFunction 8, SvgElement 128, the three form element bits 512,
    1024 and 2048, Portal 4096. *)
Definition sampleVNodeFlags : VNodeFlagsT :=
  mkVNodeFlags 3970 28 4 4096 128 3584.

Definition sampleIVFlags : IVFlagsT := mkIVFlags 1 2 4 8 16.

Definition sampleOptions : Options := mkOptions HNull HNull false.

(** A document with the DOM nodes 0..7 and no IV yet. *)
Definition initialState : state := mkState [] 8 [] [] [].

(** The state in which the root IV (number 0) has been created for [input]. *)
Definition rootState (input : value) : state := (createIV input 0 initialState).2.

(** [mount] of [input] on the root IV, in the sample configuration. *)
Definition mountRoot (production : bool) (fuel : nat) (input : value) (parentDOM : domref)
    (isSVG insertIntoDOM : bool) : outcome domval * state :=
  mount sampleVNodeFlags sampleIVFlags sampleOptions production (fun _ => false)
        fuel 0 input parentDOM None [] isSVG insertIntoDOM (rootState input).

Definition element (tag : string) (children : value) (key : keyT) (ref : refT) : value :=
  VObj (mkVNode 2 (TTag tag) None children key ref None).

Definition functional (out : value) (ref : refT) : value :=
  VObj (mkVNode 8 (TFunc (fun _ _ => out)) None VNull KNull ref None).

Definition classComponent (out : value) (didMount : option callback) (ref : refT) : value :=
  VObj (mkVNode 4 (TClass (fun _ c => mkInstance (fun _ _ => out) c didMount))
                None VNull KNull ref None).

Definition portal (container : domref) (content : value) : value :=
  VObj (mkVNode 4096 (TDom container) None content KNull RNull None).

(** * Properties *)

(** ** Rules for triples *)

Lemma bind_Ok_inv {A B} (m : M A) (k : A -> M B) s b s' :
  bind m k s = (Ok b, s') ->
  exists a s1, m s = (Ok a, s1) /\ k a s1 = (Ok b, s').
Proof.
  unfold bind. destruct (m s) as [[a|e|] s1]; intros H; try discriminate.
  eauto.
Qed.

Lemma hoare_bind {A B} (P : state -> Prop) (Q1 : A -> state -> Prop)
    (m : M A) (k : A -> M B) (Q : B -> state -> Prop) :
  hoare P m Q1 -> (forall a, hoare (Q1 a) (k a) Q) -> hoare P (bind m k) Q.
Proof.
  intros Hm Hk s b s' HP Hrun.
  apply bind_Ok_inv in Hrun as (a & s1 & H1 & H2).
  eapply Hk; [|exact H2]. eapply Hm; eauto.
Qed.

Lemma hoare_conseq {A} (P P' : state -> Prop) (Q Q' : A -> state -> Prop) (m : M A) :
  hoare P' m Q' -> (forall s, P s -> P' s) -> (forall a s, Q' a s -> Q a s) ->
  hoare P m Q.
Proof. intros H HP HQ s a s' Hs Hrun. eapply HQ, H; eauto. Qed.

Lemma hoare_ret {A} (P : state -> Prop) (a : A) (Q : A -> state -> Prop) :
  (forall s, P s -> Q a s) -> hoare P (ret a) Q.
Proof. intros H s b s' HP Hrun. inversion Hrun; subst. auto. Qed.

Lemma hoare_throw {A} (P : state -> Prop) e (Q : A -> state -> Prop) :
  hoare P (throw e) Q.
Proof. intros s b s' _ Hrun. discriminate. Qed.

Lemma hoare_outOfFuel {A} (P : state -> Prop) (Q : A -> state -> Prop) :
  hoare P outOfFuel Q.
Proof. intros s b s' _ Hrun. discriminate. Qed.

Lemma keeps_bind {A B} (I : state -> Prop) (V1 : A -> Prop) (m : M A)
    (k : A -> M B) (V : B -> Prop) :
  keeps I m V1 -> (forall a, V1 a -> keeps I (k a) V) -> keeps I (bind m k) V.
Proof.
  intros Hm Hk. eapply hoare_bind; [exact Hm|].
  intros a s b s' [HI HV]. apply (Hk a HV); exact HI.
Qed.

Lemma keeps_seq {B} (I : state -> Prop) (m : M unit) (k : M B) (V : B -> Prop) :
  keeps I m (fun _ => True) -> keeps I k V -> keeps I (bind m (fun _ => k)) V.
Proof. intros Hm Hk. eapply keeps_bind; [exact Hm|]. intros; exact Hk. Qed.

Lemma keeps_conseq {A} (I : state -> Prop) (m : M A) (V V' : A -> Prop) :
  keeps I m V' -> (forall a, V' a -> V a) -> keeps I m V.
Proof.
  intros H HV. eapply hoare_conseq; [exact H|auto|]. intros a s [? ?]; auto.
Qed.

Lemma keeps_ret {A} (I : state -> Prop) (a : A) (V : A -> Prop) :
  V a -> keeps I (ret a) V.
Proof. intros H. apply hoare_ret. auto. Qed.

Lemma keeps_throw {A} (I : state -> Prop) e (V : A -> Prop) : keeps I (throw e) V.
Proof. apply hoare_throw. Qed.

Lemma keeps_outOfFuel {A} (I : state -> Prop) (V : A -> Prop) : keeps I outOfFuel V.
Proof. apply hoare_outOfFuel. Qed.

Lemma keeps_when (I : state -> Prop) (b : bool) (m : M unit) :
  keeps I m (fun _ => True) -> keeps I (when b m) (fun _ => True).
Proof. intros H. destruct b; [exact H|]. apply keeps_ret. exact Logic.I. Qed.

(** A step that changes the state by [g] and always succeeds. *)
Lemma keeps_step {A} (I : state -> Prop) (m : M A) (V : A -> Prop) :
  (forall s, I s -> match m s with
                    | (Ok a, s') => I s' /\ V a
                    | _ => True
                    end) ->
  keeps I m V.
Proof. intros H s a s' HI Hrun. specialize (H s HI). rewrite Hrun in H. exact H. Qed.

(** ** The store only grows *)

Lemma extends_refl iv s : extends iv s s.
Proof.
  split; auto.
  - intros x Hx. exists x. auto.
  - exists []. rewrite app_nil_r. auto.
Qed.

(** Steps on [iv] compose, and so do the steps of a mounter working on an IV
    [c] that was allocated after [s0]. *)
Lemma extends_trans iv c s0 s1 s2 :
  extends iv s0 s1 -> extends c s1 s2 -> c = iv \/ length (ivs s0) <= c ->
  extends iv s0 s2.
Proof.
  intros [L1 F1 S1 D1 (e1 & T1 & N1) Q1 W1] [L2 F2 S2 D2 (e2 & T2 & N2) Q2 W2] Hc.
  split.
  - lia.
  - intros r Hr Hne. rewrite F2; [auto|lia|]. destruct Hc; lia.
  - intros x Hx. destruct (S1 x Hx) as (x1 & Hx1 & Hi & Hk & Hb).
    destruct (decide (c = iv)) as [->|Hne].
    + destruct (S2 x1 Hx1) as (x2 & Hx2 & Hi2 & Hk2 & Hb2).
      exists x2. repeat split; congruence.
    + exists x1. rewrite F2; [auto| |congruence].
      apply lookup_lt_Some in Hx1. lia.
  - lia.
  - exists (e1 ++ e2). rewrite T2, T1, app_assoc. split; [done|].
    apply Forall_app; auto.
  - etrans; eauto.
  - etrans; eauto.
Qed.

Lemma extends_emit iv s ev :
  deferred ev = false -> extends iv s (emit ev s).2.
Proof.
  intros Hev. split; simpl; auto.
  - intros x Hx. exists x; auto.
  - exists [ev]. auto.
Qed.

Lemma extends_push iv s o f : extends iv s (push o f s).2.
Proof.
  split; simpl; auto.
  - intros x Hx. exists x; auto.
  - exists []. rewrite app_nil_r. auto.
  - by apply prefix_app_r.
Qed.

Lemma extends_freshDom iv s : extends iv s (freshDom s).2.
Proof.
  split; simpl; auto.
  - intros x Hx. exists x; auto.
  - exists []. rewrite app_nil_r. auto.
Qed.

Lemma extends_createIV iv s input i : extends iv s (createIV input i s).2.
Proof.
  split; simpl; auto.
  - rewrite length_app. lia.
  - intros r Hr _. by apply lookup_app_l.
  - intros x Hx. exists x. split; [|auto]. by apply lookup_app_l_Some.
  - exists []. rewrite app_nil_r. auto.
Qed.

Lemma extends_modify iv s g :
  (forall x, iv_i (g x) = iv_i x /\ iv_k (g x) = iv_k x /\ iv_b (g x) = iv_b x) ->
  extends iv s (modify_ivs (alter g iv) s).2.
Proof.
  intros Hg. split; simpl; auto.
  - by rewrite length_alter.
  - intros r _ Hne. by apply list_lookup_alter_ne.
  - intros x Hx. exists (g x). rewrite list_lookup_alter_eq, Hx. split; [done|apply Hg].
  - exists []. rewrite app_nil_r. auto.
Qed.

Lemma extends_set_d iv s who self v : extends iv s (set_d who self iv v s).2.
Proof.
  split; simpl; auto.
  - by rewrite length_alter.
  - intros r _ Hne. by apply list_lookup_alter_ne.
  - intros x Hx. eexists. rewrite list_lookup_alter_eq, Hx. split; [done|auto].
  - exists []. rewrite app_nil_r. auto.
  - by apply prefix_app_r.
Qed.

(** Setting the back reference of an IV allocated after [s0]. *)
Lemma extends_set_b iv s0 s c b :
  extends iv s0 s -> length (ivs s0) <= c -> extends iv s0 (set_b c b s).2.
Proof.
  intros [L F S D T Q W] Hc. split; simpl; auto.
  - by rewrite length_alter.
  - intros r Hr Hne. rewrite list_lookup_alter_ne; [auto|lia].
  - intros x Hx. destruct (S x Hx) as (x' & Hx' & ?).
    exists x'. split; [|done]. rewrite list_lookup_alter_ne; [done|].
    apply lookup_lt_Some in Hx. lia.
Qed.

Section ExtendsPrimitives.

Variable iv : ivref.
Variable s0 : state.

Lemma keeps_ext_emit ev :
  deferred ev = false -> keeps (extends iv s0) (emit ev) (fun _ => True).
Proof.
  intros Hev. apply keeps_step. intros s Hs. simpl. split; [|done].
  eapply extends_trans; [exact Hs|by apply (extends_emit iv)|auto].
Qed.

Lemma keeps_ext_push o f : keeps (extends iv s0) (push o f) (fun _ => True).
Proof.
  apply keeps_step. intros s Hs. simpl. split; [|done].
  eapply extends_trans; [exact Hs|by apply (extends_push iv)|auto].
Qed.

Lemma keeps_ext_freshDom : keeps (extends iv s0) freshDom (fun _ => True).
Proof.
  apply keeps_step. intros s Hs. simpl. split; [|done].
  eapply extends_trans; [exact Hs|by apply (extends_freshDom iv)|auto].
Qed.

Lemma keeps_ext_createIV input i :
  keeps (extends iv s0) (createIV input i) (fun c => length (ivs s0) <= c).
Proof.
  apply keeps_step. intros s Hs. simpl. split.
  - eapply extends_trans; [exact Hs|by apply (extends_createIV iv)|auto].
  - apply Hs.
Qed.

Lemma keeps_ext_get_iv r : keeps (extends iv s0) (get_iv r) (fun _ => True).
Proof.
  apply keeps_step. intros s Hs. unfold get_iv. destruct (ivs s !! r); auto.
Qed.

Lemma keeps_ext_modify r g :
  mine iv s0 r ->
  (forall x, iv_i (g x) = iv_i x /\ iv_k (g x) = iv_k x /\ iv_b (g x) = iv_b x) ->
  keeps (extends iv s0) (modify_ivs (alter g r)) (fun _ => True).
Proof.
  intros Hr Hg. apply keeps_step. intros s Hs. split; [|done].
  eapply extends_trans; [exact Hs|by apply extends_modify|exact Hr].
Qed.

Lemma keeps_ext_set_c r c : mine iv s0 r -> keeps (extends iv s0) (set_c r c) (fun _ => True).
Proof. intros Hr. by apply keeps_ext_modify. Qed.

Lemma keeps_ext_set_f r f : mine iv s0 r -> keeps (extends iv s0) (set_f r f) (fun _ => True).
Proof. intros Hr. by apply keeps_ext_modify. Qed.

Lemma keeps_ext_set_t r t : mine iv s0 r -> keeps (extends iv s0) (set_t r t) (fun _ => True).
Proof. intros Hr. by apply keeps_ext_modify. Qed.

Lemma keeps_ext_set_b c b :
  length (ivs s0) <= c -> keeps (extends iv s0) (set_b c b) (fun _ => True).
Proof.
  intros Hc. apply keeps_step. intros s Hs. split; [|done].
  by apply extends_set_b.
Qed.

Lemma keeps_ext_set_d who self r v :
  mine iv s0 r -> keeps (extends iv s0) (set_d who self r v) (fun _ => True).
Proof.
  intros Hr. apply keeps_step. intros s Hs. split; [|done].
  eapply extends_trans; [exact Hs|by apply extends_set_d|exact Hr].
Qed.

(** The call of a mounter on [c], from whatever state, seen from [iv]. *)
Lemma keeps_ext_call {A} (m : M A) c :
  (forall s a s', m s = (Ok a, s') -> extends c s s') ->
  mine iv s0 c ->
  keeps (extends iv s0) m (fun _ => True).
Proof.
  intros Hm Hc s a s' Hs Hrun. split; [|done].
  eapply extends_trans; [exact Hs|eapply Hm; exact Hrun|exact Hc].
Qed.

End ExtendsPrimitives.

Ltac solve_mine :=
  solve [ left; reflexivity | right; assumption | assumption ].

(** The two loops keep whatever invariant their body keeps. *)
Lemma keeps_patchProps (I : state -> Prop) props dom isSVG hasControlledValue :
  (forall prop v,
      keeps I (emit (EvPatchProp prop v dom isSVG hasControlledValue)) (fun _ => True)) ->
  keeps I (patchProps props dom isSVG hasControlledValue) (fun _ => True).
Proof.
  intros Hemit. induction props as [|[prop v] rest IH].
  - by apply keeps_ret.
  - unfold patchProps; fold patchProps. eapply keeps_seq; [apply Hemit|exact IH].
Qed.

(** The loop of the array mounter visits exactly the valid entries: an
    invalid entry contributes nothing to the run. *)
Lemma mountArrayLoop_entries IVFlags mountChild iv forceKeyed children i firstValid :
  mountArrayLoop IVFlags mountChild iv forceKeyed children i firstValid
  = mountEntries IVFlags mountChild iv forceKeyed (validEntries children i) firstValid.
Proof.
  revert i firstValid. induction children as [|child rest IH]; intros i firstValid.
  - reflexivity.
  - unfold mountArrayLoop; fold mountArrayLoop. simpl.
    destruct (isInvalid child); simpl.
    + apply IH.
    + unfold mountEntries; fold mountEntries. by rewrite IH.
Qed.

Lemma keeps_mountEntries (I : state -> Prop) (P : bool -> Prop) IVFlags mountChild iv
    forceKeyed entries firstValid :
  P firstValid -> P false ->
  (forall child i firstValid (k : M unit),
      P firstValid ->
      keeps I k (fun _ => True) ->
      keeps I
        (when firstValid
           (set_c iv (CArray []) ;;
            set_f iv (if forceKeyed || hasKey child
                      then HasKeyedChildren IVFlags
                      else HasNonKeydChildren IVFlags)) ;;
         let* childIV := createIV child i in
         push_c iv childIV ;;
         mountChild childIV child ;;
         k)
        (fun _ => True)) ->
  keeps I (mountEntries IVFlags mountChild iv forceKeyed entries firstValid)
        (fun _ => True).
Proof.
  intros HP HPf Hbody. revert firstValid HP.
  induction entries as [|[i child] rest IH]; intros firstValid HP;
    unfold mountEntries; fold mountEntries; [by apply keeps_ret|].
  apply Hbody; [exact HP|]. apply IH, HPf.
Qed.

Lemma keeps_mountArrayLoop (I : state -> Prop) IVFlags mountChild iv forceKeyed children i
    firstValid :
  (forall child i firstValid (k : M unit),
      keeps I k (fun _ => True) ->
      keeps I
        (when firstValid
           (set_c iv (CArray []) ;;
            set_f iv (if forceKeyed || hasKey child
                      then HasKeyedChildren IVFlags
                      else HasNonKeydChildren IVFlags)) ;;
         let* childIV := createIV child i in
         push_c iv childIV ;;
         mountChild childIV child ;;
         k)
        (fun _ => True)) ->
  keeps I (mountArrayLoop IVFlags mountChild iv forceKeyed children i firstValid)
        (fun _ => True).
Proof.
  intros Hbody. rewrite mountArrayLoop_entries.
  apply keeps_mountEntries with (P := fun _ => True); auto.
Qed.

(** ** Facts about one IV that survive the steps of other mounters *)

Lemma holds_lt iv phi s : holds iv phi s -> iv < length (ivs s).
Proof. intros (x & Hx & _). by apply lookup_lt_Some in Hx. Qed.

Lemma holds_impl iv (phi psi : IV -> Prop) s :
  holds iv phi s -> (forall x, phi x -> psi x) -> holds iv psi s.
Proof. intros (x & Hx & Hphi) H. exists x. auto. Qed.

Lemma holds_same_ivs iv phi s s' : ivs s' = ivs s -> holds iv phi s -> holds iv phi s'.
Proof. intros E (x & Hx & Hphi). exists x. by rewrite E. Qed.

Lemma holds_alter iv phi g r s :
  (forall x, phi x -> phi (g x)) ->
  holds iv phi s -> holds iv phi (modify_ivs (alter g r) s).2.
Proof.
  intros Hg (x & Hx & Hphi). unfold holds. simpl.
  destruct (decide (r = iv)) as [->|Hne].
  - exists (g x). rewrite list_lookup_alter_eq, Hx. auto.
  - exists x. rewrite list_lookup_alter_ne; auto.
Qed.

Lemma holds_set_d iv phi who self r v s :
  (forall x, phi x ->
     phi (mkIV (iv_i x) (iv_k x) v (iv_c x) (iv_f x) (iv_t x) (iv_b x))) ->
  holds iv phi s -> holds iv phi (set_d who self r v s).2.
Proof.
  intros Hg (x & Hx & Hphi). unfold holds, set_d. simpl.
  destruct (decide (r = iv)) as [->|Hne].
  - eexists. rewrite list_lookup_alter_eq, Hx. split; [done|]. auto.
  - exists x. rewrite list_lookup_alter_ne; auto.
Qed.

Lemma holds_createIV iv phi input i s :
  holds iv phi s -> holds iv phi (createIV input i s).2 /\ iv < length (ivs s).
Proof.
  intros H. split; [|by eapply holds_lt].
  destruct H as (x & Hx & Hphi). exists x. split; [|done].
  unfold holds, createIV. simpl. by apply lookup_app_l_Some.
Qed.

(** A mounter working on another IV [c] leaves [iv] as it is. *)
Lemma holds_extends iv phi c s s' :
  holds iv phi s -> extends c s s' -> c <> iv -> holds iv phi s'.
Proof.
  intros (x & Hx & Hphi) He Hne. exists x. split; [|done].
  rewrite (ext_frame _ _ _ He); auto. by apply lookup_lt_Some in Hx.
Qed.

Section HoldsPrimitives.

Variable iv : ivref.
Variable phi : IV -> Prop.

Lemma keeps_holds_same {A} (m : M A) :
  (forall s, ivs (m s).2 = ivs s) -> keeps (holds iv phi) m (fun _ => True).
Proof.
  intros Hm s a s' Hs Hrun. split; [|done].
  eapply holds_same_ivs; [|exact Hs]. by rewrite <- (Hm s), Hrun.
Qed.

Lemma keeps_holds_get_iv r : keeps (holds iv phi) (get_iv r) (fun _ => True).
Proof.
  apply keeps_holds_same. intros s. unfold get_iv. by destruct (ivs s !! r).
Qed.

Lemma keeps_holds_createIV input i :
  keeps (holds iv phi) (createIV input i) (fun c => iv < c).
Proof.
  apply keeps_step. intros s Hs. exact (holds_createIV _ _ input i _ Hs).
Qed.

Lemma keeps_holds_modify g r :
  (forall x, phi x -> phi (g x)) ->
  keeps (holds iv phi) (modify_ivs (alter g r)) (fun _ => True).
Proof.
  intros Hg. apply keeps_step. intros s Hs. split; [|done]. by apply holds_alter.
Qed.

Lemma keeps_holds_set_d who self r v :
  (forall x, phi x ->
     phi (mkIV (iv_i x) (iv_k x) v (iv_c x) (iv_f x) (iv_t x) (iv_b x))) ->
  keeps (holds iv phi) (set_d who self r v) (fun _ => True).
Proof.
  intros Hg. apply keeps_step. intros s Hs. split; [|done]. by apply holds_set_d.
Qed.

Lemma keeps_holds_call {A} (m : M A) c :
  (forall s a s', m s = (Ok a, s') -> extends c s s') ->
  iv < c ->
  keeps (holds iv phi) m (fun _ => True).
Proof.
  intros Hm Hc s a s' Hs Hrun. split; [|done].
  eapply holds_extends; [exact Hs|eapply Hm; exact Hrun|lia].
Qed.

End HoldsPrimitives.

(** Decomposes a goal [keeps I m V] along the syntax of [m]; [prim] is tried
    on the store primitives and on the calls of the recursive mounters. *)
Ltac kgo prim :=
  lazymatch goal with
  | H : keeps ?I ?m _ |- keeps ?I ?m _ => exact H
  | |- keeps _ (ret _) _ => apply keeps_ret; auto
  | |- keeps _ (throw _) _ => apply keeps_throw
  | |- keeps _ outOfFuel _ => apply keeps_outOfFuel
  | |- keeps _ (@bind unit _ _ _) _ =>
      eapply keeps_bind with (V1 := fun _ => True); [kgo prim | intros ? ?; kgo prim]
  | |- keeps _ (bind (createIV _ _) _) _ =>
      eapply keeps_bind; [kgo prim | intros ? ?; kgo prim]
  | |- keeps _ (bind freshDom _) _ =>
      eapply keeps_bind; [kgo prim | intros ? ?; kgo prim]
  | |- keeps _ (bind (get_iv _) _) _ =>
      eapply keeps_bind; [kgo prim | intros ? ?; kgo prim]
  | |- keeps _ (bind (documentCreateElement _ _) _) _ =>
      first [ eapply keeps_bind; [solve [prim tt] | intros ? ?; kgo prim]
            | eapply keeps_bind with (V1 := fun _ => True);
              [kgo prim | intros ? ?; kgo prim] ]
  | |- keeps _ (bind _ _) _ =>
      eapply keeps_bind with (V1 := fun _ => True); [kgo prim | intros ? ?; kgo prim]
  | |- keeps _ (when false _) _ => apply keeps_ret; exact Logic.I
  | |- keeps _ (when true ?m) _ => change (when true m) with m; kgo prim
  | |- keeps _ (when _ _) _ => apply keeps_when; kgo prim
  | |- keeps _ (createTextNode _) _ => unfold createTextNode; kgo prim
  | |- keeps _ (documentCreateElement _ _) _ => unfold documentCreateElement; kgo prim
  | |- keeps _ (insertOrAppend _ _ _) _ => unfold insertOrAppend; kgo prim
  | |- keeps _ (push_c _ _) _ => unfold push_c; kgo prim
  | |- keeps _ (first_child_d _) _ => unfold first_child_d; kgo prim
  | |- keeps _ (mountText _ _ _ _ _ _ _ _) _ => unfold mountText; kgo prim
  | |- keeps _ (mountRef _ _ _ _) _ => unfold mountRef; kgo prim
  | |- keeps _ (mountClassComponentCallbacks _ _ _ _ _ _) _ =>
      unfold mountClassComponentCallbacks; kgo prim
  | |- keeps _ (mountFunctionalComponentCallbacks _ _ _ _) _ =>
      unfold mountFunctionalComponentCallbacks; kgo prim
  | |- keeps _ (patchProps _ _ _ _) _ => apply keeps_patchProps; intros ? ?; kgo prim
  | |- keeps _ (mountArrayLoop _ _ _ _ _ _ _) _ =>
      apply keeps_mountArrayLoop; intros ? ? ? ? ?; kgo prim
  | |- keeps _ (mountEntries _ _ _ _ _ false) _ =>
      apply keeps_mountEntries with (P := fun b => b = false);
      [reflexivity | reflexivity | intros ? ? ? ? -> ?; kgo prim]
  | |- keeps _ (if ?b then _ else _) _ => destruct b eqn:?; kgo prim
  | |- keeps _ (match ?x with _ => _ end) _ => destruct x eqn:?; kgo prim
  | |- keeps _ (let '(_, _) := ?x in _) _ => destruct x; kgo prim
  | |- _ => prim tt
  end.

Ltac prim_ext _ :=
  lazymatch goal with
  | |- keeps _ (emit _) _ => apply keeps_ext_emit; reflexivity
  | |- keeps _ (push _ _) _ => apply keeps_ext_push
  | |- keeps _ freshDom _ => apply keeps_ext_freshDom
  | |- keeps _ (createIV _ _) _ => apply keeps_ext_createIV
  | |- keeps _ (get_iv _) _ => apply keeps_ext_get_iv
  | |- keeps _ (set_c _ _) _ => apply keeps_ext_set_c; solve_mine
  | |- keeps _ (set_f _ _) _ => apply keeps_ext_set_f; solve_mine
  | |- keeps _ (set_t _ _) _ => apply keeps_ext_set_t; solve_mine
  | |- keeps _ (set_b _ _) _ => apply keeps_ext_set_b; assumption
  | |- keeps _ (set_d _ _ _ _) _ => apply keeps_ext_set_d; solve_mine
  | |- _ => idtac
  end.

Ltac kext := kgo prim_ext.

Ltac solve_field :=
  try solve [ intros [] ?; simpl in *; auto ].

Ltac prim_holds _ :=
  lazymatch goal with
  | |- keeps _ (emit _) _ => apply keeps_holds_same; intros; reflexivity
  | |- keeps _ (push _ _) _ => apply keeps_holds_same; intros; reflexivity
  | |- keeps _ freshDom _ => apply keeps_holds_same; intros; reflexivity
  | |- keeps _ (get_iv _) _ => apply keeps_holds_get_iv
  | |- keeps _ (createIV _ _) _ => apply keeps_holds_createIV
  | |- keeps _ (set_c _ _) _ => apply keeps_holds_modify; solve_field
  | |- keeps _ (set_f _ _) _ => apply keeps_holds_modify; solve_field
  | |- keeps _ (set_t _ _) _ => apply keeps_holds_modify; solve_field
  | |- keeps _ (set_b _ _) _ => apply keeps_holds_modify; solve_field
  | |- keeps _ (set_d _ _ _ _) _ => apply keeps_holds_set_d; solve_field
  | |- _ => idtac
  end.

Ltac kholds := kgo prim_holds.

(** Runs of the primitives, for proofs that follow one execution. *)
Lemma ret_Ok_inv {A} (a b : A) s s' : ret a s = (Ok b, s') -> b = a /\ s' = s.
Proof. intros H. inversion H. auto. Qed.

Lemma keeps_run {A} (I : state -> Prop) (m : M A) (V : A -> Prop) s a s' :
  keeps I m V -> I s -> m s = (Ok a, s') -> I s'.
Proof. intros K Hs Hrun. by destruct (K s a s' Hs Hrun). Qed.

Lemma keeps_run_True {A} (I : state -> Prop) (m : M A) s a s' :
  keeps I m (fun _ => True) -> I s -> m s = (Ok a, s') -> I s'.
Proof. apply keeps_run. Qed.

Lemma set_f_holds iv f s a s' :
  iv < length (ivs s) -> set_f iv f s = (Ok a, s') ->
  holds iv (fun x => iv_f x = f) s' /\ length (ivs s') = length (ivs s).
Proof.
  intros Hlt Hrun. inversion Hrun; subst; clear Hrun. unfold holds. simpl.
  rewrite length_alter. split; [|done].
  destruct (lookup_lt_is_Some_2 _ _ Hlt) as [x Hx].
  eexists. rewrite list_lookup_alter_eq, Hx. simpl. split; reflexivity.
Qed.

Lemma set_c_holds iv c s a s' :
  iv < length (ivs s) -> set_c iv c s = (Ok a, s') ->
  holds iv (fun x => iv_c x = c) s' /\ length (ivs s') = length (ivs s).
Proof.
  intros Hlt Hrun. inversion Hrun; subst; clear Hrun. unfold holds. simpl.
  rewrite length_alter. split; [|done].
  destruct (lookup_lt_is_Some_2 _ _ Hlt) as [x Hx].
  eexists. rewrite list_lookup_alter_eq, Hx. simpl. split; reflexivity.
Qed.

Lemma validEntries_invalid children i :
  Forall (fun x => isInvalid x = true) children -> validEntries children i = [].
Proof.
  intros H. revert i. induction H as [|x l Hx _ IH]; intros i; simpl; [done|].
  rewrite Hx. apply IH.
Qed.

Lemma validEntries_first pre child post i :
  Forall (fun x => isInvalid x = true) pre -> isInvalid child = false ->
  validEntries (pre ++ child :: post) i
  = (i + length pre, child) :: validEntries post (S (i + length pre)).
Proof.
  intros H Hc. revert i. induction H as [|x l Hx _ IH]; intros i; simpl.
  - rewrite Hc. by rewrite Nat.add_0_r.
  - rewrite Hx, IH.
    replace (i + S (length l)) with (S i + length l) by lia. done.
Qed.

Lemma when_false m s : when false m s = (Ok tt, s).
Proof. reflexivity. Qed.

Ltac binv H :=
  repeat
    (cbv beta in H;
     lazymatch type of H with
     | bind _ _ _ = _ =>
         let a := fresh "a" in let s := fresh "s" in let H1 := fresh "Hrun" in
         apply bind_Ok_inv in H as (a & s & H1 & H)
     end).

Tactic Notation "bstep" hyp(H) "as" simple_intropattern(p) :=
  cbv beta in H;
  lazymatch type of H with
  | bind _ _ _ = _ => apply bind_Ok_inv in H as p
  end.

Lemma unchanged_refl s : unchanged s s.
Proof. by unfold unchanged. Qed.

(** Field writes allocate, create, trace and queue nothing. *)
Lemma keeps_unchanged_modify s0 g r :
  keeps (unchanged s0) (modify_ivs (alter g r)) (fun _ => True).
Proof.
  apply keeps_step. intros s (L & D & T & Q). split; [|done].
  unfold unchanged. simpl. by rewrite length_alter.
Qed.

Lemma keeps_unchanged_set_d s0 who self r v :
  keeps (unchanged s0) (set_d who self r v) (fun _ => True).
Proof.
  apply keeps_step. intros s (L & D & T & Q). split; [|done].
  unfold unchanged, set_d. simpl. by rewrite length_alter.
Qed.

Lemma keeps_unchanged_get_iv s0 r : keeps (unchanged s0) (get_iv r) (fun _ => True).
Proof.
  apply keeps_step. intros s Hs. unfold get_iv. by destruct (ivs s !! r).
Qed.

Ltac prim_unchanged _ :=
  lazymatch goal with
  | |- keeps _ (get_iv _) _ => apply keeps_unchanged_get_iv
  | |- keeps _ (set_c _ _) _ => apply keeps_unchanged_modify
  | |- keeps _ (set_f _ _) _ => apply keeps_unchanged_modify
  | |- keeps _ (set_t _ _) _ => apply keeps_unchanged_modify
  | |- keeps _ (set_b _ _) _ => apply keeps_unchanged_modify
  | |- keeps _ (set_d _ _ _ _) _ => apply keeps_unchanged_set_d
  | |- _ => idtac
  end.

(** An IV keeps mirroring its entry while any mounter runs. *)
Lemma mirrors_extends s s' c r e : mirrors s r e -> extends c s s' -> mirrors s' r e.
Proof.
  intros (y & Hy & Hk & Hi) He. unfold mirrors, holds.
  destruct (decide (r = c)) as [->|Hne].
  - destruct (ext_self _ _ _ He y Hy) as (y' & Hy' & Hi' & Hk' & _).
    exists y'. split; [done|]. split; congruence.
  - exists y. split; [|done]. rewrite (ext_frame _ _ _ He); [done| |done].
    by apply lookup_lt_Some in Hy.
Qed.

(** The run of [mountEntries] on a non-empty list when the shape flag is
    still to be decided. *)
Lemma mountEntries_first IVFlags mountChild iv forceKeyed i child rest s :
  mountEntries IVFlags mountChild iv forceKeyed ((i, child) :: rest) true s
  = ((set_c iv (CArray []) ;;
      set_f iv (if forceKeyed || hasKey child
                then HasKeyedChildren IVFlags
                else HasNonKeydChildren IVFlags)) ;;
     mountEntries IVFlags mountChild iv forceKeyed ((i, child) :: rest) false) s.
Proof.
  unfold mountEntries; fold mountEntries. unfold bind, when, ret.
  by destruct (set_c iv (CArray []) s) as [[[]| |] s1].
Qed.

(** Once the flag is decided, the loop appends one child IV per entry: the
    children sequence of [iv] grows by IVs that mirror the entries, in order. *)
Lemma mountEntries_children IVFlags mountChild iv forceKeyed entries :
  (forall c child s a s', mountChild c child s = (Ok a, s') -> extends c s s') ->
  forall rs0 done s a s',
    holds iv (fun x => iv_c x = CArray rs0) s ->
    Forall2 (mirrors s) rs0 done ->
    mountEntries IVFlags mountChild iv forceKeyed entries false s = (Ok a, s') ->
    exists rs, holds iv (fun x => iv_c x = CArray rs) s'
               /\ Forall2 (mirrors s') rs (done ++ entries).
Proof.
  intros Hchild. induction entries as [|[i child] rest IH]; intros rs0 done s a s' Hc Hm Hrun.
  - apply ret_Ok_inv in Hrun as [_ ->]. exists rs0. by rewrite app_nil_r.
  - unfold mountEntries in Hrun; fold mountEntries in Hrun.
    bstep Hrun as ([] & s1 & Hw & Hrun). apply ret_Ok_inv in Hw as [_ ->].
    bstep Hrun as (c & s2 & Hcreate & Hrun).
    bstep Hrun as ([] & s3 & Hpush & Hrun).
    bstep Hrun as (d & s4 & Hmount & Hrun).
    unfold createIV in Hcreate. inversion Hcreate; subst c s2; clear Hcreate.
    destruct Hc as (x & Hx & Hcx).
    assert (Hlt : iv < length (ivs s)) by (by apply lookup_lt_Some in Hx).
    unfold push_c in Hpush. bstep Hpush as (x' & s2 & Hget & Hpush).
    unfold get_iv in Hget. simpl in Hget.
    rewrite (lookup_app_l_Some _ _ _ _ Hx) in Hget.
    inversion Hget; subst x' s2; clear Hget. rewrite Hcx in Hpush.
    inversion Hpush; subst s3; clear Hpush.
    pose proof (Hchild _ _ _ _ _ Hmount) as He.
    eapply (IH (rs0 ++ [length (ivs s)]) (done ++ [(i, child)])) in Hrun.
    + destruct Hrun as (rs & Hrs & HF). exists rs. by rewrite <- app_assoc in HF.
    + eapply holds_extends; [|exact He|lia].
      unfold holds. simpl. eexists.
      rewrite list_lookup_alter_eq, (lookup_app_l_Some _ _ _ _ Hx). simpl.
      split; reflexivity.
    + apply Forall2_app.
      * eapply Forall2_impl; [exact Hm|]. intros r e Hre.
        eapply mirrors_extends; [|exact He].
        destruct Hre as (y & Hy & Hky). unfold mirrors, holds. simpl.
        destruct (decide (r = iv)) as [->|Hne].
        -- eexists. rewrite list_lookup_alter_eq, (lookup_app_l_Some _ _ _ _ Hy).
           simpl. split; [reflexivity|]. exact Hky.
        -- exists y. rewrite list_lookup_alter_ne by done.
           by rewrite (lookup_app_l_Some _ _ _ _ Hy).
      * constructor; [|constructor]. eapply mirrors_extends; [|exact He].
        unfold mirrors, holds. simpl. eexists.
        rewrite list_lookup_alter_ne by lia.
        rewrite lookup_app_r by lia. rewrite Nat.sub_diag. simpl.
        split; [reflexivity|]. by split.
Qed.

(** ** Who assigns the [d] field *)

Lemma grows_refl s : grows s s.
Proof. intros r y Hy. eauto. Qed.

Lemma grows_trans s1 s2 s3 : grows s1 s2 -> grows s2 s3 -> grows s1 s3.
Proof.
  intros H12 H23 r y Hy. destruct (H12 r y Hy) as (y2 & Hy2 & E2).
  destruct (H23 r y2 Hy2) as (y3 & Hy3 & E3). exists y3. split; [done|congruence].
Qed.

Lemma grows_same_ivs s s' : ivs s' = ivs s -> grows s s'.
Proof. intros E r y Hy. exists y. by rewrite E. Qed.

Lemma grows_createIV input i s : grows s (createIV input i s).2.
Proof. intros r y Hy. exists y. split; [|done]. by apply lookup_app_l_Some. Qed.

Lemma grows_alter g r s :
  (forall x, iv_b (g x) = iv_b x) -> grows s (modify_ivs (alter g r) s).2.
Proof.
  intros Hg r' y Hy. simpl. destruct (decide (r = r')) as [->|Hne].
  - exists (g y). rewrite list_lookup_alter_eq, Hy. auto.
  - exists y. by rewrite list_lookup_alter_ne.
Qed.

Lemma grows_set_d who self r v s : grows s (set_d who self r v s).2.
Proof.
  intros r' y Hy. unfold set_d. simpl. destruct (decide (r = r')) as [->|Hne].
  - eexists. rewrite list_lookup_alter_eq, Hy. simpl. auto.
  - exists y. by rewrite list_lookup_alter_ne.
Qed.

Lemma extends_grows c s s' : extends c s s' -> grows s s'.
Proof.
  intros He r y Hy. destruct (decide (r = c)) as [->|Hne].
  - destruct (ext_self _ _ _ He y Hy) as (y' & Hy' & _ & _ & Hb). eauto.
  - exists y. split; [|done]. rewrite (ext_frame _ _ _ He); [done| |done].
    by apply lookup_lt_Some in Hy.
Qed.

Lemma okWrite_grows s s' w : okWrite s w -> grows s s' -> okWrite s' w.
Proof.
  intros [E|[Hw (y & Hy & Hb)]] Hg; [by left|right]. split; [done|].
  destruct (Hg _ _ Hy) as (y' & Hy' & E). exists y'. split; [done|congruence].
Qed.

Lemma journal_refl s : journal s s.
Proof. exists []. by rewrite app_nil_r. Qed.

Lemma journal_grows s0 s s' :
  journal s0 s -> grows s s' -> domWrites s' = domWrites s -> journal s0 s'.
Proof.
  intros (ws & E & Hok) Hg Hd. exists ws. split; [congruence|].
  eapply Forall_impl; [exact Hok|]. intros w Hw. by eapply okWrite_grows.
Qed.

Lemma journal_write s0 s s' w :
  journal s0 s -> grows s s' -> domWrites s' = domWrites s ++ [w] -> okWrite s' w ->
  journal s0 s'.
Proof.
  intros (ws & E & Hok) Hg Hd Hw. exists (ws ++ [w]).
  split; [by rewrite Hd, E, app_assoc|]. apply Forall_app. split; [|by constructor].
  eapply Forall_impl; [exact Hok|]. intros w' Hw'. by eapply okWrite_grows.
Qed.

Lemma journal_trans s0 s s' :
  journal s0 s -> grows s s' -> journal s s' -> journal s0 s'.
Proof.
  intros (ws & E & Hok) Hg (ws' & E' & Hok'). exists (ws ++ ws').
  split; [by rewrite E', E, app_assoc|]. apply Forall_app. split; [|done].
  eapply Forall_impl; [exact Hok|]. intros w Hw. by eapply okWrite_grows.
Qed.

Lemma keeps_journal_same {A} s0 (m : M A) :
  (forall s, ivs (m s).2 = ivs s /\ domWrites (m s).2 = domWrites s) ->
  keeps (journal s0) m (fun _ => True).
Proof.
  intros Hm s a s' Hs Hrun. split; [|done]. destruct (Hm s) as [Hi Hd].
  rewrite Hrun in Hi, Hd. eapply journal_grows; [exact Hs|by apply grows_same_ivs|done].
Qed.

Lemma keeps_journal_get_iv s0 r : keeps (journal s0) (get_iv r) (fun _ => True).
Proof.
  apply keeps_journal_same. intros s. unfold get_iv. by destruct (ivs s !! r).
Qed.

Lemma keeps_journal_createIV s0 input i :
  keeps (journal s0) (createIV input i) (fun _ => True).
Proof.
  apply keeps_step. intros s Hs. split; [|done].
  eapply journal_grows; [exact Hs|apply grows_createIV|done].
Qed.

Lemma keeps_journal_modify s0 g r :
  (forall x, iv_b (g x) = iv_b x) ->
  keeps (journal s0) (modify_ivs (alter g r)) (fun _ => True).
Proof.
  intros Hg. apply keeps_step. intros s Hs. split; [|done].
  eapply journal_grows; [exact Hs|by apply grows_alter|done].
Qed.

(** A mounter assigning the [d] field of the IV it is mounting. *)
Lemma keeps_journal_set_d s0 who iv v :
  keeps (journal s0) (set_d who iv iv v) (fun _ => True).
Proof.
  apply keeps_step. intros s Hs. split; [|done].
  eapply journal_write; [exact Hs|apply grows_set_d|reflexivity|by left].
Qed.

Lemma keeps_journal_call {A} s0 (m : M A) c :
  (forall s a s', m s = (Ok a, s') -> extends c s s' /\ journal s s') ->
  keeps (journal s0) m (fun _ => True).
Proof.
  intros Hm s a s' Hs Hrun. split; [|done]. destruct (Hm _ _ _ Hrun) as [He Hj].
  eapply journal_trans; [exact Hs|by eapply extends_grows|exact Hj].
Qed.

(** The Component Mounter prepares the IV of its render output: once created
    and back-referenced, that IV is the only one whose back reference changed. *)
Lemma component_child_prepared s f input c iv s1 s2 s3 s4 :
  set_f iv f s = (Ok tt, s1) ->
  createIV input 0 s1 = (Ok c, s2) ->
  set_c iv (CSingle c) s2 = (Ok tt, s3) ->
  set_b c iv s3 = (Ok tt, s4) ->
  grows s s4 /\ domWrites s4 = domWrites s
  /\ holds c (fun y => iv_b y = Some iv) s4.
Proof.
  intros Hf Hcr Hsc Hsb.
  inversion Hf; subst s1; clear Hf. inversion Hcr; subst c s2; clear Hcr.
  inversion Hsc; subst s3; clear Hsc. inversion Hsb; subst s4; clear Hsb.
  simpl. rewrite length_alter. split; [|split; [done|]].
  - intros r y Hy. simpl.
    assert (Hr : r < length (ivs s)) by (by apply lookup_lt_Some in Hy).
    rewrite list_lookup_alter_ne by lia.
    destruct (decide (iv = r)) as [->|Hne].
    + eexists. rewrite list_lookup_alter_eq.
      rewrite lookup_app_l by (rewrite length_alter; lia).
      rewrite list_lookup_alter_eq, Hy. simpl. split; reflexivity.
    + exists y. rewrite list_lookup_alter_ne by done.
      rewrite lookup_app_l by (rewrite length_alter; lia).
      by rewrite list_lookup_alter_ne.
  - unfold holds. simpl.
    set (l := alter _ iv (alter _ iv (ivs s) ++ _)).
    assert (Hlt : length (ivs s) < length l).
    { unfold l. rewrite length_alter, length_app, length_alter. simpl. lia. }
    destruct (lookup_lt_is_Some_2 _ _ Hlt) as [y Hy].
    eexists. rewrite list_lookup_alter_eq, Hy. simpl. split; reflexivity.
Qed.

Ltac prim_journal _ :=
  lazymatch goal with
  | |- keeps _ (emit _) _ => apply keeps_journal_same; intros; split; reflexivity
  | |- keeps _ (push _ _) _ => apply keeps_journal_same; intros; split; reflexivity
  | |- keeps _ freshDom _ => apply keeps_journal_same; intros; split; reflexivity
  | |- keeps _ (get_iv _) _ => apply keeps_journal_get_iv
  | |- keeps _ (createIV _ _) _ => apply keeps_journal_createIV
  | |- keeps _ (set_c _ _) _ => apply keeps_journal_modify; intros; reflexivity
  | |- keeps _ (set_f _ _) _ => apply keeps_journal_modify; intros; reflexivity
  | |- keeps _ (set_t _ _) _ => apply keeps_journal_modify; intros; reflexivity
  | |- keeps _ (set_d _ ?iv ?iv _) _ => apply keeps_journal_set_d
  | |- _ => idtac
  end.

(** ** Where nodes are inserted *)

Lemma clean_refl p s : p < nextDom s -> clean p s s.
Proof. intros Hp. split; [done|]. exists []. by rewrite app_nil_r. Qed.

Lemma clean_trans p s0 s s' : clean p s0 s -> clean p s s' -> clean p s0 s'.
Proof.
  intros (_ & e1 & T1 & F1) (Hp & e2 & T2 & F2). split; [done|].
  exists (e1 ++ e2). split; [by rewrite T2, T1, app_assoc|]. by apply Forall_app.
Qed.

Lemma keeps_clean_same {A} p s0 (m : M A) :
  (forall s, nextDom (m s).2 = nextDom s /\ trace (m s).2 = trace s) ->
  keeps (clean p s0) m (fun _ => True).
Proof.
  intros Hm s a s' (Hp & evs & T & F) Hrun. split; [|done].
  destruct (Hm s) as [Hd Ht]. rewrite Hrun in Hd, Ht. simpl in *.
  split; [lia|]. exists evs. split; [congruence|done].
Qed.

Lemma keeps_clean_get_iv p s0 r : keeps (clean p s0) (get_iv r) (fun _ => True).
Proof.
  apply keeps_clean_same. intros s. unfold get_iv. by destruct (ivs s !! r).
Qed.

Lemma keeps_clean_emit p s0 ev :
  insertsInto p ev = false -> keeps (clean p s0) (emit ev) (fun _ => True).
Proof.
  intros Hev. apply keeps_step. intros s (Hp & evs & T & F). split; [|done].
  split; [done|]. exists (evs ++ [ev]). unfold emit. simpl.
  split; [by rewrite T, app_assoc|]. apply Forall_app. split; [done|by constructor].
Qed.

Lemma keeps_clean_freshDom p s0 : keeps (clean p s0) freshDom (fun n => p < n).
Proof.
  apply keeps_step. intros s (Hp & evs & T & F). unfold freshDom. simpl.
  split; [|done]. split; [simpl; lia|]. by exists evs.
Qed.

Lemma keeps_clean_documentCreateElement p s0 tag isSVG :
  keeps (clean p s0) (documentCreateElement tag isSVG) (fun n => p < n).
Proof.
  unfold documentCreateElement. eapply keeps_bind; [apply keeps_clean_freshDom|].
  intros n Hn. eapply keeps_seq; [by apply keeps_clean_emit|by apply keeps_ret].
Qed.

Lemma keeps_clean_call {A} p s0 (m : M A) :
  (forall s1, keeps (clean p s1) m (fun _ => True)) ->
  keeps (clean p s0) m (fun _ => True).
Proof. intros Hm. apply Hm. Qed.

Lemma avoids_asVNode p input vNode :
  avoids p input -> asVNode input = Some vNode -> avoids p (VObj vNode).
Proof.
  intros Hav Hv. destruct input; try discriminate. simpl in Hv.
  destruct (0 <? flags v)%Z; [|discriminate]. by inversion Hv; subst.
Qed.

Lemma avoids_arrayLike p input l :
  avoids p input -> arrayLike input = Some l -> Forall (avoids p) l.
Proof.
  intros Hav Hl. destruct input; simpl in Hl; inversion Hl; subst; clear Hl.
  - constructor.
  - apply Forall_fmap, Forall_true. intros a. constructor.
  - constructor.
  - by inversion Hav.
  - constructor.
Qed.

Lemma avoids_children p vNode : avoids p (VObj vNode) -> avoids p (children vNode).
Proof. by inversion 1. Qed.

Lemma avoids_container p vNode container :
  avoids p (VObj vNode) -> type vNode = TDom container -> container <> p.
Proof. inversion 1; subst. auto. Qed.

Lemma avoids_function p vNode fn pr cx :
  avoids p (VObj vNode) -> type vNode = TFunc fn -> avoids p (fn pr cx).
Proof. inversion 1; subst. auto. Qed.

Lemma avoids_class p vNode new pr cx :
  avoids p (VObj vNode) -> type vNode = TClass new ->
  avoids p (render (new pr cx) pr cx).
Proof. inversion 1; subst. auto. Qed.

Ltac prim_clean _ :=
  lazymatch goal with
  | |- keeps _ (emit _) _ =>
      apply keeps_clean_emit; simpl;
      first [ reflexivity | apply Nat.eqb_neq; first [assumption | lia] ]
  | |- keeps _ (push _ _) _ => apply keeps_clean_same; intros; split; reflexivity
  | |- keeps _ freshDom _ => apply keeps_clean_freshDom
  | |- keeps _ (documentCreateElement _ _) _ => apply keeps_clean_documentCreateElement
  | |- keeps _ (get_iv _) _ => apply keeps_clean_get_iv
  | |- keeps _ (createIV _ _) _ => apply keeps_clean_same; intros; split; reflexivity
  | |- keeps _ (set_c _ _) _ => apply keeps_clean_same; intros; split; reflexivity
  | |- keeps _ (set_f _ _) _ => apply keeps_clean_same; intros; split; reflexivity
  | |- keeps _ (set_t _ _) _ => apply keeps_clean_same; intros; split; reflexivity
  | |- keeps _ (set_b _ _) _ => apply keeps_clean_same; intros; split; reflexivity
  | |- keeps _ (set_d _ _ _ _) _ => apply keeps_clean_same; intros; split; reflexivity
  | |- _ => idtac
  end.

Section MountProperties.

Variable VNodeFlags : VNodeFlagsT.
Variable IVFlags : IVFlagsT.
Variable options : Options.
Variable production : bool.
Variable isControlledFormElement : propsT -> bool.

Abbreviation mount :=
  (mount VNodeFlags IVFlags options production isControlledFormElement).
Abbreviation mountVNode :=
  (mountVNode VNodeFlags IVFlags options production isControlledFormElement).
Abbreviation mountPortal :=
  (mountPortal VNodeFlags IVFlags options production isControlledFormElement).
Abbreviation mountElement :=
  (mountElement VNodeFlags IVFlags options production isControlledFormElement).
Abbreviation mountArrayChildren :=
  (mountArrayChildren VNodeFlags IVFlags options production isControlledFormElement).
Abbreviation mountComponent :=
  (mountComponent VNodeFlags IVFlags options production isControlledFormElement).

(** Every mounter extends the store in the sense of [extends]. *)
Lemma mounters_extend fuel :
  (forall iv input parentDOM nextNode context isSVG insertIntoDOM s a s',
      mount fuel iv input parentDOM nextNode context isSVG insertIntoDOM s = (Ok a, s') ->
      extends iv s s')
  /\ (forall iv input parentDOM nextNode context isSVG insertIntoDOM s a s',
      mountVNode fuel iv input parentDOM nextNode context isSVG insertIntoDOM s
      = (Ok a, s') -> extends iv s s')
  /\ (forall iv vNode parentDOM nextNode context isSVG insertIntoDom s a s',
      mountPortal fuel iv vNode parentDOM nextNode context isSVG insertIntoDom s
      = (Ok a, s') -> extends iv s s')
  /\ (forall iv vNode parentDOM nextNode context isSVG insertIntoDom s a s',
      mountElement fuel iv vNode parentDOM nextNode context isSVG insertIntoDom s
      = (Ok a, s') -> extends iv s s')
  /\ (forall iv children parentDOM nextNode context isSVG forceKeyed isVirtual s a s',
      mountArrayChildren fuel iv children parentDOM nextNode context isSVG forceKeyed
                         isVirtual s = (Ok a, s') -> extends iv s s')
  /\ (forall iv vNode parentDOM nextNode context isSVG insertIntoDom s a s',
      mountComponent fuel iv vNode parentDOM nextNode context isSVG insertIntoDom s
      = (Ok a, s') -> extends iv s s').
Proof.
  induction fuel as [|fuel (IHm & IHv & IHp & IHe & IHa & IHc)].
  { repeat split; intros; discriminate. }
  assert (Hfin : forall A (m : M A) iv,
             (forall s0, keeps (extends iv s0) m (fun _ => True)) ->
             forall s a s', m s = (Ok a, s') -> extends iv s s').
  { intros A m iv K s a s' Hrun. eapply (K s s); [apply extends_refl|exact Hrun]. }
  split; [|split; [|split; [|split; [|split]]]];
    intros iv x parentDOM nextNode context isSVG;
    repeat lazymatch goal with |- forall _ : bool, _ => intros ? end;
    apply Hfin; intros s0; simpl; kext.
  all: try (eapply keeps_ext_call;
            [ first [apply IHm|apply IHv|apply IHp|apply IHe|apply IHa|apply IHc]
            | solve_mine ]).
Qed.

Lemma mount_extends fuel iv input parentDOM nextNode context isSVG insertIntoDOM s a s' :
  mount fuel iv input parentDOM nextNode context isSVG insertIntoDOM s = (Ok a, s') ->
  extends iv s s'.
Proof. apply mounters_extend. Qed.

Lemma mountVNode_extends fuel iv input parentDOM nextNode context isSVG insertIntoDOM
    s a s' :
  mountVNode fuel iv input parentDOM nextNode context isSVG insertIntoDOM s = (Ok a, s') ->
  extends iv s s'.
Proof. apply mounters_extend. Qed.

Lemma mountPortal_extends fuel iv vNode parentDOM nextNode context isSVG insertIntoDom
    s a s' :
  mountPortal fuel iv vNode parentDOM nextNode context isSVG insertIntoDom s = (Ok a, s') ->
  extends iv s s'.
Proof. apply mounters_extend. Qed.

Lemma mountElement_extends fuel iv vNode parentDOM nextNode context isSVG insertIntoDom
    s a s' :
  mountElement fuel iv vNode parentDOM nextNode context isSVG insertIntoDom s
  = (Ok a, s') -> extends iv s s'.
Proof. apply mounters_extend. Qed.

Lemma mountArrayChildren_extends fuel iv children parentDOM nextNode context isSVG
    forceKeyed isVirtual s a s' :
  mountArrayChildren fuel iv children parentDOM nextNode context isSVG forceKeyed
                     isVirtual s = (Ok a, s') -> extends iv s s'.
Proof. apply mounters_extend. Qed.

Lemma mountComponent_extends fuel iv vNode parentDOM nextNode context isSVG insertIntoDom
    s a s' :
  mountComponent fuel iv vNode parentDOM nextNode context isSVG insertIntoDom s
  = (Ok a, s') -> extends iv s s'.
Proof. apply mounters_extend. Qed.

(** What remains of a mounter's body after some steps still extends the
    store: [ext_of H iv] derives it for the computation run in [H]. *)
Ltac kcalls :=
  try (eapply keeps_ext_call;
       [ first [ apply mount_extends | apply mountVNode_extends
               | apply mountPortal_extends | apply mountElement_extends
               | apply mountArrayChildren_extends | apply mountComponent_extends ]
       | solve_mine ]).

Lemma keeps_extends_run {A} (m : M A) iv s a s' :
  keeps (extends iv s) m (fun _ => True) -> m s = (Ok a, s') -> extends iv s s'.
Proof. intros K H. eapply K; [apply extends_refl|exact H]. Qed.

Ltac ext_of H iv :=
  lazymatch type of H with
  | ?m ?s = (Ok _, ?s') =>
      let K := fresh "K" in
      assert (K : extends iv s s')
        by (eapply (keeps_extends_run m iv); [kext; kcalls | exact H])
  end.

Lemma documentCreateElement_run tag isSVG s :
  documentCreateElement tag isSVG s
  = (Ok (nextDom s),
     mkState (ivs s) (S (nextDom s)) (lifecycle s)
             (trace s ++ [EvCreateElement (nextDom s) tag isSVG]) (domWrites s)).
Proof. reflexivity. Qed.

Lemma createIV_run input i s :
  createIV input i s
  = (Ok (length (ivs s)),
     mkState (ivs s ++ [mkIV input i DNull CNull 0%Z Regular None])
             (nextDom s) (lifecycle s) (trace s) (domWrites s)).
Proof. reflexivity. Qed.

(** ** Fuel *)

(** The fuel only bounds the depth of the recursion: a run that does not run
    out of fuel is the same run with more fuel. *)
Lemma refines_refl {A} (m : M A) : refines m m.
Proof. by intros s o s' H _. Qed.

Lemma refines_outOfFuel {A} (m : M A) : refines outOfFuel m.
Proof. intros s o s' H Ho. inversion H; subst. done. Qed.

Lemma refines_bind {A B} (m1 m2 : M A) (k1 k2 : A -> M B) :
  refines m1 m2 -> (forall a, refines (k1 a) (k2 a)) ->
  refines (bind m1 k1) (bind m2 k2).
Proof.
  intros Hm Hk s o s' H Ho. unfold bind in *.
  destruct (m1 s) as [[a|e|] s1] eqn:E.
  - rewrite (Hm _ _ _ E) by done. by apply Hk.
  - rewrite (Hm _ _ _ E) by done. done.
  - inversion H; subst. done.
Qed.

Lemma refines_when b (m1 m2 : M unit) :
  refines m1 m2 -> refines (when b m1) (when b m2).
Proof. intros H. destruct b; [exact H|apply refines_refl]. Qed.

Lemma refines_mountArrayLoop mountChild1 mountChild2 iv forceKeyed l :
  (forall c child, refines (mountChild1 c child) (mountChild2 c child)) ->
  forall i firstValid,
    refines (mountArrayLoop IVFlags mountChild1 iv forceKeyed l i firstValid)
            (mountArrayLoop IVFlags mountChild2 iv forceKeyed l i firstValid).
Proof.
  intros Hc. induction l as [|child rest IH]; intros i firstValid;
    unfold mountArrayLoop; fold mountArrayLoop; [apply refines_refl|].
  destruct (negb (isInvalid child)); [|apply IH].
  apply refines_bind; [apply refines_refl|]. intros _.
  apply refines_bind; [apply refines_refl|]. intros c.
  apply refines_bind; [apply refines_refl|]. intros _.
  apply refines_bind; [apply Hc|]. intros _. apply IH.
Qed.

Ltac rgo :=
  cbv beta;
  lazymatch goal with
  | H : forall _, _ |- refines (_ ?n _ _ _ _ _ _ _) (_ ?m _ _ _ _ _ _ _) =>
      first [ apply refines_refl | solve [auto] ]
  | |- refines ?m ?m => apply refines_refl
  | |- refines (bind _ _) (bind _ _) =>
      apply refines_bind; [rgo | intros ?; rgo]
  | |- refines (when _ _) (when _ _) => apply refines_when; rgo
  | |- refines (mountArrayLoop _ _ _ _ _ _ _) (mountArrayLoop _ _ _ _ _ _ _) =>
      apply refines_mountArrayLoop; intros ? ?; rgo
  | |- refines (if ?b then _ else _) _ => destruct b; rgo
  | |- refines (match ?x with _ => _ end) _ => destruct x; rgo
  | |- _ => first [ apply refines_refl | solve [auto] ]
  end.

(** *** More fuel changes nothing *)

Lemma mounters_fuel_step n m :
  ((forall iv input parentDOM nextNode context isSVG insertIntoDOM,
       refines (mount n iv input parentDOM nextNode context isSVG insertIntoDOM)
               (mount m iv input parentDOM nextNode context isSVG insertIntoDOM))
   /\ (forall iv input parentDOM nextNode context isSVG insertIntoDOM,
       refines (mountVNode n iv input parentDOM nextNode context isSVG insertIntoDOM)
               (mountVNode m iv input parentDOM nextNode context isSVG insertIntoDOM))
   /\ (forall iv vNode parentDOM nextNode context isSVG insertIntoDom,
       refines (mountPortal n iv vNode parentDOM nextNode context isSVG insertIntoDom)
               (mountPortal m iv vNode parentDOM nextNode context isSVG insertIntoDom))
   /\ (forall iv vNode parentDOM nextNode context isSVG insertIntoDom,
       refines (mountElement n iv vNode parentDOM nextNode context isSVG insertIntoDom)
               (mountElement m iv vNode parentDOM nextNode context isSVG insertIntoDom))
   /\ (forall iv children parentDOM nextNode context isSVG forceKeyed isVirtual,
       refines (mountArrayChildren n iv children parentDOM nextNode context isSVG
                                   forceKeyed isVirtual)
               (mountArrayChildren m iv children parentDOM nextNode context isSVG
                                   forceKeyed isVirtual))
   /\ (forall iv vNode parentDOM nextNode context isSVG insertIntoDom,
       refines (mountComponent n iv vNode parentDOM nextNode context isSVG insertIntoDom)
               (mountComponent m iv vNode parentDOM nextNode context isSVG insertIntoDom)))
  ->
  (forall iv input parentDOM nextNode context isSVG insertIntoDOM,
       refines (mount (S n) iv input parentDOM nextNode context isSVG insertIntoDOM)
               (mount (S m) iv input parentDOM nextNode context isSVG insertIntoDOM))
   /\ (forall iv input parentDOM nextNode context isSVG insertIntoDOM,
       refines (mountVNode (S n) iv input parentDOM nextNode context isSVG insertIntoDOM)
               (mountVNode (S m) iv input parentDOM nextNode context isSVG insertIntoDOM))
   /\ (forall iv vNode parentDOM nextNode context isSVG insertIntoDom,
       refines (mountPortal (S n) iv vNode parentDOM nextNode context isSVG insertIntoDom)
               (mountPortal (S m) iv vNode parentDOM nextNode context isSVG insertIntoDom))
   /\ (forall iv vNode parentDOM nextNode context isSVG insertIntoDom,
       refines (mountElement (S n) iv vNode parentDOM nextNode context isSVG insertIntoDom)
               (mountElement (S m) iv vNode parentDOM nextNode context isSVG insertIntoDom))
   /\ (forall iv children parentDOM nextNode context isSVG forceKeyed isVirtual,
       refines (mountArrayChildren (S n) iv children parentDOM nextNode context isSVG
                                   forceKeyed isVirtual)
               (mountArrayChildren (S m) iv children parentDOM nextNode context isSVG
                                   forceKeyed isVirtual))
   /\ (forall iv vNode parentDOM nextNode context isSVG insertIntoDom,
       refines (mountComponent (S n) iv vNode parentDOM nextNode context isSVG
                               insertIntoDom)
               (mountComponent (S m) iv vNode parentDOM nextNode context isSVG
                               insertIntoDom)).
Proof.
  intros (IHm & IHv & IHp & IHe & IHa & IHc).
  split; [|split; [|split; [|split; [|split]]]];
    intros iv x parentDOM nextNode context isSVG;
    repeat lazymatch goal with |- forall _ : bool, _ => intros ? end;
    simpl; rgo.
Qed.

Lemma mounters_fuel_succ n :
  (forall iv input parentDOM nextNode context isSVG insertIntoDOM,
      refines (mount n iv input parentDOM nextNode context isSVG insertIntoDOM)
              (mount (S n) iv input parentDOM nextNode context isSVG insertIntoDOM))
  /\ (forall iv input parentDOM nextNode context isSVG insertIntoDOM,
      refines (mountVNode n iv input parentDOM nextNode context isSVG insertIntoDOM)
              (mountVNode (S n) iv input parentDOM nextNode context isSVG insertIntoDOM))
  /\ (forall iv vNode parentDOM nextNode context isSVG insertIntoDom,
      refines (mountPortal n iv vNode parentDOM nextNode context isSVG insertIntoDom)
              (mountPortal (S n) iv vNode parentDOM nextNode context isSVG insertIntoDom))
  /\ (forall iv vNode parentDOM nextNode context isSVG insertIntoDom,
      refines (mountElement n iv vNode parentDOM nextNode context isSVG insertIntoDom)
              (mountElement (S n) iv vNode parentDOM nextNode context isSVG insertIntoDom))
  /\ (forall iv children parentDOM nextNode context isSVG forceKeyed isVirtual,
      refines (mountArrayChildren n iv children parentDOM nextNode context isSVG
                                  forceKeyed isVirtual)
              (mountArrayChildren (S n) iv children parentDOM nextNode context isSVG
                                  forceKeyed isVirtual))
  /\ (forall iv vNode parentDOM nextNode context isSVG insertIntoDom,
      refines (mountComponent n iv vNode parentDOM nextNode context isSVG insertIntoDom)
              (mountComponent (S n) iv vNode parentDOM nextNode context isSVG
                              insertIntoDom)).
Proof.
  induction n as [|n IH]; [|by apply mounters_fuel_step].
  split; [|split; [|split; [|split; [|split]]]]; intros; apply refines_outOfFuel.
Qed.

(** A mount that returns or throws with some fuel does the same with any
    larger amount. *)
Lemma mount_fuel_mono fuel fuel' iv input parentDOM nextNode context isSVG insertIntoDOM :
  fuel <= fuel' ->
  refines (mount fuel iv input parentDOM nextNode context isSVG insertIntoDOM)
          (mount fuel' iv input parentDOM nextNode context isSVG insertIntoDOM).
Proof.
  induction 1 as [|fuel' _ IH]; [apply refines_refl|].
  intros s o s' Hrun Ho. apply (proj1 (mounters_fuel_succ fuel')); [|done]. by apply IH.
Qed.

(** ** The text mounter and the dispatchers *)

(** The text mounter never fails; this is its whole effect. *)
Lemma mountText_run iv text parentDOM nextNode context isSVG insertIntoDom s :
  mountText IVFlags iv text parentDOM nextNode context isSVG insertIntoDom s
  = (Ok (DNode (nextDom s)),
     mkState
       (alter (fun x => mkIV (iv_i x) (iv_k x) (iv_d x) (iv_c x)
                             (HasTextChildren IVFlags) (iv_t x) (iv_b x)) iv
          (if insertIntoDom
           then alter (fun x => mkIV (iv_i x) (iv_k x) (DNode (nextDom s)) (iv_c x)
                                     (iv_f x) (iv_t x) (iv_b x)) iv (ivs s)
           else ivs s))
       (S (nextDom s))
       (lifecycle s)
       (trace s ++ EvCreateText (nextDom s) text
                :: (if insertIntoDom then [EvInsert parentDOM (nextDom s) nextNode]
                    else []))
       (domWrites s ++ (if insertIntoDom
                        then [mkDomWrite MText iv iv (DNode (nextDom s))] else []))).
Proof.
  destruct insertIntoDom; cbv [mountText createTextNode freshDom emit bind ret when
    set_d set_f insertOrAppend modify_ivs]; simpl;
    rewrite <- ?app_assoc, ?app_nil_r; reflexivity.
Qed.

(** The dispatcher on an input it routes to the Portal Mounter. *)
Lemma mount_portal_unfold fuel iv input vNode parentDOM nextNode context isSVG
    insertIntoDOM :
  asVNode input = Some vNode ->
  hasFlag (flags vNode) (Element VNodeFlags) = false ->
  hasFlag (flags vNode) (Component VNodeFlags) = false ->
  hasFlag (flags vNode) (Portal VNodeFlags) = true ->
  mount (S (S fuel)) iv input parentDOM nextNode context isSVG insertIntoDOM
  = mountPortal fuel iv vNode parentDOM nextNode context false insertIntoDOM.
Proof.
  intros Hv He Hc Hp. simpl.
  assert (asText input = None) as -> by (destruct input; simpl in *; congruence).
  rewrite Hv, He, Hc, Hp. reflexivity.
Qed.

(** C10. A Portal View Node mounts its content with the SVG flag false
    whatever SVG context the portal itself occurs in: the dispatcher hands
    the Portal Mounter a hard-coded [false], which is the flag the content
    (and the placeholder) are mounted with; so the dispatcher's result on a
    portal does not depend on the SVG flag it was called with. *)
Theorem portal_content_is_mounted_outside_svg fuel iv vNode parentDOM nextNode context
    isSVG insertIntoDOM :
  hasFlag (flags vNode) (Element VNodeFlags) = false ->
  hasFlag (flags vNode) (Component VNodeFlags) = false ->
  hasFlag (flags vNode) (Portal VNodeFlags) = true ->
  mountVNode (S (S fuel)) iv vNode parentDOM nextNode context isSVG insertIntoDOM
  = (let* childIV := createIV (children vNode) 0 in
     set_c iv (CSingle childIV) ;;
     match type vNode with
     | TDom container =>
         mount fuel childIV (children vNode) container None context false true
     | _ => throw TypeError
     end ;;
     mountText IVFlags iv (PStr "") parentDOM nextNode context false insertIntoDOM)
  /\ forall fuel',
      mountVNode fuel' iv vNode parentDOM nextNode context isSVG insertIntoDOM
      = mountVNode fuel' iv vNode parentDOM nextNode context false insertIntoDOM.
Proof.
  intros He Hc Hp. split.
  - simpl. rewrite He, Hc, Hp. reflexivity.
  - intros [|fuel']; [reflexivity|]. simpl. rewrite He, Hc, Hp. reflexivity.
Qed.


(** ** Validation in the dispatcher *)

(** In a build that is not a production build, an input that is neither a
    primitive, nor a View Node, nor an array is rejected by the dispatcher. *)
Lemma mount_invalid_input_development fuel iv input parentDOM nextNode context isSVG
    insertIntoDOM s :
  production = false ->
  asText input = None -> asVNode input = None -> isArray input = false ->
  mount (S fuel) iv input parentDOM nextNode context isSVG insertIntoDOM s
  = (Throw (InvalidInputError (typeofObject input)), s).
Proof.
  intros Hp Ht Hv Ha. simpl. rewrite Ht, Hv, Hp, Ha. simpl.
  unfold bind, when. destruct (typeofObject input); reflexivity.
Qed.

(** In a production build the dispatcher validates nothing: such an input is
    handed to the array mounter as it is. *)
Lemma mount_invalid_input_production fuel iv input parentDOM nextNode context isSVG
    insertIntoDOM s :
  production = true ->
  asText input = None -> asVNode input = None ->
  mount (S fuel) iv input parentDOM nextNode context isSVG insertIntoDOM s
  = (mountArrayChildren fuel iv input parentDOM nextNode context isSVG false true ;;
     ret DNull) s.
Proof. intros Hp Ht Hv. simpl. rewrite Ht, Hv, Hp. reflexivity. Qed.

(** ** Element refs *)

(** Steps that leave the lifecycle queue as it is. *)
Ltac prim_quiet _ :=
  lazymatch goal with
  | |- keeps _ (push _ _) _ => idtac
  | |- keeps _ (get_iv _) _ =>
      apply keeps_step; intros ? ?; unfold get_iv; case_match; auto
  | |- keeps _ _ _ =>
      first [ solve [ apply keeps_step; intros ? ?;
                      cbv [emit freshDom createIV set_c set_f set_t set_b set_d
                           modify_ivs]; cbn; split; [assumption|exact Logic.I] ]
            | idtac ]
  end.

Ltac quiet_of H :=
  lazymatch type of H with
  | ?m ?s = (Ok _, ?s') =>
      let K := fresh "K" in
      assert (K : lifecycle s' = lifecycle s)
        by (assert (K : keeps (fun x => lifecycle x = lifecycle s) m (fun _ => True))
              by (kgo prim_quiet);
            exact (proj1 (K _ _ _ eq_refl H)))
  end.

(** C2 (as amended). Mounting an element whose [ref] is a callback does not
    invoke the ref: nothing reserved to lifecycle closures is traced by the
    mount call. The call appends to the lifecycle queue, after the entries
    queued by the element's subtree, a closure that calls the ref with the
    created DOM element, so the ref runs when the queue is flushed, last
    among the entries of this element. *)
Theorem element_ref_is_queued fuel iv vNode parentDOM nextNode context isSVG
    insertIntoDom cb s r s' :
  ref vNode = RFunc cb ->
  mountElement fuel iv vNode parentDOM nextNode context isSVG insertIntoDom s
  = (Ok r, s') ->
  r = DNode (nextDom s)
  /\ (exists tag svg evs,
         trace s' = trace s ++ EvCreateElement (nextDom s) tag svg :: evs
         /\ Forall (fun ev => deferred ev = false) evs)
  /\ (exists q, lifecycle s' = lifecycle s ++ q ++ [mkEntry iv (LRef cb (nextDom s))])
  /\ exists evs', flush (lifecycle s') = evs' ++ [EvRefDom cb (nextDom s)].
Proof.
  intros Href Hrun. destruct fuel as [|fuel]; [discriminate|]. simpl in Hrun.
  destruct (type vNode) as [tag| | |] eqn:Hty; try discriminate.
  apply bind_Ok_inv in Hrun as (dom & s1 & Hdom & Hrun).
  rewrite documentCreateElement_run in Hdom. inversion Hdom; subst dom s1; clear Hdom.
  ext_of Hrun iv. destruct (ext_trace _ _ _ K) as (evs & Hevs & Hdef). simpl in Hevs.
  binv Hrun. apply ret_Ok_inv in Hrun as [-> ->].
  ext_of Hrun0 iv. destruct (ext_lifecycle _ _ _ K0) as [q Hq]. simpl in Hq.
  quiet_of Hrun1. quiet_of Hrun2. quiet_of Hrun4.
  rewrite Href in Hrun3. simpl in Hrun3. inversion Hrun3; subst s3; clear Hrun3.
  simpl in K3.
  assert (Hlife : lifecycle s4 = lifecycle s ++ q ++ [mkEntry iv (LRef cb (nextDom s))]).
  { rewrite K3, K2, K1, Hq, <- app_assoc. reflexivity. }
  split; [done|]. split; [|split].
  - exists tag, (isSVG || hasFlag (flags vNode) (SvgElement VNodeFlags)), evs.
    rewrite Hevs, <- app_assoc. done.
  - eauto.
  - rewrite Hlife. unfold flush. rewrite !fmap_app, !concat_app. simpl.
    rewrite app_assoc. eauto.
Qed.

(** ** The array mounter *)

Ltac hcalls :=
  try (eapply keeps_holds_call;
       [ first [ apply mount_extends | apply mountVNode_extends
               | apply mountPortal_extends | apply mountElement_extends
               | apply mountArrayChildren_extends | apply mountComponent_extends ]
       | assumption ]).

(** [holds_of Hh H]: the fact [Hh] about an IV survives the run [H]. *)
Ltac holds_of Hh H :=
  lazymatch type of Hh with
  | holds ?iv ?phi ?s =>
      lazymatch type of H with
      | ?m s = (Ok _, ?s') =>
          let K := fresh "K" in
          assert (K : holds iv phi s')
            by (eapply (keeps_run (holds iv phi) m);
                [kholds; hcalls | exact Hh | exact H])
      end
  end.

(** C1. Mounting an array of children without forced keying flags the
    array's IV by its first valid entry alone: HasKeyedChildren when that
    entry is a View Node with a key that is neither null nor undefined,
    HasNonKeydChildren otherwise (no key, or a primitive), whatever the
    entries after it are; the flag is set at the first valid entry and no
    later entry changes it. *)
Theorem array_flag_decided_by_first_valid_entry fuel iv pre child post parentDOM
    nextNode context isSVG isVirtual s a s' :
  Forall (fun x => isInvalid x = true) pre ->
  isInvalid child = false ->
  iv < length (ivs s) ->
  mountArrayChildren fuel iv (VArr (pre ++ child :: post)) parentDOM nextNode context
                     isSVG false isVirtual s = (Ok a, s') ->
  holds iv (fun x => iv_f x = if hasKey child
                              then HasKeyedChildren IVFlags
                              else HasNonKeydChildren IVFlags) s'.
Proof.
  intros Hpre Hchild Hlt Hrun. destruct fuel as [|fuel]; [discriminate|].
  simpl in Hrun. rewrite mountArrayLoop_entries, (validEntries_first _ _ _ 0) in Hrun
    by assumption.
  unfold mountEntries in Hrun; fold mountEntries in Hrun.
  bstep Hrun as ([] & s1 & Hc & Hrun). bstep Hrun as ([] & s2 & Hf & Hrun).
  bstep Hrun as ([] & s5 & Hloop & Hrun). bstep Hloop as ([] & s4 & Hfirst & Hloop).
  change (when true ?m) with m in Hfirst. bstep Hfirst as ([] & s3 & Hc' & Hf').
  apply set_c_holds in Hc as [_ L1]; [|done].
  apply set_f_holds in Hf as [_ L2]; [|lia].
  apply set_c_holds in Hc' as [_ L3]; [|lia].
  apply set_f_holds in Hf' as [Hflag _]; [|lia].
  simpl in Hflag.
  holds_of Hflag Hloop. holds_of K Hrun. exact K0.
Qed.

(** C7. In an array of children the entries null, undefined, true and
    false are skipped: the loop of the array mounter runs as the loop over
    the valid entries alone, so an invalid entry gets no child IV and
    nothing is mounted for it. After the mount the children sequence of the
    array's IV consists of one child IV per valid entry, in order, each
    mirroring its entry and position; when no entry is valid the IV keeps
    the flag HasInvalidChildren and a null children reference, and no IV
    and no DOM node was created and nothing was traced or queued. *)
Theorem array_invalid_entries_are_skipped fuel iv l parentDOM nextNode context isSVG
    forceKeyed isVirtual s a s' :
  iv < length (ivs s) ->
  mountArrayChildren fuel iv (VArr l) parentDOM nextNode context isSVG forceKeyed
                     isVirtual s = (Ok a, s') ->
  (forall mountChild i firstValid,
      mountArrayLoop IVFlags mountChild iv forceKeyed l i firstValid
      = mountEntries IVFlags mountChild iv forceKeyed (validEntries l i) firstValid)
  /\ (validEntries l 0 <> [] ->
      exists rs, holds iv (fun x => iv_c x = CArray rs) s'
                 /\ Forall2 (mirrors s') rs (validEntries l 0))
  /\ (validEntries l 0 = [] ->
      holds iv (fun x => iv_c x = CNull /\ iv_f x = HasInvalidChildren IVFlags) s'
      /\ unchanged s s').
Proof.
  intros Hlt Hrun. split; [intros; apply mountArrayLoop_entries|].
  destruct fuel as [|fuel]; [discriminate|].
  simpl in Hrun. rewrite mountArrayLoop_entries in Hrun.
  bstep Hrun as ([] & s1 & Hc & Hrun). bstep Hrun as ([] & s2 & Hf & Hrun).
  bstep Hrun as ([] & s3 & Hloop & Hrun).
  split.
  - intros Hne. destruct (validEntries l 0) as [|[i child] rest] eqn:Hes; [done|].
    rewrite mountEntries_first in Hloop.
    bstep Hloop as ([] & s4 & Hfirst & Hloop).
    bstep Hfirst as ([] & s5 & Hc' & Hf').
    apply set_c_holds in Hc as [_ L1]; [|done].
    apply set_f_holds in Hf as [_ L2]; [|lia].
    apply set_c_holds in Hc' as [Hnil L3]; [|lia].
    holds_of Hnil Hf'.
    eapply (mountEntries_children _ _ _ _ _ (fun c child => mount_extends fuel c child _ _ _ _ _)
              [] []) in Hloop; [|exact K|constructor].
    destruct Hloop as (rs & Hrs & HF). simpl in HF.
    exists rs. split.
    + holds_of Hrs Hrun. exact K0.
    + eapply Forall2_impl; [exact HF|]. intros r e Hre. unfold mirrors in *.
      holds_of Hre Hrun. exact K0.
  - intros Hnil. rewrite Hnil in Hloop. apply ret_Ok_inv in Hloop as [_ ->].
    split.
    + apply set_c_holds in Hc as [Hcn L1]; [|done].
      assert (Hboth : holds iv (fun x => iv_c x = CNull
                                         /\ iv_f x = HasInvalidChildren IVFlags) s2).
      { inversion Hf; subst s2; clear Hf. destruct Hcn as (x & Hx & Hcx).
        unfold holds. simpl. eexists. rewrite list_lookup_alter_eq, Hx. simpl.
        split; [reflexivity|]. by split. }
      holds_of Hboth Hrun. exact K.
    + pose proof (keeps_run _ _ _ _ _ _ (keeps_unchanged_modify s _ _)
                            (unchanged_refl s) Hc) as K1.
      pose proof (keeps_run _ _ _ _ _ _ (keeps_unchanged_modify s _ _) K1 Hf) as K2.
      eapply keeps_run; [|exact K2|exact Hrun]. kgo prim_unchanged.
Qed.

(** ** Ownership of the [d] field *)

(** Every mounter journals only assignments that are in order. *)
Lemma mounters_journal fuel :
  (forall iv input parentDOM nextNode context isSVG insertIntoDOM s a s',
      mount fuel iv input parentDOM nextNode context isSVG insertIntoDOM s = (Ok a, s') ->
      journal s s')
  /\ (forall iv input parentDOM nextNode context isSVG insertIntoDOM s a s',
      mountVNode fuel iv input parentDOM nextNode context isSVG insertIntoDOM s
      = (Ok a, s') -> journal s s')
  /\ (forall iv vNode parentDOM nextNode context isSVG insertIntoDom s a s',
      mountPortal fuel iv vNode parentDOM nextNode context isSVG insertIntoDom s
      = (Ok a, s') -> journal s s')
  /\ (forall iv vNode parentDOM nextNode context isSVG insertIntoDom s a s',
      mountElement fuel iv vNode parentDOM nextNode context isSVG insertIntoDom s
      = (Ok a, s') -> journal s s')
  /\ (forall iv children parentDOM nextNode context isSVG forceKeyed isVirtual s a s',
      mountArrayChildren fuel iv children parentDOM nextNode context isSVG forceKeyed
                         isVirtual s = (Ok a, s') -> journal s s')
  /\ (forall iv vNode parentDOM nextNode context isSVG insertIntoDom s a s',
      mountComponent fuel iv vNode parentDOM nextNode context isSVG insertIntoDom s
      = (Ok a, s') -> journal s s').
Proof.
  induction fuel as [|fuel (IHm & IHv & IHp & IHe & IHa & IHc)].
  { repeat split; intros; discriminate. }
  assert (Hfin : forall A (m : M A),
             (forall s0, keeps (journal s0) m (fun _ => True)) ->
             forall s a s', m s = (Ok a, s') -> journal s s').
  { intros A m K s a s' Hrun. eapply keeps_run; [apply (K s)|apply journal_refl|exact Hrun]. }
  assert (Hcall : forall A (m : M A) c s0,
             (forall s a s', m s = (Ok a, s') -> extends c s s') ->
             (forall s a s', m s = (Ok a, s') -> journal s s') ->
             keeps (journal s0) m (fun _ => True)).
  { intros A m c s0 He Hj. apply (keeps_journal_call s0 m c). intros s a s' Hrun.
    split; [by eapply He|by eapply Hj]. }
  split; [|split; [|split; [|split; [|split]]]];
    intros iv x parentDOM nextNode context isSVG;
    repeat lazymatch goal with |- forall _ : bool, _ => intros ? end.
  1-5: apply Hfin; intros s0; simpl; kgo prim_journal;
    first [ eapply Hcall; [apply mount_extends|apply IHm]
          | eapply Hcall; [apply mountVNode_extends|apply IHv]
          | eapply Hcall; [apply mountPortal_extends|apply IHp]
          | eapply Hcall; [apply mountElement_extends|apply IHe]
          | eapply Hcall; [apply mountArrayChildren_extends|apply IHa]
          | eapply Hcall; [apply mountComponent_extends|apply IHc] ].
  intros s a s' Hrun. simpl in Hrun.
  bstep Hrun as (rendered & s1 & Hrend & Hrun).
  destruct rendered as [[renderOutput context'] instance].
  assert (J1 : journal s s1).
  { eapply keeps_run_True; [|apply journal_refl|exact Hrend]. kgo prim_journal. }
  bstep Hrun as (dom & s2 & Hdom & Hrun).
  assert (J2 : journal s s2).
  { destruct (isInvalid renderOutput).
    - eapply keeps_run_True; [|exact J1|exact Hdom]. kgo prim_journal.
    - bstep Hdom as ([] & s3 & Hf & Hdom). bstep Hdom as (c & s4 & Hcr & Hdom).
      bstep Hdom as ([] & s5 & Hsc & Hdom). bstep Hdom as ([] & s6 & Hsb & Hdom).
      bstep Hdom as (d & s7 & Hm & Hdom). bstep Hdom as ([] & s8 & Hsd & Hdom).
      apply ret_Ok_inv in Hdom as [-> ->].
      destruct (component_child_prepared _ _ _ _ _ _ _ _ _ Hf Hcr Hsc Hsb)
        as (G & W & Hb).
      pose proof (mount_extends _ _ _ _ _ _ _ _ _ _ _ Hm) as He.
      assert (J7 : journal s s7).
      { eapply journal_trans; [eapply journal_grows; [exact J1|exact G|exact W]| |].
        - by eapply extends_grows.
        - by eapply IHm. }
      inversion Hsd; subst s8; clear Hsd.
      eapply journal_write; [exact J7|apply (grows_set_d MComponent iv c d)|reflexivity|].
      right. split; [reflexivity|]. simpl.
      apply (holds_set_d c _ MComponent iv c d s7); [by intros []|].
      destruct Hb as (y & Hy & Hby).
      destruct (ext_self _ _ _ He y Hy) as (y' & Hy' & _ & _ & Hb').
      exists y'. split; [done|congruence]. }
  eapply keeps_run_True; [|exact J2|exact Hrun]. kgo prim_journal.
Qed.


(** ** Portals *)

Lemma keeps_clean_loop p s0 mountChild iv forceKeyed l i firstValid :
  Forall (avoids p) l ->
  (forall c child, avoids p child ->
     keeps (clean p s0) (mountChild c child) (fun _ => True)) ->
  keeps (clean p s0) (mountArrayLoop IVFlags mountChild iv forceKeyed l i firstValid)
        (fun _ => True).
Proof.
  intros Hl Hchild. revert i firstValid.
  induction Hl as [|child rest Hc _ IH]; intros i firstValid;
    unfold mountArrayLoop; fold mountArrayLoop; [by apply keeps_ret|].
  destruct (negb (isInvalid child)); [|apply IH].
  specialize (IH (S i) false). kgo prim_clean. by apply Hchild.
Qed.

(** While an input that avoids [p] is mounted under another parent, nothing
    is inserted into [p]. *)
Lemma mounters_clean p fuel :
  (forall iv input parentDOM nextNode context isSVG insertIntoDOM s0,
      avoids p input -> parentDOM <> p ->
      keeps (clean p s0)
            (mount fuel iv input parentDOM nextNode context isSVG insertIntoDOM)
            (fun _ => True))
  /\ (forall iv input parentDOM nextNode context isSVG insertIntoDOM s0,
      avoids p (VObj input) -> parentDOM <> p ->
      keeps (clean p s0)
            (mountVNode fuel iv input parentDOM nextNode context isSVG insertIntoDOM)
            (fun _ => True))
  /\ (forall iv vNode parentDOM nextNode context isSVG insertIntoDom s0,
      avoids p (VObj vNode) -> parentDOM <> p ->
      keeps (clean p s0)
            (mountPortal fuel iv vNode parentDOM nextNode context isSVG insertIntoDom)
            (fun _ => True))
  /\ (forall iv vNode parentDOM nextNode context isSVG insertIntoDom s0,
      avoids p (VObj vNode) -> parentDOM <> p ->
      keeps (clean p s0)
            (mountElement fuel iv vNode parentDOM nextNode context isSVG insertIntoDom)
            (fun _ => True))
  /\ (forall iv children parentDOM nextNode context isSVG forceKeyed isVirtual s0,
      avoids p children -> parentDOM <> p ->
      keeps (clean p s0)
            (mountArrayChildren fuel iv children parentDOM nextNode context isSVG
                                forceKeyed isVirtual)
            (fun _ => True))
  /\ (forall iv vNode parentDOM nextNode context isSVG insertIntoDom s0,
      avoids p (VObj vNode) -> parentDOM <> p ->
      keeps (clean p s0)
            (mountComponent fuel iv vNode parentDOM nextNode context isSVG insertIntoDom)
            (fun _ => True)).
Proof.
  induction fuel as [|fuel (IHm & IHv & IHp & IHe & IHa & IHc)].
  { split; [|split; [|split; [|split; [|split]]]];
      intros iv x parentDOM nextNode context isSVG;
      repeat lazymatch goal with |- forall _ : bool, _ => intros ? end;
      intros s0 Hav Hparent; apply keeps_outOfFuel. }
  split; [|split; [|split; [|split; [|split]]]];
    intros iv x parentDOM nextNode context isSVG;
    repeat lazymatch goal with |- forall _ : bool, _ => intros ? end;
    intros s0 Hav Hparent; simpl.
  - kgo prim_clean.
    + eapply IHv; [by eapply avoids_asVNode|done].
    + by eapply IHa.
  - kgo prim_clean; [by eapply IHe|by eapply IHc|by eapply IHp].
  - kgo prim_clean. eapply IHm; [by apply avoids_children|by eapply avoids_container].
  - kgo prim_clean.
    + eapply IHv; [eapply avoids_asVNode; [by apply avoids_children|done]|cbv beta in *; lia].
    + eapply IHa; [by apply avoids_children|cbv beta in *; lia].
  - apply keeps_seq; [kgo prim_clean|]. apply keeps_seq; [kgo prim_clean|].
    eapply keeps_bind with (V1 := fun _ => True); [|intros ? ?; kgo prim_clean].
    destruct (arrayLike x) as [l|] eqn:Hl; [|apply keeps_throw].
    apply keeps_clean_loop; [by eapply avoids_arrayLike|].
    intros c child Hc. by eapply IHm.
  - eapply keeps_bind with (V1 := fun r => avoids p r.1.1).
    + kgo prim_clean; simpl.
      * by eapply avoids_class.
      * by eapply avoids_function.
    + intros [[renderOutput context'] instance] Hro. simpl in Hro.
      kgo prim_clean. by eapply IHm.
Qed.


(** ** The order of the lifecycle queue *)

Lemma descendant_closed (D : ivref -> Prop) s a b :
  (forall a b, D a -> child s a b -> a < b /\ D b) ->
  D a -> descendant s a b -> a < b /\ D b.
Proof.
  intros Hcl Ha Hd. induction Hd as [a b Hc|a x b Hc _ IH].
  - by apply Hcl.
  - destruct (Hcl a x Ha Hc) as [Hlt Hx]. destruct (IH Hx) as [Hlt' Hb].
    split; [lia|done].
Qed.

Lemma descendant_frame (D : ivref -> Prop) s s' a b :
  (forall a b, D a -> child s a b -> D b) ->
  (forall a, D a -> kidsOf s' a = kidsOf s a) ->
  D a -> descendant s' a b -> descendant s a b.
Proof.
  intros Hcl Hk Ha Hd. induction Hd as [a b Hc|a x b Hc _ IH].
  - apply tc_once. destruct Hc as (ks & Hks & Hb). exists ks. by rewrite <- Hk.
  - assert (child s a x) as Hc'.
    { destruct Hc as (ks & Hks & Hb). exists ks. by rewrite <- Hk. }
    eapply tc_l; [exact Hc'|]. apply IH. by eapply Hcl.
Qed.

Lemma postOrder_frame D s s' q :
  postOrder D s q -> (forall a, D a -> kidsOf s' a = kidsOf s a) -> postOrder D s' q.
Proof.
  intros [Hcl Hown Hord] Hk. split.
  - intros a b Ha (ks & Hks & Hb). apply Hcl; [done|]. exists ks. by rewrite <- Hk.
  - done.
  - intros i j ei ej Hi Hj Hd. eapply Hord; [done..|].
    eapply (descendant_frame D); [| |by eapply (Forall_lookup_1 _ _ _ _ Hown)|done].
    + intros a b Ha Hc. by destruct (Hcl a b Ha Hc).
    + done.
Qed.

Lemma postOrder_weaken (D D' : ivref -> Prop) s q :
  (forall a, D a <-> D' a) -> postOrder D s q -> postOrder D' s q.
Proof.
  intros HD [Hcl Hown Hord]. split.
  - intros a b Ha Hc. destruct (Hcl a b) as [? ?]; [by apply HD|done|].
    split; [done|by apply HD].
  - eapply Forall_impl; [exact Hown|]. intros e. apply HD.
  - done.
Qed.

Lemma postOrder_nil (D : ivref -> Prop) s :
  (forall a b, D a -> child s a b -> a < b /\ D b) -> postOrder D s [].
Proof. intros Hcl. split; [done|constructor|]. intros i j ei ej Hi. done. Qed.

(** Two sets of IVs that are apart, each in post-order. *)
Lemma postOrder_app (D1 D2 : ivref -> Prop) s q1 q2 :
  postOrder D1 s q1 -> postOrder D2 s q2 -> (forall a, D1 a -> D2 a -> False) ->
  postOrder (fun a => D1 a \/ D2 a) s (q1 ++ q2).
Proof.
  intros [C1 O1 R1] [C2 O2 R2] Hdis. split.
  - intros a b [Ha|Ha] Hc; [destruct (C1 a b Ha Hc)|destruct (C2 a b Ha Hc)]; auto.
  - apply Forall_app; split; (eapply Forall_impl; [eassumption|]); simpl; auto.
  - intros i j ei ej Hi Hj Hd.
    apply lookup_app_Some in Hi as [Hi|[Hli Hi]];
      apply lookup_app_Some in Hj as [Hj|[Hlj Hj]].
    + eauto.
    + exfalso.
      destruct (descendant_closed D1 s _ _ C1 (Forall_lookup_1 _ _ _ _ O1 Hi) Hd)
        as [_ Hb].
      eapply Hdis; [exact Hb|]. exact (Forall_lookup_1 _ _ _ _ O2 Hj).
    + apply lookup_lt_Some in Hj. lia.
    + specialize (R2 _ _ _ _ Hi Hj Hd). lia.
Qed.

(** The parent of a set in post-order, before it queues anything. *)
Lemma postOrder_root (D : ivref -> Prop) c s q :
  postOrder D s q -> (forall b, child s c b -> c < b /\ D b) ->
  postOrder (fun a => a = c \/ D a) s q.
Proof.
  intros [C O R] Hc. split.
  - intros a b [->|Ha] Hab; [destruct (Hc b Hab)|destruct (C a b Ha Hab)]; auto.
  - eapply Forall_impl; [exact O|]. simpl. auto.
  - done.
Qed.

(** What the root queues last is in post-order. *)
Lemma postOrder_push (D : ivref -> Prop) c s q own :
  postOrder D s q -> D c -> (forall a, D a -> c <= a) ->
  Forall (fun e => owner e = c) own ->
  postOrder D s (q ++ own).
Proof.
  intros [C O R] Hc Hmin Hown. split; [done| |].
  - apply Forall_app; split; [done|]. eapply Forall_impl; [exact Hown|].
    by intros e ->.
  - intros i j ei ej Hi Hj Hd.
    apply lookup_app_Some in Hi as [Hi|[Hli Hi]];
      apply lookup_app_Some in Hj as [Hj|[Hlj Hj]].
    + eauto.
    + exfalso.
      pose proof (Forall_lookup_1 _ _ _ _ O Hi) as HDi.
      destruct (descendant_closed D s _ _ C HDi Hd) as [Hlt _].
      rewrite (Forall_lookup_1 _ _ _ _ Hown Hj) in Hlt.
      specialize (Hmin _ HDi). lia.
    + apply lookup_lt_Some in Hj. lia.
    + exfalso.
      rewrite (Forall_lookup_1 _ _ _ _ Hown Hi), (Forall_lookup_1 _ _ _ _ Hown Hj) in Hd.
      destruct (descendant_closed D s _ _ C Hc Hd). lia.
Qed.

Lemma fresh_lt c s : fresh c s -> c < length (ivs s).
Proof.
  unfold fresh, kidsOf. intros H. destruct (ivs s !! c) eqn:E; [|done].
  by apply lookup_lt_Some in E.
Qed.

Lemma fresh_no_child c s b : fresh c s -> ~ child s c b.
Proof.
  unfold fresh. intros Hf (ks & Hks & Hb). rewrite Hf in Hks.
  inversion Hks; subst. by apply elem_of_nil in Hb.
Qed.

(** *** Steps that leave the tree alone *)

Lemma tailBy_refl P s : tailBy P s s.
Proof. split; [done|]. split; [done|]. exists []. by rewrite app_nil_r. Qed.

Lemma tailBy_trans P s0 s s' : tailBy P s0 s -> tailBy P s s' -> tailBy P s0 s'.
Proof.
  intros (L1 & K1 & o1 & Q1 & F1) (L2 & K2 & o2 & Q2 & F2).
  split; [congruence|]. split; [intros a; by rewrite K2|].
  exists (o1 ++ o2). split; [by rewrite Q2, Q1, app_assoc|by apply Forall_app].
Qed.

Lemma still_lifecycle s0 s : still s0 s -> lifecycle s = lifecycle s0.
Proof.
  intros (_ & _ & own & Q & F). destruct own as [|e own]; [by rewrite app_nil_r in Q|].
  by inversion F.
Qed.

Lemma still_tail c s0 s : still s0 s -> tail c s0 s.
Proof.
  intros (L & K & own & Q & F). split; [done|]. split; [done|]. exists own.
  split; [done|]. eapply Forall_impl; [exact F|]. done.
Qed.

Lemma fresh_still c s0 s : fresh c s0 -> still s0 s -> fresh c s.
Proof. intros Hf (_ & K & _). unfold fresh. by rewrite K. Qed.

Lemma child_tailBy P s0 s a b : tailBy P s0 s -> child s a b <-> child s0 a b.
Proof. intros (_ & K & _). unfold child. by rewrite K. Qed.

Lemma keeps_tailBy_same {A} P s0 (m : M A) :
  (forall s, ivs (m s).2 = ivs s /\ lifecycle (m s).2 = lifecycle s) ->
  keeps (tailBy P s0) m (fun _ => True).
Proof.
  intros Hm s a s' (L & K & own & Q & F) Hrun. split; [|done].
  destruct (Hm s) as [Hi Hl]. rewrite Hrun in Hi, Hl. simpl in *.
  split; [congruence|]. split; [intros r; unfold kidsOf in *; by rewrite Hi|].
  exists own. split; [congruence|done].
Qed.

Lemma keeps_tailBy_get_iv P s0 r : keeps (tailBy P s0) (get_iv r) (fun _ => True).
Proof.
  apply keeps_tailBy_same. intros s. unfold get_iv. by destruct (ivs s !! r).
Qed.

Lemma kids_alter g r (l : list IV) a :
  (forall x, iv_c (g x) = iv_c x) -> kids <$> alter g r l !! a = kids <$> l !! a.
Proof.
  intros Hg. destruct (decide (a = r)) as [->|Hne].
  - rewrite list_lookup_alter_eq. destruct (l !! r) as [x|]; [|done]. simpl.
    unfold kids. by rewrite Hg.
  - by rewrite list_lookup_alter_ne.
Qed.

Lemma keeps_tailBy_modify P s0 g r :
  (forall x, iv_c (g x) = iv_c x) ->
  keeps (tailBy P s0) (modify_ivs (alter g r)) (fun _ => True).
Proof.
  intros Hg. apply keeps_step. intros s (L & K & own & Q & F). split; [|done].
  unfold tailBy, kidsOf. simpl. rewrite length_alter. split; [done|].
  split; [|by exists own]. intros a. rewrite kids_alter by done. apply K.
Qed.

Lemma keeps_tailBy_set_d P s0 who self r v :
  keeps (tailBy P s0) (set_d who self r v) (fun _ => True).
Proof.
  apply keeps_step. intros s (L & K & own & Q & F). split; [|done].
  unfold tailBy, kidsOf, set_d. simpl. rewrite length_alter. split; [done|].
  split; [|by exists own]. intros a. rewrite kids_alter by done. apply K.
Qed.

Lemma keeps_tail_push c s0 f : keeps (tail c s0) (push c f) (fun _ => True).
Proof.
  apply keeps_step. intros s (L & K & own & Q & F). split; [|done].
  split; [done|]. split; [done|]. exists (own ++ [mkEntry c f]). simpl.
  split; [by rewrite Q, app_assoc|]. apply Forall_app. split; [done|].
  by constructor.
Qed.

Ltac prim_tail _ :=
  lazymatch goal with
  | |- keeps _ (emit _) _ => apply keeps_tailBy_same; intros; split; reflexivity
  | |- keeps _ (push _ _) _ => apply keeps_tail_push
  | |- keeps _ freshDom _ => apply keeps_tailBy_same; intros; split; reflexivity
  | |- keeps _ (get_iv _) _ => apply keeps_tailBy_get_iv
  | |- keeps _ (set_f _ _) _ => apply keeps_tailBy_modify; intros; reflexivity
  | |- keeps _ (set_t _ _) _ => apply keeps_tailBy_modify; intros; reflexivity
  | |- keeps _ (set_b _ _) _ => apply keeps_tailBy_modify; intros; reflexivity
  | |- keeps _ (set_d _ _ _ _) _ => apply keeps_tailBy_set_d
  | |- _ => idtac
  end.

(** [still_of H] and [tail_of H c]: the steps run in [H] leave the tree
    alone. *)
Tactic Notation "still_of" hyp(H) "as" ident(K) :=
  lazymatch type of H with
  | ?m ?s = (Ok _, ?s') =>
      assert (K : still s s')
        by (eapply (keeps_run_True (still s) m);
            [unfold still; kgo prim_tail | apply tailBy_refl | exact H])
  end.

Tactic Notation "tail_of" hyp(H) constr(c) "as" ident(K) :=
  lazymatch type of H with
  | ?m ?s = (Ok _, ?s') =>
      assert (K : tail c s s')
        by (eapply (keeps_run_True (tail c s) m);
            [unfold tail; kgo prim_tail | apply tailBy_refl | exact H])
  end.

(** *** The summaries compose *)

Lemma ordered_leaf c s s' : fresh c s -> still s s' -> ordered c s s'.
Proof.
  intros Hf K. exists []. rewrite app_nil_r. split; [by apply still_lifecycle|].
  destruct K as (L & K & _). rewrite L. apply postOrder_nil.
  intros a b Ha (ks & Hks & Hb). exfalso. rewrite K in Hks.
  destruct Ha as [->|Ha]; [|unfold range in Ha; lia].
  eapply fresh_no_child; [exact Hf|]. by exists ks.
Qed.

Lemma ordered_still_l c s s1 s' : still s s1 -> ordered c s1 s' -> ordered c s s'.
Proof.
  intros K (q & Q & PO). pose proof (still_lifecycle _ _ K) as Hl.
  destruct K as (L & _). exists q. by rewrite <- Hl, <- L.
Qed.

Lemma ordered_tail c s s1 s' :
  c < length (ivs s) -> ordered c s s1 -> tail c s1 s' -> ordered c s s'.
Proof.
  intros Hc (q & Q & PO) (L & K & own & Q' & F). exists (q ++ own).
  split; [by rewrite Q', Q, app_assoc|]. rewrite L.
  apply (postOrder_push _ c); [|by left| |done].
  - eapply postOrder_frame; [exact PO|]. intros a _. apply K.
  - intros a [->|Ha]; [done|]. unfold range in Ha. lia.
Qed.

Lemma mid_init c s : fresh c s -> mid c s s.
Proof.
  intros Hf. split; [done|]. split.
  - intros b Hb. by apply fresh_no_child in Hb.
  - exists []. split; [by rewrite app_nil_r|]. apply postOrder_nil.
    intros a b Ha. unfold range in Ha. lia.
Qed.

Lemma mid_still c s0 s s' : mid c s0 s -> still s s' -> mid c s0 s'.
Proof.
  intros (L & Hc & q & Q & PO) K. pose proof (still_lifecycle _ _ K) as Hl.
  destruct K as (L' & K & _). unfold mid. rewrite L'. split; [done|]. split.
  - intros b (ks & Hks & Hb). apply Hc. exists ks. by rewrite <- K.
  - exists q. split; [congruence|]. eapply postOrder_frame; [exact PO|].
    intros a _. apply K.
Qed.

Lemma mid_done c s0 s : c < length (ivs s0) -> mid c s0 s -> ordered c s0 s.
Proof.
  intros Hlt (L & Hc & q & Q & PO). exists q. split; [done|].
  apply postOrder_root; [done|]. intros b Hb. specialize (Hc b Hb).
  split; [unfold range in Hc; lia|done].
Qed.

(** Giving [c] no children keeps the summary. *)
Lemma mid_reset c s0 s ch s' :
  c < length (ivs s0) -> mid c s0 s -> childRefs ch = [] ->
  set_c c ch s = (Ok tt, s') -> mid c s0 s'.
Proof.
  intros Hlt (L & Hc & q & Q & PO) Hch Hrun.
  unfold set_c, modify_ivs in Hrun. inversion Hrun; subst s'; clear Hrun.
  unfold mid. simpl. rewrite length_alter. split; [done|]. split.
  - intros b (ks & Hks & Hb). exfalso. unfold kidsOf in Hks. simpl in Hks.
    rewrite list_lookup_alter_eq in Hks. destruct (ivs s !! c); [|done].
    simpl in Hks. unfold kids in Hks. simpl in Hks. rewrite Hch in Hks.
    inversion Hks; subst. by apply elem_of_nil in Hb.
  - exists q. split; [done|]. eapply postOrder_frame; [exact PO|].
    intros a Ha. unfold kidsOf. simpl. rewrite list_lookup_alter_ne; [done|].
    unfold range in Ha. lia.
Qed.

(** A child is allocated, given to [c] and mounted. *)
Lemma mid_call c s0 s1 s4 s5 :
  c < length (ivs s0) -> mid c s0 s1 -> alloc c s1 s4 ->
  ordered (length (ivs s1)) s4 s5 -> extends (length (ivs s1)) s4 s5 ->
  mid c s0 s5.
Proof.
  intros Hlt (L & Hc & q & Q & PO) (L4 & Q4 & K4 & F4 & C4) (q' & Q' & PO') E.
  pose proof (ext_len _ _ _ E) as L5.
  assert (Hfr : forall a, a < length (ivs s1) -> kidsOf s5 a = kidsOf s4 a).
  { intros a Ha. unfold kidsOf. rewrite (ext_frame _ _ _ E); [done|lia|lia]. }
  split; [lia|]. split.
  - intros b (ks & Hks & Hb). rewrite Hfr in Hks by lia.
    destruct (C4 b) as [Hold| ->]; [by exists ks| |unfold range; lia].
    specialize (Hc b Hold). unfold range in *. lia.
  - exists (q ++ q'). split; [by rewrite Q', Q4, Q, app_assoc|].
    eapply (postOrder_weaken
              (fun a => range (length (ivs s0)) (length (ivs s1)) a
                        \/ rooted (length (ivs s1)) (length (ivs s4))
                                  (length (ivs s5)) a));
      [|apply postOrder_app; [|exact PO'|]].
    + intros a. unfold rooted, range. rewrite L4. split.
      * intros [Ha|[Ha|Ha]]; lia.
      * intros Ha. destruct (decide (a < length (ivs s1))); [left|right]; lia.
    + eapply postOrder_frame; [exact PO|]. intros a Ha. unfold range in Ha.
      rewrite Hfr by lia. apply K4; lia.
    + intros a Ha Hb. unfold rooted, range in *. lia.
Qed.

Lemma alloc_still c s1 s3 s4 : alloc c s1 s3 -> still s3 s4 -> alloc c s1 s4.
Proof.
  intros (L & Q & K & F & C) St. pose proof (still_lifecycle _ _ St) as Hl.
  destruct St as (L' & K' & _). split; [congruence|]. split; [congruence|].
  split; [intros a Ha Hne; by rewrite K', K|]. split; [unfold fresh; by rewrite K'|].
  intros b (ks & Hks & Hb). apply C. exists ks. by rewrite <- K'.
Qed.

Lemma alloc_single c x i s1 c1 s2 s3 :
  c < length (ivs s1) ->
  createIV x i s1 = (Ok c1, s2) -> set_c c (CSingle c1) s2 = (Ok tt, s3) ->
  c1 = length (ivs s1) /\ alloc c s1 s3.
Proof.
  intros Hlt Hc Hs. rewrite createIV_run in Hc. inversion Hc; subst c1 s2; clear Hc.
  unfold set_c, modify_ivs in Hs. inversion Hs; subst s3; clear Hs.
  split; [done|]. unfold alloc, fresh, kidsOf, child, kidsOf. simpl.
  rewrite length_alter, length_app. simpl. split; [lia|]. split; [done|]. split.
  - intros a Ha Hne. rewrite list_lookup_alter_ne by done. by rewrite lookup_app_l.
  - split.
    + rewrite list_lookup_alter_ne by lia. rewrite lookup_app_r by lia.
      by rewrite Nat.sub_diag.
    + intros b (ks & Hks & Hb). right. rewrite list_lookup_alter_eq in Hks.
      rewrite lookup_app_l in Hks by done. destruct (ivs s1 !! c); [|done].
      simpl in Hks. inversion Hks; subst ks. unfold kids in Hb. simpl in Hb.
      by apply list_elem_of_singleton in Hb.
Qed.

Lemma alloc_push c x i s1 c1 s2 s3 :
  c < length (ivs s1) ->
  createIV x i s1 = (Ok c1, s2) -> push_c c c1 s2 = (Ok tt, s3) ->
  c1 = length (ivs s1) /\ alloc c s1 s3.
Proof.
  intros Hlt Hc Hs. rewrite createIV_run in Hc. inversion Hc; subst c1 s2; clear Hc.
  unfold push_c in Hs. apply bind_Ok_inv in Hs as (y & s2 & Hy & Hs).
  unfold get_iv in Hy. simpl in Hy. rewrite lookup_app_l in Hy by done.
  destruct (ivs s1 !! c) as [y'|] eqn:Hc; [|discriminate].
  inversion Hy; subst y' s2; clear Hy.
  destruct (iv_c y) as [| |rs] eqn:Hrs; try discriminate.
  unfold set_c, modify_ivs in Hs. inversion Hs; subst s3; clear Hs.
  split; [done|]. unfold alloc, fresh, kidsOf, child, kidsOf. simpl.
  rewrite length_alter, length_app. simpl. split; [lia|]. split; [done|]. split.
  - intros a Ha Hne. rewrite list_lookup_alter_ne by done. by rewrite lookup_app_l.
  - split.
    + rewrite list_lookup_alter_ne by lia. rewrite lookup_app_r by lia.
      by rewrite Nat.sub_diag.
    + intros b (ks & Hks & Hb). rewrite list_lookup_alter_eq in Hks.
      rewrite lookup_app_l in Hks by done. rewrite Hc in Hks.
      simpl in Hks. inversion Hks; subst ks. unfold kids in Hb. simpl in Hb.
      apply elem_of_app in Hb as [Hb|Hb].
      * left. exists rs. split; [|done]. rewrite Hc. simpl. unfold kids.
        by rewrite Hrs.
      * right. by apply list_elem_of_singleton in Hb.
Qed.

(** *** The mounters queue in post-order *)

Lemma when_first_mid c s0 s s' forceKeyed child :
  c < length (ivs s0) -> mid c s0 s -> forall firstValid,
  when firstValid
    (set_c c (CArray []) ;;
     set_f c (if forceKeyed || hasKey child
              then HasKeyedChildren IVFlags
              else HasNonKeydChildren IVFlags)) s = (Ok tt, s') ->
  mid c s0 s'.
Proof.
  intros Hlt Hm [|] Hrun.
  - change (when true ?m) with m in Hrun.
    bstep Hrun as ([] & s1 & Hset & Hrun). still_of Hrun as K.
    eapply mid_still; [|exact K]. by eapply mid_reset; [done|exact Hm| |exact Hset].
  - by inversion Hrun; subst.
Qed.

Lemma mountArrayLoop_mid mountChild c forceKeyed s0 l :
  c < length (ivs s0) ->
  (forall c1 child s4 r s5,
      mountChild c1 child s4 = (Ok r, s5) -> fresh c1 s4 ->
      ordered c1 s4 s5 /\ extends c1 s4 s5) ->
  forall i firstValid s s',
    mountArrayLoop IVFlags mountChild c forceKeyed l i firstValid s = (Ok tt, s') ->
    mid c s0 s -> mid c s0 s'.
Proof.
  intros Hlt Hchild. induction l as [|child rest IH]; intros i firstValid s s' Hrun Hm.
  - by inversion Hrun; subst.
  - unfold mountArrayLoop in Hrun; fold mountArrayLoop in Hrun.
    destruct (negb (isInvalid child)); [|by eapply IH].
    bstep Hrun as ([] & s1 & Hfirst & Hrun).
    bstep Hrun as (c1 & s2 & Hc1 & Hrun).
    bstep Hrun as ([] & s3 & Hpush & Hrun).
    bstep Hrun as (d & s4 & Hcall & Hrun).
    pose proof (when_first_mid _ _ _ _ _ _ Hlt Hm _ Hfirst) as Hm1.
    assert (Hlt1 : c < length (ivs s1)) by (destruct Hm1 as (L & _); lia).
    destruct (alloc_push _ _ _ _ _ _ _ Hlt1 Hc1 Hpush) as [-> Hal].
    destruct (Hchild _ _ _ _ _ Hcall) as [Ho He].
    { by destruct Hal as (_ & _ & _ & F & _). }
    eapply IH; [exact Hrun|]. by eapply mid_call.
Qed.

Lemma mounters_ordered fuel :
  (forall c input parentDOM nextNode context isSVG insertIntoDOM s r s',
      mount fuel c input parentDOM nextNode context isSVG insertIntoDOM s = (Ok r, s') ->
      fresh c s -> ordered c s s')
  /\ (forall c input parentDOM nextNode context isSVG insertIntoDOM s r s',
      mountVNode fuel c input parentDOM nextNode context isSVG insertIntoDOM s
      = (Ok r, s') -> fresh c s -> ordered c s s')
  /\ (forall c vNode parentDOM nextNode context isSVG insertIntoDom s r s',
      mountPortal fuel c vNode parentDOM nextNode context isSVG insertIntoDom s
      = (Ok r, s') -> fresh c s -> ordered c s s')
  /\ (forall c vNode parentDOM nextNode context isSVG insertIntoDom s r s',
      mountElement fuel c vNode parentDOM nextNode context isSVG insertIntoDom s
      = (Ok r, s') -> fresh c s -> ordered c s s')
  /\ (forall c children parentDOM nextNode context isSVG forceKeyed isVirtual s r s',
      mountArrayChildren fuel c children parentDOM nextNode context isSVG forceKeyed
                         isVirtual s = (Ok r, s') -> fresh c s -> ordered c s s')
  /\ (forall c vNode parentDOM nextNode context isSVG insertIntoDom s r s',
      mountComponent fuel c vNode parentDOM nextNode context isSVG insertIntoDom s
      = (Ok r, s') -> fresh c s -> ordered c s s').
Proof.
  induction fuel as [|fuel (IHm & IHv & IHp & IHe & IHa & IHc)].
  { split; [|split; [|split; [|split; [|split]]]]; intros; discriminate. }
  split; [|split; [|split; [|split; [|split]]]];
    intros c x parentDOM nextNode context isSVG;
    repeat lazymatch goal with |- forall _ : bool, _ => intros ? end;
    intros s r s' Hrun Hf; pose proof (fresh_lt _ _ Hf) as Hlt; simpl in Hrun.
  - (* the dispatcher *)
    destruct (asText x) as [text|] eqn:Ht.
    { still_of Hrun as K. by apply ordered_leaf. }
    destruct (asVNode x) as [vNode|] eqn:Hv; [by eapply IHv|].
    bstep Hrun as ([] & s1 & Hval & Hrun). bstep Hrun as ([] & s2 & Harr & Hrun).
    apply ret_Ok_inv in Hrun as [_ ->]. still_of Hval as K.
    eapply ordered_still_l; [exact K|]. eapply IHa; [exact Harr|by eapply fresh_still].
  - (* the View Node dispatcher *)
    destruct (hasFlag (flags x) (Element VNodeFlags)); [by eapply IHe|].
    destruct (hasFlag (flags x) (Component VNodeFlags)); [by eapply IHc|].
    destruct (hasFlag (flags x) (Portal VNodeFlags)); [by eapply IHp|].
    apply ret_Ok_inv in Hrun as [_ ->]. apply ordered_leaf; [done|apply tailBy_refl].
  - (* the Portal Mounter *)
    bstep Hrun as (c1 & s1 & Hc1 & Hrun). bstep Hrun as ([] & s2 & Hset & Hrun).
    bstep Hrun as (d & s3 & Hm & Hrun).
    destruct (type x) as [| | |container] eqn:Hty; try discriminate.
    destruct (alloc_single _ _ _ _ _ _ _ Hlt Hc1 Hset) as [-> Hal].
    tail_of Hrun c as K. eapply ordered_tail; [done| |exact K]. apply mid_done; [done|].
    eapply mid_call; [done|by apply mid_init|exact Hal| |by eapply mount_extends].
    eapply IHm; [exact Hm|]. by destruct Hal as (_ & _ & _ & F & _).
  - (* the Element Mounter *)
    destruct (type x) as [tag| | |] eqn:Hty; try discriminate.
    bstep Hrun as (dom & s1 & Hdom & Hrun). bstep Hrun as ([] & s2 & Hch & Hrun).
    still_of Hdom as K. tail_of Hrun c as Kt.
    eapply ordered_still_l; [exact K|]. eapply ordered_tail; [|clear Kt|exact Kt].
    { destruct K as (L & _). lia. }
    pose proof (fresh_still _ _ _ Hf K) as Hf1.
    pose proof (fresh_lt _ _ Hf1) as Hlt1. clear Hrun.
    destruct (isInvalid (children x)); [still_of Hch as K'; by apply ordered_leaf|].
    destruct (asText (children x)) as [text|];
      [still_of Hch as K'; by apply ordered_leaf|].
    destruct (asVNode (children x)) as [ch|]; [|by eapply IHa].
    bstep Hch as (c1 & s1a & Hc1 & Hch). bstep Hch as ([] & s1b & Hset & Hch).
    bstep Hch as ([] & s1c & Hsf & Hch). bstep Hch as (d & s1d & Hv & Hch).
    apply ret_Ok_inv in Hch as [_ ->].
    destruct (alloc_single _ _ _ _ _ _ _ Hlt1 Hc1 Hset) as [-> Hal].
    still_of Hsf as K1. pose proof (alloc_still _ _ _ _ Hal K1) as Hal'.
    apply mid_done; [done|].
    eapply mid_call; [done|by apply mid_init|exact Hal'| |by eapply mountVNode_extends].
    eapply IHv; [exact Hv|]. by destruct Hal' as (_ & _ & _ & F & _).
  - (* the Array Children Mounter *)
    bstep Hrun as ([] & s1 & Hnull & Hrun). bstep Hrun as ([] & s2 & Hsf & Hrun).
    bstep Hrun as ([] & s3 & Hloop & Hrun).
    destruct (arrayLike x) as [l|]; [|discriminate].
    still_of Hsf as K. tail_of Hrun c as Kt. eapply ordered_tail; [done| |exact Kt].
    apply mid_done; [done|].
    eapply mountArrayLoop_mid; [done| |exact Hloop|].
    + intros c1 child s4 d s5 Hcall Hf4. cbv beta in Hcall.
      split; [by eapply IHm|by eapply mount_extends].
    + eapply mid_still; [|exact K].
      eapply mid_reset; [done|by apply mid_init| |exact Hnull]. done.
  - (* the Component Mounter *)
    bstep Hrun as ([[renderOutput context'] instance] & s1 & Hren & Hrun).
    cbv beta iota in Hrun. bstep Hrun as (dom & s2 & Hdom & Hrun).
    still_of Hren as K. tail_of Hrun c as Kt.
    eapply ordered_still_l; [exact K|]. eapply ordered_tail; [|clear Kt|exact Kt].
    { destruct K as (L & _). lia. }
    pose proof (fresh_still _ _ _ Hf K) as Hf1. clear Hrun.
    destruct (isInvalid renderOutput); [still_of Hdom as K'; by apply ordered_leaf|].
    bstep Hdom as ([] & sa & Hsf & Hdom). bstep Hdom as (c1 & sb & Hc1 & Hdom).
    bstep Hdom as ([] & sc & Hset & Hdom). bstep Hdom as ([] & sd & Hsb & Hdom).
    bstep Hdom as (d & se & Hm & Hdom).
    still_of Hdom as K1. still_of Hsf as K2. still_of Hsb as K3.
    pose proof (fresh_still _ _ _ Hf1 K2) as Hfa.
    pose proof (fresh_lt _ _ Hfa) as Hlta.
    destruct (alloc_single _ _ _ _ _ _ _ Hlta Hc1 Hset) as [-> Hal].
    pose proof (alloc_still _ _ _ _ Hal K3) as Hal'.
    eapply ordered_still_l; [exact K2|]. apply mid_done; [done|].
    eapply mid_still; [|exact K1].
    eapply mid_call; [done|by apply mid_init|exact Hal'| |by eapply mount_extends].
    eapply IHm; [exact Hm|]. by destruct Hal' as (_ & _ & _ & F & _).
Qed.

Lemma flush_app q1 q2 : flush (q1 ++ q2) = flush q1 ++ flush q2.
Proof. unfold flush. by rewrite fmap_app, concat_app. Qed.

(** Flushing invokes an earlier entry before a later one. *)
Lemma flush_in_collection_order q i j ei ej :
  q !! i = Some ei -> q !! j = Some ej -> j < i ->
  exists before between after,
    flush q = before ++ runLifecycle (fn ej) ++ between
                     ++ runLifecycle (fn ei) ++ after.
Proof.
  intros Hi Hj Hlt.
  assert (Hi' : drop (S j) q !! (i - S j) = Some ei).
  { rewrite lookup_drop. rewrite <- Hi. f_equal. lia. }
  exists (flush (take j q)), (flush (take (i - S j) (drop (S j) q))),
    (flush (drop (S (i - S j)) (drop (S j) q))).
  rewrite <- (take_drop_middle q j ej Hj) at 1.
  rewrite <- (take_drop_middle _ _ _ Hi') at 1.
  rewrite flush_app. f_equal.
  change (flush (ej :: ?l)) with (runLifecycle (fn ej) ++ flush l). f_equal.
  rewrite flush_app. f_equal.
Qed.


(** A class component with a [componentDidMount] method queues its didMount
    closure as the last entry of its mount call; the entry is owned by the
    component's IV. *)
Lemma class_component_queues_didMount_last fuel iv vNode parentDOM nextNode context
    isSVG insertIntoDom new cb s r s' :
  hasFlag (flags vNode) (ComponentClass VNodeFlags) = true ->
  type vNode = TClass new ->
  componentDidMount (new (default EMPTY_OBJ (props vNode)) context) = Some cb ->
  mountComponent fuel iv vNode parentDOM nextNode context isSVG insertIntoDom s
  = (Ok r, s') ->
  exists q,
    lifecycle s' = lifecycle s ++ q
                   ++ [mkEntry iv (LClassDidMount iv (afterMount options) vNode (Some cb))].
Proof.
  intros Hcl Hty Hdm Hrun. destruct fuel as [|fuel]; [discriminate|].
  simpl in Hrun. rewrite Hcl, Hty in Hrun.
  bstep Hrun as ([[renderOutput context'] instance] & s1 & Hren & Hrun).
  cbv beta iota in Hrun. bstep Hrun as (dom & s2 & Hdom & Hrun).
  still_of Hren as K1. apply still_lifecycle in K1.
  assert (instance = Some (new (default EMPTY_OBJ (props vNode)) context)) as ->.
  { binv Hren. apply ret_Ok_inv in Hren as [Heq _]. by inversion Heq. }
  ext_of Hdom iv. destruct (ext_lifecycle _ _ _ K) as [q Hq].
  bstep Hrun as ([] & s3 & Hcb & Hrun). still_of Hrun as K3.
  apply still_lifecycle in K3.
  bstep Hcb as ([] & s2a & Hcb & Hrest). still_of Hrest as K2.
  apply still_lifecycle in K2.
  unfold mountClassComponentCallbacks in Hcb.
  bstep Hcb as ([] & s2b & Href & Hpush). still_of Href as K4.
  apply still_lifecycle in K4.
  rewrite Hdm in Hpush. inversion Hpush; subst s2a; clear Hpush.
  exists q. rewrite K3, K2. simpl. by rewrite K4, Hq, K1, app_assoc.
Qed.

(** ** What a mount leaves alone *)

(** X1. [mount] works on the IV it was handed and on the IVs it allocates
    itself: the store only grows, every other IV that existed before the call
    is exactly as it was, the IV handed over keeps its input, its index and
    its back reference, and the lifecycle queue and the DOM node supply are
    only added to. *)
Theorem mount_touches_only_its_iv fuel iv input parentDOM nextNode context isSVG
    insertIntoDOM s r s' :
  mount fuel iv input parentDOM nextNode context isSVG insertIntoDOM s = (Ok r, s') ->
  length (ivs s) <= length (ivs s')
  /\ (forall c, c < length (ivs s) -> c <> iv -> ivs s' !! c = ivs s !! c)
  /\ (forall x, ivs s !! iv = Some x ->
        exists x', ivs s' !! iv = Some x'
                   /\ iv_i x' = iv_i x /\ iv_k x' = iv_k x /\ iv_b x' = iv_b x)
  /\ lifecycle s `prefix_of` lifecycle s'
  /\ nextDom s <= nextDom s'.
Proof.
  intros Hrun. destruct (mount_extends _ _ _ _ _ _ _ _ _ _ _ Hrun)
    as [L F S D _ Q _]. auto.
Qed.


(** ** Every created node is inserted once *)

Lemma accounted_refl s : accounted [] s s.
Proof.
  split; [done|]. exists []. rewrite app_nil_r, Nat.sub_diag. by split.
Qed.

Lemma accounted_trans P1 P2 s s1 s2 :
  accounted P1 s s1 -> accounted P2 s1 s2 -> accounted (P1 ++ P2) s s2.
Proof.
  intros (L1 & e1 & T1 & C1 & B1) (L2 & e2 & T2 & C2 & B2). split; [lia|].
  exists (e1 ++ e2). split; [by rewrite T2, T1, app_assoc|].
  unfold created, inserted in *. rewrite !omap_app. split.
  - rewrite C1, C2.
    replace (nextDom s2 - nextDom s)
      with ((nextDom s1 - nextDom s) + (nextDom s2 - nextDom s1)) by lia.
    rewrite seq_app. do 2 f_equal. lia.
  - rewrite B1, B2. rewrite <- !app_assoc. f_equiv.
    rewrite !app_assoc. f_equiv. apply Permutation_app_comm.
Qed.

Lemma accounted_neutral s s' : neutral s s' -> accounted [] s s'.
Proof.
  intros (D & evs & T & C & I). split; [lia|]. exists evs.
  rewrite D, Nat.sub_diag, C, I. by split.
Qed.

Lemma accounted_neutral_r P s s1 s' : accounted P s s1 -> neutral s1 s' -> accounted P s s'.
Proof.
  intros H N. rewrite <- (app_nil_r P).
  eapply accounted_trans; [exact H|by apply accounted_neutral].
Qed.

Lemma accounted_neutral_l P s s1 s' : neutral s s1 -> accounted P s1 s' -> accounted P s s'.
Proof.
  intros N H. change P with ([] ++ P).
  eapply accounted_trans; [by apply accounted_neutral|exact H].
Qed.

Lemma accounted_insert s s1 p n a :
  accounted [n] s s1 -> accounted [] s (emit (EvInsert p n a) s1).2.
Proof.
  intros (L & evs & T & C & B). split; [done|]. exists (evs ++ [EvInsert p n a]).
  simpl. split; [by rewrite T, app_assoc|].
  unfold created, inserted in *. rewrite !omap_app. simpl.
  rewrite !app_nil_r. split; [done|]. by rewrite B.
Qed.

Lemma documentCreateElement_accounted tag isSVG s dom s' :
  documentCreateElement tag isSVG s = (Ok dom, s') ->
  dom = nextDom s /\ accounted [dom] s s'.
Proof.
  rewrite documentCreateElement_run. intros H. inversion H; subst dom s'; clear H.
  split; [done|]. split; [simpl; lia|]. exists [EvCreateElement (nextDom s) tag isSVG].
  simpl. replace (S (nextDom s) - nextDom s) with 1 by lia. by split.
Qed.

Lemma mountText_accounted iv text parentDOM nextNode context isSVG insertIntoDom s r s' :
  mountText IVFlags iv text parentDOM nextNode context isSVG insertIntoDom s = (Ok r, s') ->
  accounted (pending insertIntoDom r) s s'.
Proof.
  rewrite mountText_run. intros H. inversion H; subst r s'; clear H.
  split; [simpl; lia|]. eexists. simpl. split; [reflexivity|].
  replace (S (nextDom s) - nextDom s) with 1 by lia.
  by destruct insertIntoDom.
Qed.

Lemma neutral_refl s : neutral s s.
Proof. split; [done|]. exists []. by rewrite app_nil_r. Qed.

Lemma keeps_neutral_same {A} s0 (m : M A) :
  (forall s, nextDom (m s).2 = nextDom s /\ trace (m s).2 = trace s) ->
  keeps (neutral s0) m (fun _ => True).
Proof.
  intros Hm s a s' (D & evs & T & C & I) Hrun. split; [|done].
  destruct (Hm s) as [Hd Ht]. rewrite Hrun in Hd, Ht. simpl in *.
  split; [congruence|]. exists evs. split; [congruence|done].
Qed.

Lemma keeps_neutral_get_iv s0 r : keeps (neutral s0) (get_iv r) (fun _ => True).
Proof.
  apply keeps_neutral_same. intros s. unfold get_iv. by destruct (ivs s !! r).
Qed.

Lemma keeps_neutral_emit s0 ev :
  createdNode ev = None -> insertedNode ev = None ->
  keeps (neutral s0) (emit ev) (fun _ => True).
Proof.
  intros Hc Hi. apply keeps_step. intros s (D & evs & T & C & I). split; [|done].
  split; [done|]. exists (evs ++ [ev]). simpl.
  split; [by rewrite T, app_assoc|].
  unfold created, inserted in *. rewrite !omap_app, C, I. simpl. by rewrite Hc, Hi.
Qed.

Ltac prim_neutral _ :=
  lazymatch goal with
  | |- keeps _ (emit _) _ => apply keeps_neutral_emit; reflexivity
  | |- keeps _ (push _ _) _ => apply keeps_neutral_same; intros; split; reflexivity
  | |- keeps _ (get_iv _) _ => apply keeps_neutral_get_iv
  | |- keeps _ (createIV _ _) _ => apply keeps_neutral_same; intros; split; reflexivity
  | |- keeps _ (set_c _ _) _ => apply keeps_neutral_same; intros; split; reflexivity
  | |- keeps _ (set_f _ _) _ => apply keeps_neutral_same; intros; split; reflexivity
  | |- keeps _ (set_t _ _) _ => apply keeps_neutral_same; intros; split; reflexivity
  | |- keeps _ (set_b _ _) _ => apply keeps_neutral_same; intros; split; reflexivity
  | |- keeps _ (set_d _ _ _ _) _ => apply keeps_neutral_same; intros; split; reflexivity
  | |- _ => idtac
  end.

(** [neutral_of H as K]: the steps run in [H] create and insert nothing. *)
Tactic Notation "neutral_of" hyp(H) "as" ident(K) :=
  lazymatch type of H with
  | ?m ?s = (Ok _, ?s') =>
      assert (K : neutral s s')
        by (eapply (keeps_run_True (neutral s) m);
            [kgo prim_neutral | apply neutral_refl | exact H])
  end.

Lemma pending_undefined b : pending b DUndefined = [].
Proof. by destruct b. Qed.

Lemma pending_null b : pending b DNull = [].
Proof. by destruct b. Qed.

Lemma mountArrayLoop_accounted mountChild iv forceKeyed l :
  (forall c child s4 r s5,
      mountChild c child s4 = (Ok r, s5) -> accounted [] s4 s5) ->
  forall i firstValid s s',
    mountArrayLoop IVFlags mountChild iv forceKeyed l i firstValid s = (Ok tt, s') ->
    accounted [] s s'.
Proof.
  intros Hchild. induction l as [|child rest IH]; intros i firstValid s s' Hrun.
  - inversion Hrun; subst. apply accounted_refl.
  - unfold mountArrayLoop in Hrun; fold mountArrayLoop in Hrun.
    destruct (negb (isInvalid child)); [|by eapply IH].
    bstep Hrun as ([] & s1 & Hfirst & Hrun).
    bstep Hrun as (c1 & s2 & Hc1 & Hrun).
    bstep Hrun as ([] & s3 & Hpush & Hrun).
    bstep Hrun as (d & s4 & Hcall & Hrun).
    neutral_of Hfirst as K1. neutral_of Hc1 as K2. neutral_of Hpush as K3.
    eapply accounted_neutral_l; [exact K1|].
    eapply accounted_neutral_l; [exact K2|].
    eapply accounted_neutral_l; [exact K3|].
    change (@nil domref) with (@nil domref ++ []).
    eapply accounted_trans; [by eapply Hchild|by eapply IH].
Qed.

Lemma mounters_accounted fuel :
  (forall iv input parentDOM nextNode context isSVG insertIntoDOM s r s',
      mount fuel iv input parentDOM nextNode context isSVG insertIntoDOM s = (Ok r, s') ->
      accounted (pending insertIntoDOM r) s s')
  /\ (forall iv input parentDOM nextNode context isSVG insertIntoDOM s r s',
      mountVNode fuel iv input parentDOM nextNode context isSVG insertIntoDOM s
      = (Ok r, s') -> accounted (pending insertIntoDOM r) s s')
  /\ (forall iv vNode parentDOM nextNode context isSVG insertIntoDom s r s',
      mountPortal fuel iv vNode parentDOM nextNode context isSVG insertIntoDom s
      = (Ok r, s') -> accounted (pending insertIntoDom r) s s')
  /\ (forall iv vNode parentDOM nextNode context isSVG insertIntoDom s r s',
      mountElement fuel iv vNode parentDOM nextNode context isSVG insertIntoDom s
      = (Ok r, s') -> accounted (pending insertIntoDom r) s s')
  /\ (forall iv children parentDOM nextNode context isSVG forceKeyed isVirtual s r s',
      mountArrayChildren fuel iv children parentDOM nextNode context isSVG forceKeyed
                         isVirtual s = (Ok r, s') -> accounted [] s s')
  /\ (forall iv vNode parentDOM nextNode context isSVG insertIntoDom s r s',
      mountComponent fuel iv vNode parentDOM nextNode context isSVG insertIntoDom s
      = (Ok r, s') -> accounted (pending insertIntoDom r) s s').
Proof.
  induction fuel as [|fuel (IHm & IHv & IHp & IHe & IHa & IHc)].
  { split; [|split; [|split; [|split; [|split]]]]; intros; discriminate. }
  split; [|split; [|split; [|split; [|split]]]];
    intros c x parentDOM nextNode context isSVG;
    repeat lazymatch goal with |- forall _ : bool, _ => intros ? end;
    intros s r s' Hrun; simpl in Hrun.
  - (* the dispatcher *)
    destruct (asText x) as [text|] eqn:Ht; [by eapply mountText_accounted|].
    destruct (asVNode x) as [vNode|] eqn:Hv; [by eapply IHv|].
    bstep Hrun as ([] & s1 & Hval & Hrun). bstep Hrun as ([] & s2 & Harr & Hrun).
    apply ret_Ok_inv in Hrun as [-> ->]. neutral_of Hval as K.
    rewrite pending_null. eapply accounted_neutral_l; [exact K|by eapply IHa].
  - (* the View Node dispatcher *)
    destruct (hasFlag (flags x) (Element VNodeFlags)); [by eapply IHe|].
    destruct (hasFlag (flags x) (Component VNodeFlags)); [by eapply IHc|].
    destruct (hasFlag (flags x) (Portal VNodeFlags)); [by eapply IHp|].
    apply ret_Ok_inv in Hrun as [-> ->]. rewrite pending_undefined.
    apply accounted_refl.
  - (* the Portal Mounter *)
    bstep Hrun as (c1 & s1 & Hc1 & Hrun). bstep Hrun as ([] & s2 & Hset & Hrun).
    bstep Hrun as (d & s3 & Hm & Hrun).
    destruct (type x) as [| | |container] eqn:Hty; try discriminate.
    neutral_of Hc1 as K1. neutral_of Hset as K2.
    eapply accounted_neutral_l; [exact K1|].
    eapply accounted_neutral_l; [exact K2|].
    change (pending insertIntoDom r) with ([] ++ pending insertIntoDom r).
    eapply accounted_trans; [exact (IHm _ _ _ _ _ _ _ _ _ _ Hm)|].
    by eapply mountText_accounted.
  - (* the Element Mounter *)
    destruct (type x) as [tag| | |] eqn:Hty; try discriminate.
    bstep Hrun as (dom & s1 & Hdom & Hrun). bstep Hrun as ([] & s2 & Hch & Hrun).
    bstep Hrun as ([] & s3 & Hprops & Hrun). bstep Hrun as ([] & s4 & Hclass & Hrun).
    bstep Hrun as ([] & s5 & Href & Hrun). bstep Hrun as ([] & s6 & Hins & Hrun).
    apply ret_Ok_inv in Hrun as [-> ->].
    destruct (documentCreateElement_accounted _ _ _ _ _ Hdom) as [-> Hacc].
    neutral_of Hprops as K3. neutral_of Hclass as K4. neutral_of Href as K5.
    assert (Hkids : accounted [] s1 s2).
    { clear Hprops Hclass Href Hins K3 K4 K5.
      destruct (isInvalid (children x));
        [neutral_of Hch as K; by apply accounted_neutral|].
      destruct (asText (children x)) as [text|];
        [neutral_of Hch as K; by apply accounted_neutral|].
      destruct (asVNode (children x)) as [ch|]; [|by eapply IHa].
      bstep Hch as (c1 & s1a & Hc1 & Hch). bstep Hch as ([] & s1b & Hset & Hch).
      bstep Hch as ([] & s1c & Hsf & Hch). bstep Hch as (dc & s1d & Hv & Hch).
      apply ret_Ok_inv in Hch as [_ ->].
      neutral_of Hc1 as K1. neutral_of Hset as K2. neutral_of Hsf as K3.
      eapply accounted_neutral_l; [exact K1|].
      eapply accounted_neutral_l; [exact K2|].
      eapply accounted_neutral_l; [exact K3|].
      exact (IHv _ _ _ _ _ _ _ _ _ _ Hv). }
    assert (Hacc5 : accounted [nextDom s] s s5).
    { eapply accounted_neutral_r; [|exact K5].
      eapply accounted_neutral_r; [|exact K4].
      eapply accounted_neutral_r; [|exact K3].
      rewrite <- (app_nil_r [nextDom s]). by eapply accounted_trans. }
    destruct insertIntoDom; simpl.
    + change (when true ?m) with m in Hins.
      bstep Hins as ([] & s5a & Hsd & Hins). neutral_of Hsd as K6.
      inversion Hins; subst s6; clear Hins.
      apply (accounted_insert s s5a). by eapply accounted_neutral_r.
    + by inversion Hins; subst.
  - (* the Array Children Mounter *)
    bstep Hrun as ([] & s1 & Hnull & Hrun). bstep Hrun as ([] & s2 & Hsf & Hrun).
    bstep Hrun as ([] & s3 & Hloop & Hrun).
    destruct (arrayLike x) as [l|]; [|discriminate].
    neutral_of Hnull as K1. neutral_of Hsf as K2. neutral_of Hrun as K3.
    eapply accounted_neutral_l; [exact K1|].
    eapply accounted_neutral_l; [exact K2|].
    eapply accounted_neutral_r; [|exact K3].
    eapply mountArrayLoop_accounted; [|exact Hloop].
    intros c1 child s4 d s5 Hcall. cbv beta in Hcall.
    exact (IHm _ _ _ _ _ _ _ _ _ _ Hcall).
  - (* the Component Mounter *)
    bstep Hrun as ([[renderOutput context'] instance] & s1 & Hren & Hrun).
    cbv beta iota in Hrun. bstep Hrun as (dom & s2 & Hdom & Hrun).
    bstep Hrun as ([] & s3 & Hcb & Hrun). bstep Hrun as ([] & s4 & Hins & Hrun).
    apply ret_Ok_inv in Hrun as [-> ->].
    neutral_of Hren as K1. neutral_of Hcb as K3.
    assert (Hacc : accounted (pending false dom) s1 s2).
    { clear Hcb Hins K3.
      destruct (isInvalid renderOutput).
      - neutral_of Hdom as K. binv Hdom. apply ret_Ok_inv in Hdom as [-> _].
        by apply accounted_neutral.
      - bstep Hdom as ([] & sa & Hsf & Hdom). bstep Hdom as (c1 & sb & Hc1 & Hdom).
        bstep Hdom as ([] & sc & Hset & Hdom). bstep Hdom as ([] & sd & Hsb & Hdom).
        bstep Hdom as (d & se & Hm & Hdom). bstep Hdom as ([] & sf & Hsd & Hdom).
        apply ret_Ok_inv in Hdom as [-> ->].
        neutral_of Hsf as Ka. neutral_of Hc1 as Kb. neutral_of Hset as Kc.
        neutral_of Hsb as Kd. neutral_of Hsd as Ke.
        eapply accounted_neutral_l; [exact Ka|].
        eapply accounted_neutral_l; [exact Kb|].
        eapply accounted_neutral_l; [exact Kc|].
        eapply accounted_neutral_l; [exact Kd|].
        eapply accounted_neutral_r; [|exact Ke].
        exact (IHm _ _ _ _ _ _ _ _ _ _ Hm). }
    assert (Hacc3 : accounted (pending false dom) s s3).
    { eapply accounted_neutral_l; [exact K1|].
      eapply accounted_neutral_r; [exact Hacc|exact K3]. }
    destruct insertIntoDom; simpl in *.
    + destruct dom as [| |n]; simpl in *.
      * by inversion Hins; subst.
      * change (when true ?m) with m in Hins. binv Hins. discriminate.
      * change (when true ?m) with m in Hins.
        bstep Hins as ([] & s3a & Hsd & Hins). neutral_of Hsd as K6.
        inversion Hins; subst s4; clear Hins.
        apply (accounted_insert s s3a). by eapply accounted_neutral_r.
    + by inversion Hins; subst.
Qed.

(** X3. Every DOM node a successful [mount] creates is inserted exactly
    once: the nodes created are the next unused ones of the document, one
    after the other, and the insertions made are a rearrangement of them.
    Called without insertion, [mount] leaves exactly the node it returns to be
    inserted by its caller; for an array input it inserts every node even
    then. *)
Theorem mount_inserts_each_created_node_once fuel iv input parentDOM nextNode context
    isSVG insertIntoDOM s r s' :
  mount fuel iv input parentDOM nextNode context isSVG insertIntoDOM s = (Ok r, s') ->
  exists evs,
    trace s' = trace s ++ evs
    /\ created evs = seq (nextDom s) (nextDom s' - nextDom s)
    /\ NoDup (created evs)
    /\ created evs ≡ₚ inserted evs ++ pending insertIntoDOM r
    /\ (insertIntoDOM = true \/ isArray input = true -> created evs ≡ₚ inserted evs).
Proof.
  intros Hrun.
  destruct (proj1 (mounters_accounted fuel) _ _ _ _ _ _ _ _ _ _ Hrun)
    as (L & evs & T & C & B).
  exists evs. split; [done|]. split; [done|]. split; [rewrite C; apply NoDup_seq|].
  split; [done|]. intros [->|Harr].
  - by rewrite app_nil_r in B.
  - assert (r = DNull) as ->.
    { destruct input; try discriminate. destruct fuel as [|fuel]; [discriminate|].
      simpl in Hrun. binv Hrun. by apply ret_Ok_inv in Hrun as [-> _]. }
    by rewrite pending_null, app_nil_r in B.
Qed.

(** ** The root node of a mount *)

Lemma later_refl s : later s s.
Proof. split; [done|]. exists []. by rewrite app_nil_r. Qed.

Lemma later_trans s0 s s' : later s0 s -> later s s' -> later s0 s'.
Proof.
  intros (L1 & e1 & T1) (L2 & e2 & T2). split; [lia|]. exists (e1 ++ e2).
  by rewrite T2, T1, app_assoc.
Qed.

Lemma keeps_later_step {A} s0 (m : M A) :
  (forall s, length (ivs s) <= length (ivs (m s).2)
             /\ exists evs, trace (m s).2 = trace s ++ evs) ->
  keeps (later s0) m (fun _ => True).
Proof.
  intros Hm s a s' Hs Hrun. split; [|done]. eapply later_trans; [exact Hs|].
  specialize (Hm s). rewrite Hrun in Hm. exact Hm.
Qed.

Lemma keeps_later_call {A} s0 (m : M A) c :
  (forall s a s', m s = (Ok a, s') -> extends c s s') ->
  keeps (later s0) m (fun _ => True).
Proof.
  intros Hm s a s' Hs Hrun. split; [|done]. eapply later_trans; [exact Hs|].
  destruct (Hm _ _ _ Hrun) as [L _ _ _ (evs & T & _) _ _]. split; [done|eauto].
Qed.

Ltac later_step :=
  apply keeps_later_step; intros ?; simpl; rewrite ?length_alter, ?length_app;
  split; [lia|first [exists []; by rewrite app_nil_r | eexists; reflexivity]].

Ltac prim_later _ :=
  lazymatch goal with
  | |- keeps _ (emit _) _ => later_step
  | |- keeps _ (push _ _) _ => later_step
  | |- keeps _ freshDom _ => later_step
  | |- keeps _ (get_iv ?r) _ =>
      apply keeps_later_step; intros s; unfold get_iv; destruct (ivs s !! r);
      (split; [done|exists []; by rewrite app_nil_r])
  | |- keeps _ (createIV _ _) _ => later_step
  | |- keeps _ (set_c _ _) _ => later_step
  | |- keeps _ (set_f _ _) _ => later_step
  | |- keeps _ (set_t _ _) _ => later_step
  | |- keeps _ (set_b _ _) _ => later_step
  | |- keeps _ (set_d _ _ _ _) _ => later_step
  | |- _ => idtac
  end.

(** [later_of H as K]: the state reached by the run [H] comes after the one
    it started in. *)
Tactic Notation "later_of" hyp(H) "as" ident(K) :=
  lazymatch type of H with
  | ?m ?s = (Ok _, ?s') =>
      assert (K : later s s')
        by (eapply (keeps_run_True (later s) m);
            [ kgo prim_later;
              try (eapply keeps_later_call;
                   first [ apply mount_extends | apply mountVNode_extends
                         | apply mountPortal_extends | apply mountElement_extends
                         | apply mountArrayChildren_extends
                         | apply mountComponent_extends ])
            | apply later_refl | exact H ])
  end.

Lemma set_d_holds who self iv v s a s' :
  iv < length (ivs s) -> set_d who self iv v s = (Ok a, s') ->
  holds iv (fun x => iv_d x = v) s' /\ trace s' = trace s.
Proof.
  intros Hlt Hrun. inversion Hrun; subst; clear Hrun. unfold holds. simpl.
  split; [|done]. destruct (lookup_lt_is_Some_2 _ _ Hlt) as [x Hx].
  eexists. rewrite list_lookup_alter_eq, Hx. simpl. split; reflexivity.
Qed.

(** The last steps of a mounter: [iv.d = dom; insertOrAppend(parentDOM, dom,
    nextNode)]. *)
Lemma attach_root who iv n parentDOM nextNode s0 s s' :
  later s0 s ->
  (set_d who iv iv (DNode n) ;; insertOrAppend parentDOM (DNode n) nextNode) s
  = (Ok tt, s') ->
  (exists evs, trace s' = trace s0 ++ evs ++ [EvInsert parentDOM n nextNode])
  /\ (iv < length (ivs s0) -> holds iv (fun x => iv_d x = DNode n) s').
Proof.
  intros (L & evs & T) Hrun. bstep Hrun as ([] & s1 & Hsd & Hins).
  inversion Hins; subst s'; clear Hins. split.
  - exists evs. simpl. inversion Hsd; subst s1. simpl. by rewrite T, app_assoc.
  - intros Hlt. apply set_d_holds in Hsd as [Hd _]; [|lia].
    by eapply holds_same_ivs; [|exact Hd].
Qed.

Lemma mountText_root iv text parentDOM nextNode context isSVG s r s' :
  mountText IVFlags iv text parentDOM nextNode context isSVG true s = (Ok r, s') ->
  exists n, r = DNode n
    /\ (exists evs, trace s' = trace s ++ evs ++ [EvInsert parentDOM n nextNode])
    /\ (iv < length (ivs s) -> holds iv (fun x => iv_d x = DNode n) s').
Proof.
  rewrite mountText_run. intros H. inversion H; subst r s'; clear H.
  exists (nextDom s). split; [done|]. split.
  - by exists [EvCreateText (nextDom s) text].
  - intros Hlt. unfold holds. simpl.
    destruct (lookup_lt_is_Some_2 _ _ Hlt) as [x Hx].
    eexists. rewrite !list_lookup_alter_eq, Hx. simpl. split; reflexivity.
Qed.

Lemma mountElement_root fuel iv vNode parentDOM nextNode context isSVG s r s' :
  mountElement fuel iv vNode parentDOM nextNode context isSVG true s = (Ok r, s') ->
  exists n, r = DNode n
    /\ (exists evs, trace s' = trace s ++ evs ++ [EvInsert parentDOM n nextNode])
    /\ (iv < length (ivs s) -> holds iv (fun x => iv_d x = DNode n) s').
Proof.
  intros Hrun. destruct fuel as [|fuel]; [discriminate|]. simpl in Hrun.
  destruct (type vNode) as [tag| | |] eqn:Hty; try discriminate.
  bstep Hrun as (dom & s1 & Hdom & Hrun). bstep Hrun as ([] & s2 & Hch & Hrun).
  bstep Hrun as ([] & s3 & Hprops & Hrun). bstep Hrun as ([] & s4 & Hclass & Hrun).
  bstep Hrun as ([] & s5 & Href & Hrun). bstep Hrun as ([] & s6 & Hins & Hrun).
  apply ret_Ok_inv in Hrun as [-> ->].
  later_of Hdom as K1. later_of Hch as K2. later_of Hprops as K3.
  later_of Hclass as K4. later_of Href as K5.
  exists dom. split; [done|]. change (when true ?m) with m in Hins.
  eapply attach_root; [|exact Hins].
  eapply later_trans; [|exact K5]. eapply later_trans; [|exact K4].
  eapply later_trans; [|exact K3]. by eapply later_trans.
Qed.

Lemma mountComponent_root fuel iv vNode parentDOM nextNode context isSVG s n s' :
  mountComponent fuel iv vNode parentDOM nextNode context isSVG true s
  = (Ok (DNode n), s') ->
  (exists evs, trace s' = trace s ++ evs ++ [EvInsert parentDOM n nextNode])
  /\ (iv < length (ivs s) -> holds iv (fun x => iv_d x = DNode n) s').
Proof.
  intros Hrun. destruct fuel as [|fuel]; [discriminate|]. simpl in Hrun.
  bstep Hrun as ([[renderOutput context'] instance] & s1 & Hren & Hrun).
  cbv beta iota in Hrun. bstep Hrun as (dom & s2 & Hdom & Hrun).
  bstep Hrun as ([] & s3 & Hcb & Hrun). bstep Hrun as ([] & s4 & Hins & Hrun).
  apply ret_Ok_inv in Hrun as [Heq ->]. subst dom.
  later_of Hren as K1. later_of Hdom as K2. later_of Hcb as K3.
  change (when _ ?m) with m in Hins.
  eapply (attach_root MComponent iv n); [|exact Hins].
  eapply later_trans; [|exact K3]. by eapply later_trans.
Qed.

Lemma mountPortal_root fuel iv vNode parentDOM nextNode context isSVG s r s' :
  mountPortal fuel iv vNode parentDOM nextNode context isSVG true s = (Ok r, s') ->
  exists n, r = DNode n
    /\ (exists evs, trace s' = trace s ++ evs ++ [EvInsert parentDOM n nextNode])
    /\ (iv < length (ivs s) -> holds iv (fun x => iv_d x = DNode n) s').
Proof.
  intros Hrun. destruct fuel as [|fuel]; [discriminate|]. simpl in Hrun.
  bstep Hrun as (c1 & s1 & Hc1 & Hrun). bstep Hrun as ([] & s2 & Hset & Hrun).
  bstep Hrun as (d & s3 & Hm & Hrun).
  later_of Hc1 as K1. later_of Hset as K2. later_of Hm as K3.
  assert (K : later s s3).
  { eapply later_trans; [|exact K3]. by eapply later_trans. }
  destruct K as (L & evs & T).
  destruct (mountText_root _ _ _ _ _ _ _ _ _ Hrun) as (n & -> & (evs' & T') & Hd).
  exists n. split; [done|]. split.
  - exists (evs ++ evs'). by rewrite T', T, !app_assoc.
  - intros Hlt. apply Hd. lia.
Qed.

Lemma mount_root fuel iv input parentDOM nextNode context isSVG s n s' :
  mount fuel iv input parentDOM nextNode context isSVG true s = (Ok (DNode n), s') ->
  (exists evs, trace s' = trace s ++ evs ++ [EvInsert parentDOM n nextNode])
  /\ (iv < length (ivs s) -> holds iv (fun x => iv_d x = DNode n) s').
Proof.
  intros Hrun. destruct fuel as [|fuel]; [discriminate|]. simpl in Hrun.
  destruct (asText input) as [text|].
  { destruct (mountText_root _ _ _ _ _ _ _ _ _ Hrun) as (m & Heq & H).
    by inversion Heq; subst m. }
  destruct (asVNode input) as [vNode|].
  - destruct fuel as [|fuel]; [discriminate|]. simpl in Hrun.
    destruct (hasFlag (flags vNode) (Element VNodeFlags)).
    { destruct (mountElement_root _ _ _ _ _ _ _ _ _ _ Hrun) as (m & Heq & H).
      by inversion Heq; subst m. }
    destruct (hasFlag (flags vNode) (Component VNodeFlags)).
    { by eapply mountComponent_root. }
    destruct (hasFlag (flags vNode) (Portal VNodeFlags)); [|discriminate].
    destruct (mountPortal_root _ _ _ _ _ _ _ _ _ _ Hrun) as (m & Heq & H).
    by inversion Heq; subst m.
  - binv Hrun. discriminate.
Qed.

(** X4. When [mount], called with insertion, returns a DOM node, inserting
    that node into the parent, before the anchor it was given, is the last
    DOM call it made: the whole subtree, the props, the class, and the
    synchronous callbacks all come before. *)
Theorem mount_inserts_its_root_last fuel iv input parentDOM nextNode context isSVG
    s n s' :
  mount fuel iv input parentDOM nextNode context isSVG true s = (Ok (DNode n), s') ->
  exists evs, trace s' = trace s ++ evs ++ [EvInsert parentDOM n nextNode].
Proof. intros Hrun. by destruct (mount_root _ _ _ _ _ _ _ _ _ _ Hrun). Qed.

(** X5. When [mount], called with insertion on an allocated IV, returns a
    DOM node, that node is what the IV's [d] field holds afterwards. *)
Theorem mount_anchors_the_iv_at_its_root fuel iv input parentDOM nextNode context isSVG
    s n s' :
  iv < length (ivs s) ->
  mount fuel iv input parentDOM nextNode context isSVG true s = (Ok (DNode n), s') ->
  holds iv (fun x => iv_d x = DNode n) s'.
Proof. intros Hlt Hrun. by apply (mount_root _ _ _ _ _ _ _ _ _ _ Hrun). Qed.

(** ** The anchor of a virtual array *)

Lemma hasFlag_lor_l (a b : Z) : (0 < a)%Z -> hasFlag a (Z.lor a b) = true.
Proof.
  intros Ha. unfold hasFlag. replace (Z.land a (Z.lor a b)) with a; [by apply Z.ltb_lt|].
  apply Z.bits_inj'. intros n _. rewrite Z.land_spec, Z.lor_spec.
  by destruct (Z.testbit a n), (Z.testbit b n).
Qed.

Lemma hasFlag_lor_r (a b : Z) : (0 < b)%Z -> hasFlag b (Z.lor a b) = true.
Proof. intros Hb. rewrite Z.lor_comm. by apply hasFlag_lor_l. Qed.

Lemma holds_and iv (phi psi : IV -> Prop) s :
  holds iv phi s -> holds iv psi s -> holds iv (fun x => phi x /\ psi x) s.
Proof.
  intros (x & Hx & Hphi) (y & Hy & Hpsi). rewrite Hx in Hy. inversion Hy; subst y.
  by exists x.
Qed.

(** A text and an element are mounted on the next unused DOM node. *)
Lemma mount_first_node fuel iv input parentDOM nextNode context isSVG insertIntoDOM
    s r s' :
  (is_Some (asText input)
   \/ exists v, asVNode input = Some v /\ hasFlag (flags v) (Element VNodeFlags) = true) ->
  mount fuel iv input parentDOM nextNode context isSVG insertIntoDOM s = (Ok r, s') ->
  r = DNode (nextDom s).
Proof.
  intros Hroot Hrun. destruct fuel as [|fuel]; [discriminate|]. simpl in Hrun.
  destruct Hroot as [[text Ht]|(v & Hv & He)].
  - rewrite Ht, mountText_run in Hrun. by inversion Hrun.
  - assert (asText input = None) as Ht by (destruct input; simpl in *; congruence).
    rewrite Ht, Hv in Hrun. destruct fuel as [|fuel]; [discriminate|]. simpl in Hrun.
    rewrite He in Hrun. destruct fuel as [|fuel]; [discriminate|]. simpl in Hrun.
    destruct (type v) as [tag| | |]; try discriminate.
    bstep Hrun as (dom & s1 & Hdom & Hrun).
    rewrite documentCreateElement_run in Hdom. inversion Hdom; subst dom s1; clear Hdom.
    binv Hrun. by apply ret_Ok_inv in Hrun as [-> _].
Qed.

(** The first child IV of an array stays the first one while the entries
    after it are mounted. *)
Lemma mountEntries_keeps_head mountChild iv forceKeyed r0 entries :
  (forall c child s a s', mountChild c child s = (Ok a, s') -> extends c s s') ->
  forall s a s',
    holds iv (fun x => exists rs, iv_c x = CArray (r0 :: rs)) s ->
    mountEntries IVFlags mountChild iv forceKeyed entries false s = (Ok a, s') ->
    holds iv (fun x => exists rs, iv_c x = CArray (r0 :: rs)) s'.
Proof.
  intros Hchild. induction entries as [|[i child] rest IH]; intros s a s' Hc Hrun.
  - by apply ret_Ok_inv in Hrun as [_ ->].
  - unfold mountEntries in Hrun; fold mountEntries in Hrun.
    bstep Hrun as ([] & s1 & Hw & Hrun). apply ret_Ok_inv in Hw as [_ ->].
    bstep Hrun as (c & s2 & Hcreate & Hrun).
    bstep Hrun as ([] & s3 & Hpush & Hrun).
    bstep Hrun as (d & s4 & Hmount & Hrun).
    unfold createIV in Hcreate. inversion Hcreate; subst c s2; clear Hcreate.
    destruct Hc as (x & Hx & rs & Hcx).
    assert (Hlt : iv < length (ivs s)) by (by apply lookup_lt_Some in Hx).
    unfold push_c in Hpush. bstep Hpush as (x' & s2 & Hget & Hpush).
    unfold get_iv in Hget. simpl in Hget.
    rewrite (lookup_app_l_Some _ _ _ _ Hx) in Hget.
    inversion Hget; subst x' s2; clear Hget. rewrite Hcx in Hpush.
    inversion Hpush; subst s3; clear Hpush.
    pose proof (Hchild _ _ _ _ _ Hmount) as He.
    eapply IH; [|exact Hrun].
    eapply holds_extends; [|exact He|lia].
    unfold holds. simpl. eexists.
    rewrite list_lookup_alter_eq, (lookup_app_l_Some _ _ _ _ Hx). simpl.
    split; [reflexivity|]. by exists (rs ++ [length (ivs s)]).
Qed.

(** The end of the array mounter for a virtual array. *)
Lemma virtual_array_tail iv s r s' :
  (set_t iv IsVirtualArray ;;
   let* x := get_iv iv in
   if hasFlag (iv_f x) (Z.lor (HasKeyedChildren IVFlags) (HasNonKeydChildren IVFlags))
   then let* d := first_child_d iv in set_d MArray iv iv d
   else set_d MArray iv iv DNull) s = (Ok r, s') ->
  holds iv (fun x => iv_t x = IsVirtualArray) s'
  /\ (forall f, holds iv (fun x => iv_f x = f) s ->
        hasFlag f (Z.lor (HasKeyedChildren IVFlags) (HasNonKeydChildren IVFlags)) = false ->
        holds iv (fun x => iv_d x = DNull) s')
  /\ (forall f r0 d,
        holds iv (fun x => iv_f x = f /\ exists rs, iv_c x = CArray (r0 :: rs)) s ->
        hasFlag f (Z.lor (HasKeyedChildren IVFlags) (HasNonKeydChildren IVFlags)) = true ->
        r0 <> iv -> holds r0 (fun y => iv_d y = d) s ->
        holds iv (fun x => iv_d x = d) s').
Proof.
  intros Hrun. bstep Hrun as ([] & s1 & Ht & Hrun). bstep Hrun as (x & s2 & Hget & Hrun).
  unfold get_iv in Hget. destruct (ivs s1 !! iv) as [x'|] eqn:Hx; [|discriminate].
  inversion Hget; subst x' s2; clear Hget.
  inversion Ht; subst s1; clear Ht. simpl in Hx.
  rewrite list_lookup_alter_eq in Hx. destruct (ivs s !! iv) as [x0|] eqn:Hx0; [|done].
  simpl in Hx. inversion Hx; subst x; clear Hx. simpl in Hrun.
  assert (Hlt : iv < length (ivs s)) by (by apply lookup_lt_Some in Hx0).
  split; [|split].
  - assert (Ht : holds iv (fun x => iv_t x = IsVirtualArray)
                   (set_t iv IsVirtualArray s).2).
    { unfold holds. simpl. eexists. rewrite list_lookup_alter_eq, Hx0. simpl.
      split; reflexivity. }
    eapply (keeps_run (holds iv _)); [|exact Ht|exact Hrun]. kholds.
  - intros f (y & Hy & Hf) Hflag. rewrite Hx0 in Hy. inversion Hy; subst y; clear Hy.
    rewrite Hf, Hflag in Hrun. apply set_d_holds in Hrun as [Hd _]; [done|].
    simpl. by rewrite length_alter.
  - intros f r0 d (y & Hy & Hf & rs & Hc) Hflag Hne (z & Hz & Hd).
    rewrite Hx0 in Hy. inversion Hy; subst y; clear Hy.
    rewrite Hf, Hflag in Hrun. bstep Hrun as (d' & s3 & Hfirst & Hrun).
    unfold first_child_d, get_iv, bind, ret in Hfirst. simpl in Hfirst.
    rewrite list_lookup_alter_eq, Hx0 in Hfirst. simpl in Hfirst.
    rewrite Hc in Hfirst. simpl in Hfirst.
    rewrite list_lookup_alter_ne, Hz in Hfirst by done.
    inversion Hfirst; subst d' s3; clear Hfirst. rewrite Hd in Hrun.
    apply set_d_holds in Hrun as [Hd' _]; [done|]. simpl. by rewrite length_alter.
Qed.

(** X6. An array handed to the dispatcher is mounted as a virtual array:
    its IV gets the type IsVirtualArray, and its [d] field is borrowed from
    its first child IV. With no valid entry the field is null; when the first
    valid entry is a text or an element, the field is the first DOM node the
    call created, whatever the later entries are. The shape bits are taken to
    be distinct: HasKeyedChildren and HasNonKeydChildren positive,
    HasInvalidChildren sharing no bit with them. *)
Theorem virtual_array_is_anchored_at_its_first_node fuel iv l parentDOM nextNode context
    isSVG insertIntoDOM s r s' :
  iv < length (ivs s) ->
  mount fuel iv (VArr l) parentDOM nextNode context isSVG insertIntoDOM s = (Ok r, s') ->
  holds iv (fun x => iv_t x = IsVirtualArray) s'
  /\ (Forall (fun x => isInvalid x = true) l ->
      Z.land (HasInvalidChildren IVFlags)
             (Z.lor (HasKeyedChildren IVFlags) (HasNonKeydChildren IVFlags)) = 0%Z ->
      holds iv (fun x => iv_d x = DNull) s')
  /\ (forall pre child post,
        l = pre ++ child :: post ->
        Forall (fun x => isInvalid x = true) pre ->
        (is_Some (asText child)
         \/ exists v, asVNode child = Some v
                      /\ hasFlag (flags v) (Element VNodeFlags) = true) ->
        (0 < HasKeyedChildren IVFlags)%Z -> (0 < HasNonKeydChildren IVFlags)%Z ->
        holds iv (fun x => iv_d x = DNode (nextDom s)) s').
Proof.
  intros Hlt Hrun. destruct fuel as [|fuel]; [discriminate|]. simpl in Hrun.
  bstep Hrun as ([] & s0 & Hval & Hrun). bstep Hrun as ([] & s6 & Harr & Hrun).
  apply ret_Ok_inv in Hrun as [_ ->].
  assert (s0 = s) as ->.
  { unfold when in Hval. destruct (negb production); by inversion Hval. }
  clear Hval. destruct fuel as [|fuel]; [discriminate|]. simpl in Harr.
  rewrite mountArrayLoop_entries in Harr.
  bstep Harr as ([] & s1 & Hc & Harr). bstep Harr as ([] & s2 & Hf & Harr).
  bstep Harr as ([] & s5 & Hloop & Harr).
  destruct (virtual_array_tail _ _ _ _ Harr) as (Ht & Hempty & Hfirst).
  split; [done|]. split.
  - intros Hinv Hbits.
    assert (validEntries l 0 = []) as Hnil.
    { clear -Hinv. generalize 0. induction Hinv as [|x l Hx _ IH]; intros i; [done|].
      simpl. rewrite Hx. apply IH. }
    rewrite Hnil in Hloop. apply ret_Ok_inv in Hloop as [_ ->].
    apply set_c_holds in Hc as [_ L1]; [|done].
    apply set_f_holds in Hf as [Hf _]; [|lia].
    eapply Hempty; [exact Hf|]. unfold hasFlag. by rewrite Hbits.
  - intros pre child post -> Hpre Hroot HK HN.
    assert (Hvalid : isInvalid child = false).
    { destruct Hroot as [[t Ht']|(v & Hv & _)]; destruct child; try done;
        simpl in *; congruence. }
    rewrite (validEntries_first _ _ _ 0) in Hloop by assumption.
    unfold mountEntries in Hloop; fold mountEntries in Hloop.
    bstep Hloop as ([] & s3 & Hfirst' & Hloop).
    change (when true ?m) with m in Hfirst'.
    bstep Hfirst' as ([] & s2a & Hc' & Hf').
    bstep Hloop as (c1 & s3a & Hc1 & Hloop). bstep Hloop as ([] & s3b & Hpush & Hloop).
    bstep Hloop as (d & s4 & Hcall & Hloop).
    neutral_of Hc as N1. neutral_of Hf as N2. neutral_of Hc' as N3.
    neutral_of Hf' as N4. neutral_of Hc1 as N5. neutral_of Hpush as N6.
    assert (Hdom : nextDom s3b = nextDom s).
    { destruct N1 as [E1 _], N2 as [E2 _], N3 as [E3 _], N4 as [E4 _], N5 as [E5 _],
        N6 as [E6 _]. congruence. }
    apply set_c_holds in Hc as [_ L1]; [|done].
    apply set_f_holds in Hf as [_ L2]; [|lia].
    apply set_c_holds in Hc' as [Hnil L3]; [|lia].
    pose proof Hf' as Hf''. apply set_f_holds in Hf'' as [Hflag L4]; [|lia].
    holds_of Hnil Hf'. clear Hnil. holds_of Hflag Hc1.
    rewrite createIV_run in Hc1. inversion Hc1; subst c1 s3a; clear Hc1.
    assert (Hhead : holds iv (fun x => exists rs, iv_c x = CArray (length (ivs s3) :: rs))
                          s3b).
    { destruct K as (x & Hx & Hcx). unfold push_c in Hpush.
      bstep Hpush as (x' & sx & Hget & Hpush). unfold get_iv in Hget. simpl in Hget.
      rewrite (lookup_app_l_Some _ _ _ _ Hx) in Hget.
      inversion Hget; subst x' sx; clear Hget. rewrite Hcx in Hpush.
      inversion Hpush; subst s3b; clear Hpush. unfold holds. simpl. eexists.
      rewrite list_lookup_alter_eq, (lookup_app_l_Some _ _ _ _ Hx). simpl.
      split; [reflexivity|]. by exists []. }
    assert (Hlen : length (ivs s3b) = S (length (ivs s3))).
    { unfold push_c in Hpush.
      bstep Hpush as (x' & sx & Hget & Hpush). unfold get_iv in Hget. simpl in Hget.
      destruct (_ !! iv); [|discriminate]. inversion Hget; subst x' sx; clear Hget.
      destruct (iv_c i); try discriminate. inversion Hpush; subst s3b. simpl.
      rewrite length_alter, length_app. simpl. lia. }
    cbv beta in Hcall.
    pose proof (mount_first_node _ _ _ _ _ _ _ _ _ _ _ Hroot Hcall) as ->.
    pose proof (mount_extends _ _ _ _ _ _ _ _ _ _ _ Hcall) as He.
    assert (Hd : holds (length (ivs s3)) (fun y => iv_d y = DNode (nextDom s)) s4).
    { rewrite <- Hdom. eapply mount_root; [exact Hcall|lia]. }
    assert (Hhead4 : holds iv (fun x => exists rs, iv_c x = CArray (length (ivs s3) :: rs))
                           s4).
    { eapply holds_extends; [exact Hhead|exact He|lia]. }
    assert (Hflag4 : holds iv (fun x => iv_f x = if false || hasKey child
                                                 then HasKeyedChildren IVFlags
                                                 else HasNonKeydChildren IVFlags) s4).
    { holds_of K0 Hpush.
      eapply holds_extends; [exact K1|exact He|lia]. }
    pose proof (mountEntries_keeps_head _ _ _ _ _
                  (fun c ch => mount_extends fuel c ch _ _ _ _ _) _ _ _ Hhead4 Hloop)
      as Hhead5.
    holds_of Hflag4 Hloop. holds_of Hd Hloop.
    eapply Hfirst; [exact (holds_and _ _ _ _ K1 Hhead5)| |lia|exact K2].
    destruct (false || hasKey child); [by apply hasFlag_lor_l|by apply hasFlag_lor_r].
Qed.

(** ** Components *)

Lemma sameStore_refl s : sameStore s s.
Proof. by unfold sameStore. Qed.

Lemma keeps_sameStore_same {A} s0 (m : M A) :
  (forall s, ivs (m s).2 = ivs s /\ nextDom (m s).2 = nextDom s
             /\ domWrites (m s).2 = domWrites s) ->
  keeps (sameStore s0) m (fun _ => True).
Proof.
  intros Hm s a s' (I & D & W) Hrun. split; [|done].
  destruct (Hm s) as (Hi & Hd & Hw). rewrite Hrun in Hi, Hd, Hw. simpl in *.
  unfold sameStore. by rewrite Hi, Hd, Hw.
Qed.

Ltac prim_sameStore _ :=
  lazymatch goal with
  | |- keeps _ (emit _) _ => apply keeps_sameStore_same; intros; by repeat split
  | |- keeps _ (push _ _) _ => apply keeps_sameStore_same; intros; by repeat split
  | |- keeps _ (get_iv ?r) _ =>
      apply keeps_sameStore_same; intros s; unfold get_iv; destruct (ivs s !! r);
      by repeat split
  | |- _ => idtac
  end.

Tactic Notation "sameStore_of" hyp(H) "as" ident(K) :=
  lazymatch type of H with
  | ?m ?s = (Ok _, ?s') =>
      assert (K : sameStore s s')
        by (eapply (keeps_run_True (sameStore s) m);
            [kgo prim_sameStore | apply sameStore_refl | exact H])
  end.

(** What the first part of the Component Mounter computes. *)
Lemma component_rendered iv vNode context s renderOutput context' instance s1 :
  (if hasFlag (flags vNode) (ComponentClass VNodeFlags)
   then
     match type vNode with
     | TClass new =>
         emit (EvCreateInstance iv) ;;
         match afterRender options with
         | HFunc cb => emit (EvAfterRender cb iv)
         | _ => ret tt
         end ;;
         ret (render (new (default EMPTY_OBJ (props vNode)) context)
                     (default EMPTY_OBJ (props vNode)) context,
              CX (new (default EMPTY_OBJ (props vNode)) context),
              Some (new (default EMPTY_OBJ (props vNode)) context))
     | _ => throw TypeError
     end
   else
     match type vNode with
     | TFunc fn => ret (fn (default EMPTY_OBJ (props vNode)) context, context, None)
     | _ => throw TypeError
     end) s = (Ok (renderOutput, context', instance), s1) ->
  renderOutputOf VNodeFlags vNode context = Some renderOutput
  /\ (if hasFlag (flags vNode) (ComponentClass VNodeFlags)
      then exists new, type vNode = TClass new
                       /\ instance = Some (new (default EMPTY_OBJ (props vNode)) context)
      else instance = None /\ context' = context).
Proof.
  unfold renderOutputOf. intros Hren.
  destruct (hasFlag (flags vNode) (ComponentClass VNodeFlags));
    destruct (type vNode) as [| |new|]; try discriminate.
  - binv Hren. apply ret_Ok_inv in Hren as [Heq _]. inversion Heq; subst. eauto.
  - apply ret_Ok_inv in Hren as [Heq _]. by inversion Heq.
Qed.

(** X7. A component whose render output is invalid (null, undefined, true or
    false) mounts to nothing: the Component Mounter returns null, creates no
    IV and no DOM node, inserts nothing and assigns no [d] field; all it does
    to the store is to flag its IV HasInvalidChildren. *)
Theorem component_with_invalid_render_output fuel iv vNode parentDOM nextNode context
    isSVG insertIntoDom renderOutput s r s' :
  renderOutputOf VNodeFlags vNode context = Some renderOutput ->
  isInvalid renderOutput = true ->
  mountComponent fuel iv vNode parentDOM nextNode context isSVG insertIntoDom s
  = (Ok r, s') ->
  r = DNull
  /\ ivs s' = alter (fun x => mkIV (iv_i x) (iv_k x) (iv_d x) (iv_c x)
                                    (HasInvalidChildren IVFlags) (iv_t x) (iv_b x))
                    iv (ivs s)
  /\ nextDom s' = nextDom s
  /\ domWrites s' = domWrites s
  /\ exists evs, trace s' = trace s ++ evs /\ created evs = [] /\ inserted evs = [].
Proof.
  intros Hro Hinv Hrun. destruct fuel as [|fuel]; [discriminate|]. simpl in Hrun.
  bstep Hrun as ([[ro context'] instance] & s1 & Hren & Hrun).
  cbv beta iota in Hrun. bstep Hrun as (dom & s2 & Hdom & Hrun).
  bstep Hrun as ([] & s3 & Hcb & Hrun). bstep Hrun as ([] & s4 & Hins & Hrun).
  apply ret_Ok_inv in Hrun as [-> ->].
  destruct (component_rendered _ _ _ _ _ _ _ _ Hren) as [Hro' _].
  rewrite Hro in Hro'. inversion Hro'; subst ro; clear Hro'.
  rewrite Hinv in Hdom. bstep Hdom as ([] & s1a & Hsf & Hdom).
  apply ret_Ok_inv in Hdom as [-> ->].
  rewrite andb_false_r in Hins. apply ret_Ok_inv in Hins as [_ ->].
  sameStore_of Hren as K1. sameStore_of Hcb as K3.
  neutral_of Hren as N1. neutral_of Hsf as N2. neutral_of Hcb as N3.
  inversion Hsf; subst s1a; clear Hsf.
  destruct K1 as (I1 & D1 & W1), K3 as (I3 & D3 & W3). simpl in *.
  split; [done|]. split; [by rewrite I3, I1|]. split; [by rewrite D3|].
  split; [by rewrite W3|].
  destruct N1 as (_ & e1 & T1 & C1 & J1), N2 as (_ & e2 & T2 & C2 & J2),
    N3 as (_ & e3 & T3 & C3 & J3). simpl in *.
  exists (e1 ++ e2 ++ e3). unfold created, inserted in *.
  rewrite !omap_app, C1, C2, C3, J1, J2, J3, T3, T2, T1, !app_assoc. done.
Qed.

(** *** The callbacks of a component *)

Lemma state_eq s ivs' nextDom' lifecycle' trace' domWrites' :
  ivs s = ivs' -> nextDom s = nextDom' -> lifecycle s = lifecycle' ->
  trace s = trace' -> domWrites s = domWrites' ->
  s = mkState ivs' nextDom' lifecycle' trace' domWrites'.
Proof. destruct s. simpl. by intros -> -> -> -> ->. Qed.

Ltac state_done :=
  unfold when, bind, emit, push, ret; simpl; rewrite ?app_nil_r;
  first [ reflexivity
        | f_equal; symmetry; apply state_eq; simpl; by rewrite ?app_nil_r
        | f_equal; apply state_eq; simpl; by rewrite ?app_nil_r ].

(** [mountClassComponentCallbacks] accepts a callback and a falsy [ref]. *)
Lemma mountClassComponentCallbacks_accepts vNode ref iv instance s :
  (truthyRef ref = false \/ exists cb, ref = RFunc cb) ->
  mountClassComponentCallbacks options production vNode ref iv instance s
  = (Ok tt,
     mkState (ivs s) (nextDom s)
             (lifecycle s ++ classDidMountEntry options vNode iv instance)
             (trace s ++ classRefCall iv ref) (domWrites s)).
Proof.
  intros Href. unfold mountClassComponentCallbacks, classDidMountEntry, classRefCall.
  destruct Href as [Hfalsy|[cb ->]].
  - rewrite Hfalsy.
    assert (match ref with RFunc cb => [EvRefInstance cb iv] | _ => [] end = [])
      as -> by (by destruct ref).
    destruct (bool_decide _ || _); state_done.
  - simpl. destruct (bool_decide _ || _); state_done.
Qed.

(** ... and rejects any other one. *)
Lemma mountClassComponentCallbacks_rejects vNode ref iv instance s :
  truthyRef ref = true -> (forall cb, ref <> RFunc cb) ->
  mountClassComponentCallbacks options production vNode ref iv instance s
  = (Throw (classRefError production ref), s).
Proof.
  intros Htruthy Hnf. unfold mountClassComponentCallbacks, classRefError.
  rewrite Htruthy. destruct ref as [| | | | |cb|]; try discriminate;
    try (by destruct (Hnf cb)); by destruct production.
Qed.

Lemma mountFunctionalComponentCallbacks_run iv props ref dom s :
  mountFunctionalComponentCallbacks iv props ref dom s
  = (Ok tt,
     mkState (ivs s) (nextDom s) (lifecycle s ++ funcDidMountEntry iv props ref dom)
             (trace s ++ willMountCall props ref) (domWrites s)).
Proof.
  unfold mountFunctionalComponentCallbacks, funcDidMountEntry, willMountCall.
  destruct (truthyRef ref); simpl.
  - destruct (onComponentWillMount ref), (onComponentDidMount ref); state_done.
  - state_done.
Qed.

(** The end of the Component Mounter. *)
Lemma component_insertion_run iv insertIntoDom parentDOM dom nextNode s s' :
  when (insertIntoDom && negb (isNullDom dom))
    (set_d MComponent iv iv dom ;; insertOrAppend parentDOM dom nextNode) s
  = (Ok tt, s') ->
  trace s' = trace s ++ rootInsertion insertIntoDom parentDOM dom nextNode
  /\ lifecycle s' = lifecycle s.
Proof.
  unfold rootInsertion. destruct insertIntoDom, dom as [| |n]; simpl;
    unfold when, bind, set_d, insertOrAppend, emit, throw, ret; simpl; intros H;
    inversion H; subst; simpl; by rewrite ?app_nil_r.
Qed.

(** How a successful mount of a class component runs: the instance is
    created and rendered, the render output is mounted, then the [ref] is
    called with the instance, the didMount closure is queued, and at last the
    root is inserted. *)
Lemma class_component_run fuel iv vNode parentDOM nextNode context isSVG insertIntoDom
    new s r s' :
  hasFlag (flags vNode) (ComponentClass VNodeFlags) = true ->
  type vNode = TClass new ->
  mountComponent fuel iv vNode parentDOM nextNode context isSVG insertIntoDom s
  = (Ok r, s') ->
  (truthyRef (ref vNode) = false \/ exists cb, ref vNode = RFunc cb)
  /\ exists evs q,
      trace s' = trace s ++ evs ++ classRefCall iv (ref vNode) ++ [EvSetUPD iv false]
                 ++ (if findDOMNodeEnabled options then [EvMapSet iv r] else [])
                 ++ rootInsertion insertIntoDom parentDOM r nextNode
      /\ lifecycle s' = lifecycle s ++ q
                        ++ classDidMountEntry options vNode iv
                             (new (default EMPTY_OBJ (props vNode)) context).
Proof.
  intros Hcl Hty Hrun. destruct fuel as [|fuel]; [discriminate|]. simpl in Hrun.
  bstep Hrun as ([[renderOutput context'] instance] & s1 & Hren & Hrun).
  cbv beta iota in Hrun. bstep Hrun as (dom & s2 & Hdom & Hrun).
  bstep Hrun as ([] & s3 & Hcb & Hrun). bstep Hrun as ([] & s4 & Hins & Hrun).
  apply ret_Ok_inv in Hrun as [-> ->].
  destruct (component_rendered _ _ _ _ _ _ _ _ Hren) as [_ Hinst].
  rewrite Hcl in Hinst. destruct Hinst as (new' & Hty' & ->).
  rewrite Hty in Hty'. inversion Hty'; subst new'; clear Hty'.
  later_of Hren as K1. later_of Hdom as K2.
  still_of Hren as Q1. apply still_lifecycle in Q1.
  ext_of Hdom iv. destruct (ext_lifecycle _ _ _ K) as [q Hq].
  destruct (component_insertion_run _ _ _ _ _ _ _ Hins) as [T4 Q4].
  bstep Hcb as ([] & s2a & Hcb & Hrest).
  assert (Href : truthyRef (ref vNode) = false \/ exists cb, ref vNode = RFunc cb).
  { destruct (truthyRef (ref vNode)) eqn:Htruthy; [|by left]. right.
    destruct (ref vNode) as [| | | | |cb|] eqn:Hr; try discriminate; eauto;
      rewrite mountClassComponentCallbacks_rejects in Hcb; try done; discriminate. }
  split; [done|].
  rewrite mountClassComponentCallbacks_accepts in Hcb by done.
  inversion Hcb; subst s2a; clear Hcb.
  destruct (later_trans _ _ _ K1 K2) as (_ & evs & T).
  exists evs, q. rewrite T4, Q4.
  destruct (findDOMNodeEnabled options); unfold when, bind, emit, ret in Hrest;
    inversion Hrest; subst s3; clear Hrest; simpl;
    rewrite T, Hq, Q1, <- ?app_assoc; done.
Qed.

(** X8. A class component's callback [ref] is called with the instance while
    the component is being mounted, not deferred: the call is the last thing
    the Component Mounter does before it clears the instance's [$UPD] flag,
    registers the root with [findDOMNode] when that is enabled, and inserts
    the component's root into the parent. *)
Theorem class_component_ref_is_called_during_mount fuel iv vNode parentDOM nextNode
    context isSVG insertIntoDom new cb s r s' :
  hasFlag (flags vNode) (ComponentClass VNodeFlags) = true ->
  type vNode = TClass new ->
  ref vNode = RFunc cb ->
  mountComponent fuel iv vNode parentDOM nextNode context isSVG insertIntoDom s
  = (Ok r, s') ->
  exists evs,
    trace s' = trace s ++ evs ++ [EvRefInstance cb iv; EvSetUPD iv false]
               ++ (if findDOMNodeEnabled options then [EvMapSet iv r] else [])
               ++ rootInsertion insertIntoDom parentDOM r nextNode.
Proof.
  intros Hcl Hty Href Hrun.
  destruct (class_component_run _ _ _ _ _ _ _ _ _ _ _ _ Hcl Hty Hrun)
    as (_ & evs & q & T & _).
  exists evs. by rewrite T, Href.
Qed.

(** X9. What a class component's mount adds to the lifecycle queue: first
    the entries of its render output, every one of them owned by an IV that
    was allocated during the mount, none by the component's own IV; then one
    closure of its own, owned by its IV, exactly when the instance has a
    [componentDidMount] method or the [afterMount] option is not null (an
    undefined option counts), and nothing at all otherwise. The component's
    IV is an allocated one. *)
Theorem class_component_queues_its_didMount fuel iv vNode parentDOM nextNode context
    isSVG insertIntoDom new s r s' :
  hasFlag (flags vNode) (ComponentClass VNodeFlags) = true ->
  type vNode = TClass new ->
  iv < length (ivs s) ->
  mountComponent fuel iv vNode parentDOM nextNode context isSVG insertIntoDom s
  = (Ok r, s') ->
  exists q,
    lifecycle s' = lifecycle s ++ q
      ++ (if bool_decide (is_Some (componentDidMount
                                     (new (default EMPTY_OBJ (props vNode)) context)))
             || negb (isNullHook (afterMount options))
          then [mkEntry iv (LClassDidMount iv (afterMount options) vNode
                              (componentDidMount
                                 (new (default EMPTY_OBJ (props vNode)) context)))]
          else [])
    /\ Forall (fun e => length (ivs s) <= owner e /\ owner e <> iv) q.
Proof.
  intros Hcl Hty Hlt Hrun. destruct fuel as [|fuel]; [discriminate|]. simpl in Hrun.
  bstep Hrun as ([[renderOutput context'] instance] & s1 & Hren & Hrun).
  cbv beta iota in Hrun. bstep Hrun as (dom & s2 & Hdom & Hrun).
  bstep Hrun as ([] & s3 & Hcb & Hrun). bstep Hrun as ([] & s4 & Hins & Hrun).
  apply ret_Ok_inv in Hrun as [-> ->].
  destruct (component_rendered _ _ _ _ _ _ _ _ Hren) as [_ Hinst].
  rewrite Hcl in Hinst. destruct Hinst as (new' & Hty' & ->).
  rewrite Hty in Hty'. inversion Hty'; subst new'; clear Hty'.
  still_of Hren as K1. pose proof (still_lifecycle _ _ K1) as Q1.
  destruct K1 as (L1 & _).
  destruct (component_insertion_run _ _ _ _ _ _ _ Hins) as [_ Q4].
  bstep Hcb as ([] & s2a & Hcb & Hrest).
  assert (Href : truthyRef (ref vNode) = false \/ exists cb, ref vNode = RFunc cb).
  { destruct (truthyRef (ref vNode)) eqn:Htruthy; [|by left]. right.
    destruct (ref vNode) as [| | | | |cb|] eqn:Hr; try discriminate; eauto;
      rewrite mountClassComponentCallbacks_rejects in Hcb; try done; discriminate. }
  rewrite mountClassComponentCallbacks_accepts in Hcb by done.
  inversion Hcb; subst s2a; clear Hcb.
  assert (Hq : exists q, lifecycle s2 = lifecycle s1 ++ q
                         /\ Forall (fun e => length (ivs s1) <= owner e) q).
  { destruct (isInvalid renderOutput).
    - still_of Hdom as K'. exists []. rewrite app_nil_r.
      split; [by apply still_lifecycle|constructor].
    - bstep Hdom as ([] & sa & Hsf & Hdom). bstep Hdom as (c1 & sb & Hc1 & Hdom).
      bstep Hdom as ([] & sc & Hset & Hdom). bstep Hdom as ([] & sd & Hsb & Hdom).
      bstep Hdom as (d & se & Hm & Hdom).
      still_of Hdom as K5. still_of Hsf as K2. still_of Hsb as K3.
      pose proof (still_lifecycle _ _ K5) as Q5.
      pose proof (still_lifecycle _ _ K2) as Q2. destruct K2 as (L2 & _).
      assert (Hlta : iv < length (ivs sa)) by lia.
      destruct (alloc_single _ _ _ _ _ _ _ Hlta Hc1 Hset) as [-> Hal].
      destruct (alloc_still _ _ _ _ Hal K3) as (Ld & Qd & _ & F & _).
      destruct (mounters_ordered fuel) as (IHm & _).
      destruct (IHm _ _ _ _ _ _ _ _ _ _ Hm F) as (q & Q & PO).
      exists q. split; [congruence|].
      eapply Forall_impl; [exact (po_owners _ _ _ PO)|].
      intros e [He|He]; unfold range in *; simpl in *; lia. }
  destruct Hq as (q & Q2 & Hown). exists q. split.
  - rewrite Q4. unfold classDidMountEntry.
    destruct (findDOMNodeEnabled options); unfold when, bind, emit, ret in Hrest;
      inversion Hrest; subst s3; clear Hrest; simpl;
      rewrite Q2, Q1, <- ?app_assoc; done.
  - eapply Forall_impl; [exact Hown|]. intros e He; simpl in *. lia.
Qed.

(** X10. A class component whose [ref] is truthy but not a function (a
    non-empty string, a non-zero number, [true], an object) never mounts:
    [mountClassComponentCallbacks] throws, with an error that tells the kind
    of the value in a development build, and the Component Mounter never
    returns. *)
Theorem class_component_rejects_non_callback_ref fuel iv vNode parentDOM nextNode
    context isSVG insertIntoDom instance s :
  hasFlag (flags vNode) (ComponentClass VNodeFlags) = true ->
  truthyRef (ref vNode) = true ->
  (forall cb, ref vNode <> RFunc cb) ->
  mountClassComponentCallbacks options production vNode (ref vNode) iv instance s
  = (Throw (if production then GenericError
            else match ref vNode with
                 | RStr _ | RNum _ => StringRefError
                 | RObj _ _ => ClassLifecycleRefError
                 | _ => BadRefError
                 end), s)
  /\ forall r s',
      mountComponent fuel iv vNode parentDOM nextNode context isSVG insertIntoDom s
      <> (Ok r, s').
Proof.
  intros Hcl Htruthy Hnf. split; [by apply mountClassComponentCallbacks_rejects|].
  intros r s' Hrun. destruct fuel as [|fuel]; [discriminate|]. simpl in Hrun.
  bstep Hrun as ([[renderOutput context'] inst] & s1 & Hren & Hrun).
  cbv beta iota in Hrun. bstep Hrun as (dom & s2 & Hdom & Hrun).
  bstep Hrun as ([] & s3 & Hcb & Hrun).
  destruct (component_rendered _ _ _ _ _ _ _ _ Hren) as [_ Hinst].
  rewrite Hcl in Hinst. destruct Hinst as (new & Hty & ->).
  bstep Hcb as ([] & s2a & Hcb & Hrest).
  rewrite mountClassComponentCallbacks_rejects in Hcb by done. discriminate.
Qed.

(** X11. A functional component's hooks: [onComponentWillMount] is called
    with the props while the component is being mounted, as the last call
    before the root is inserted; and [onComponentDidMount] is queued, as the
    last entry the mount adds to the lifecycle queue, to be called with the
    root node and the props. A [ref] that is falsy or carries no such hook
    adds nothing, and [mountFunctionalComponentCallbacks] never throws,
    whatever the [ref] is. *)
Theorem functional_component_hooks fuel iv vNode parentDOM nextNode context isSVG
    insertIntoDom s r s' :
  hasFlag (flags vNode) (ComponentClass VNodeFlags) = false ->
  mountComponent fuel iv vNode parentDOM nextNode context isSVG insertIntoDom s
  = (Ok r, s') ->
  (forall props dom s0,
      exists s1, mountFunctionalComponentCallbacks iv props (ref vNode) dom s0
                 = (Ok tt, s1))
  /\ exists evs q,
    trace s' = trace s ++ evs
               ++ (if truthyRef (ref vNode)
                   then match onComponentWillMount (ref vNode) with
                        | Some cb =>
                            [EvOnComponentWillMount cb (default EMPTY_OBJ (props vNode))]
                        | None => []
                        end
                   else [])
               ++ rootInsertion insertIntoDom parentDOM r nextNode
    /\ lifecycle s' = lifecycle s ++ q
                      ++ (if truthyRef (ref vNode)
                          then match onComponentDidMount (ref vNode) with
                               | Some cb =>
                                   [mkEntry iv (LFuncDidMount cb r
                                                  (default EMPTY_OBJ (props vNode)))]
                               | None => []
                               end
                          else []).
Proof.
  intros Hcl Hrun. split.
  { intros props dom s0. rewrite mountFunctionalComponentCallbacks_run. eauto. }
  destruct fuel as [|fuel]; [discriminate|]. simpl in Hrun.
  bstep Hrun as ([[renderOutput context'] instance] & s1 & Hren & Hrun).
  cbv beta iota in Hrun. bstep Hrun as (dom & s2 & Hdom & Hrun).
  bstep Hrun as ([] & s3 & Hcb & Hrun). bstep Hrun as ([] & s4 & Hins & Hrun).
  apply ret_Ok_inv in Hrun as [-> ->].
  destruct (component_rendered _ _ _ _ _ _ _ _ Hren) as [_ Hinst].
  rewrite Hcl in Hinst. destruct Hinst as [-> ->].
  later_of Hren as K1. later_of Hdom as K2.
  still_of Hren as Q1. apply still_lifecycle in Q1.
  ext_of Hdom iv. destruct (ext_lifecycle _ _ _ K) as [q Hq].
  destruct (component_insertion_run _ _ _ _ _ _ _ Hins) as [T4 Q4].
  rewrite mountFunctionalComponentCallbacks_run in Hcb.
  inversion Hcb; subst s3; clear Hcb.
  destruct (later_trans _ _ _ K1 K2) as (_ & evs & T).
  exists evs, q. rewrite T4, Q4. simpl.
  unfold willMountCall, funcDidMountEntry.
  by rewrite T, Hq, Q1, <- ?app_assoc.
Qed.

(** ** Elements *)

Lemma patchProps_run props dom isSVG hasControlledValue s :
  patchProps props dom isSVG hasControlledValue s
  = (Ok tt,
     mkState (ivs s) (nextDom s) (lifecycle s)
             (trace s ++ propCalls props dom isSVG hasControlledValue) (domWrites s)).
Proof.
  revert s. induction props as [|[prop v] rest IH]; intros s.
  - unfold patchProps, propCalls. state_done.
  - unfold patchProps; fold patchProps. unfold bind at 1. simpl. rewrite IH. simpl.
    unfold propCalls. simpl. by rewrite <- app_assoc.
Qed.

Lemma element_props_run vNode iv dom isSVG s s' :
  match props vNode with
  | Some props =>
      patchProps props dom isSVG
        (if hasFlag (flags vNode) (FormElement VNodeFlags)
         then isControlledFormElement props else false) ;;
      when (hasFlag (flags vNode) (FormElement VNodeFlags))
        (emit (EvProcessElement (flags vNode) iv dom
                 (if hasFlag (flags vNode) (FormElement VNodeFlags)
                  then isControlledFormElement props else false)))
  | None => ret tt
  end s = (Ok tt, s') ->
  trace s' = trace s
             ++ elementPropCalls VNodeFlags isControlledFormElement vNode iv dom isSVG
  /\ sameStore s s'.
Proof.
  unfold elementPropCalls. intros H. destruct (props vNode) as [props|].
  - unfold bind in H. rewrite patchProps_run in H.
    destruct (hasFlag (flags vNode) (FormElement VNodeFlags));
      unfold when, emit, ret in H; inversion H; subst s'; simpl;
      rewrite <- ?app_assoc, ?app_nil_r; by split.
  - apply ret_Ok_inv in H as [_ ->]. by rewrite app_nil_r.
Qed.

Lemma element_class_run vNode dom (isSVG : bool) s s' :
  match className vNode with
  | Some className =>
      if isSVG then emit (EvSetAttributeClass dom className)
      else emit (EvSetClassName dom className)
  | None => ret tt
  end s = (Ok tt, s') ->
  trace s' = trace s ++ classCall vNode dom isSVG /\ sameStore s s'.
Proof.
  unfold classCall. intros H. destruct (className vNode) as [c|].
  - destruct isSVG; inversion H; subst s'; by split.
  - apply ret_Ok_inv in H as [_ ->]. by rewrite app_nil_r.
Qed.

Lemma element_ref_run iv dom ref s s' :
  when (negb (isNullRef ref)) (mountRef production iv dom ref) s = (Ok tt, s') ->
  trace s' = trace s /\ sameStore s s'
  /\ (isInvalidRef ref = true \/ exists cb, ref = RFunc cb).
Proof.
  intros H. sameStore_of H as K. split; [|split; [done|]].
  - destruct ref; unfold when, mountRef, bind, push, ret, throw in H; simpl in H;
      try (by inversion H); by destruct production.
  - destruct ref; simpl; eauto;
      unfold when, mountRef, bind, push, ret, throw in H; simpl in H;
      by destruct production.
Qed.

Lemma element_insertion_run iv insertIntoDom parentDOM dom nextNode s s' :
  when insertIntoDom
    (set_d MElement iv iv (DNode dom) ;; insertOrAppend parentDOM (DNode dom) nextNode) s
  = (Ok tt, s') ->
  trace s' = trace s ++ rootInsertion insertIntoDom parentDOM (DNode dom) nextNode
  /\ nextDom s' = nextDom s /\ length (ivs s') = length (ivs s).
Proof.
  unfold rootInsertion. destruct insertIntoDom;
    unfold when, bind, set_d, insertOrAppend, emit, ret; simpl; intros H;
    inversion H; subst; simpl; rewrite ?app_nil_r, ?length_alter; done.
Qed.

(** X12. The order of the DOM calls of the Element Mounter. The element is
    created first, in the SVG namespace when the context or its own flag says
    so; then come the calls of its children; then one [patchProp] per prop,
    in enumeration order, followed by [processElement] for a form element;
    then the class; the insertion into the parent is last. Invalid children
    make no call, a text is set as text content with one call; in both cases
    the element is the only DOM node created and no IV is allocated. *)
Theorem element_mount_order fuel iv vNode parentDOM nextNode context isSVG insertIntoDom
    s r s' :
  mountElement fuel iv vNode parentDOM nextNode context isSVG insertIntoDom s
  = (Ok r, s') ->
  let svg := isSVG || hasFlag (flags vNode) (SvgElement VNodeFlags) in
  let dom := nextDom s in
  r = DNode dom
  /\ exists tag childCalls,
      type vNode = TTag tag
      /\ trace s' = trace s ++ [EvCreateElement dom tag svg] ++ childCalls
                    ++ elementPropCalls VNodeFlags isControlledFormElement vNode iv dom svg
                    ++ classCall vNode dom svg
                    ++ rootInsertion insertIntoDom parentDOM r nextNode
      /\ (isInvalid (children vNode) = true ->
          childCalls = []
          /\ nextDom s' = S dom /\ length (ivs s') = length (ivs s))
      /\ (forall text,
            asText (children vNode) = Some text ->
            childCalls = [EvSetTextContent dom text]
            /\ nextDom s' = S dom /\ length (ivs s') = length (ivs s)).
Proof.
  intros Hrun svg dom. destruct fuel as [|fuel]; [discriminate|]. simpl in Hrun.
  destruct (type vNode) as [tag| | |] eqn:Hty; try discriminate.
  bstep Hrun as (d & s1 & Hdom & Hrun). bstep Hrun as ([] & s2 & Hch & Hrun).
  bstep Hrun as ([] & s3 & Hprops & Hrun). bstep Hrun as ([] & s4 & Hclass & Hrun).
  bstep Hrun as ([] & s5 & Href & Hrun). bstep Hrun as ([] & s6 & Hins & Hrun).
  apply ret_Ok_inv in Hrun as [-> ->].
  rewrite documentCreateElement_run in Hdom. inversion Hdom; subst d s1; clear Hdom.
  fold svg dom in Hch, Hprops, Hclass, Href, Hins |- *.
  later_of Hch as K2. destruct K2 as (_ & childCalls & T2). simpl in T2.
  destruct (element_props_run _ _ _ _ _ _ Hprops) as (T3 & I3 & D3 & _).
  destruct (element_class_run _ _ _ _ _ Hclass) as (T4 & I4 & D4 & _).
  destruct (element_ref_run _ _ _ _ _ Href) as (T5 & (I5 & D5 & _) & _).
  destruct (element_insertion_run _ _ _ _ _ _ _ Hins) as (T6 & D6 & L6).
  split; [done|]. exists tag, childCalls. split; [done|]. split.
  { rewrite T6, T5, T4, T3, T2, <- !app_assoc. done. }
  assert (Hsame : nextDom s6 = nextDom s2 /\ length (ivs s6) = length (ivs s2)).
  { rewrite D6, L6, D5, I5, D4, I4, D3, I3. done. }
  destruct Hsame as [-> ->]. split.
  - intros Hinv. rewrite Hinv in Hch. inversion Hch; subst s2; clear Hch.
    simpl in *. rewrite length_alter. split; [|done].
    rewrite <- (app_nil_r (trace s ++ _)) in T2 at 1. by apply app_inv_head in T2.
  - intros text Htext.
    assert (isInvalid (children vNode) = false) as Hinv
        by (destruct (children vNode); simpl in *; congruence).
    rewrite Hinv, Htext in Hch. unfold bind, emit in Hch.
    inversion Hch; subst s2; clear Hch. simpl in *. rewrite length_alter.
    split; [|done]. by apply app_inv_head in T2.
Qed.

(** X13. An element hands the SVG namespace down to its children, except
    through a [foreignObject]: the element child of an element is created in
    the SVG namespace when its parent was and the parent is not a
    [foreignObject], or when the child carries the SvgElement bit itself. *)
Theorem element_child_namespace fuel iv vNode parentDOM nextNode context isSVG
    insertIntoDom child s r s' :
  asVNode (children vNode) = Some child ->
  hasFlag (flags child) (Element VNodeFlags) = true ->
  mountElement fuel iv vNode parentDOM nextNode context isSVG insertIntoDom s
  = (Ok r, s') ->
  exists tag childTag evs,
    type vNode = TTag tag /\ type child = TTag childTag
    /\ trace s'
       = trace s
         ++ EvCreateElement (nextDom s) tag
                            (isSVG || hasFlag (flags vNode) (SvgElement VNodeFlags))
         :: EvCreateElement (S (nextDom s)) childTag
              ((isSVG || hasFlag (flags vNode) (SvgElement VNodeFlags))
               && negb (String.eqb tag "foreignObject")
               || hasFlag (flags child) (SvgElement VNodeFlags))
         :: evs.
Proof.
  intros Hchild He Hrun. destruct fuel as [|fuel]; [discriminate|]. simpl in Hrun.
  destruct (type vNode) as [tag| | |] eqn:Hty; try discriminate.
  bstep Hrun as (d & s1 & Hdom & Hrun).
  rewrite documentCreateElement_run in Hdom. inversion Hdom; subst d s1; clear Hdom.
  assert (isInvalid (children vNode) = false) as Hinv
      by (destruct (children vNode); simpl in *; congruence).
  assert (asText (children vNode) = None) as Htext
      by (destruct (children vNode); simpl in *; congruence).
  rewrite Hinv, Htext, Hchild in Hrun.
  bstep Hrun as ([] & s2 & Hch & Hrun). later_of Hrun as K. destruct K as (_ & evs2 & T2).
  bstep Hch as (c1 & s1a & Hc1 & Hch). bstep Hch as ([] & s1b & Hset & Hch).
  bstep Hch as ([] & s1c & Hsf & Hch). bstep Hch as (dc & s1d & Hv & Hch).
  apply ret_Ok_inv in Hch as [_ ->].
  rewrite createIV_run in Hc1. inversion Hc1; subst c1 s1a; clear Hc1.
  inversion Hset; subst s1b; clear Hset. inversion Hsf; subst s1c; clear Hsf.
  destruct fuel as [|fuel]; [discriminate|]. simpl in Hv. rewrite He in Hv.
  destruct fuel as [|fuel]; [discriminate|]. simpl in Hv.
  destruct (type child) as [childTag| | |] eqn:Hcty; try discriminate.
  bstep Hv as (d' & s1e & Hdom & Hv).
  rewrite documentCreateElement_run in Hdom. inversion Hdom; subst d' s1e; clear Hdom.
  later_of Hv as K. destruct K as (_ & evs1 & T1). simpl in T1.
  exists tag, childTag, (evs1 ++ evs2). split; [done|]. split; [done|].
  rewrite T2, T1, <- !app_assoc. done.
Qed.

(** X14. An element whose [ref] is a string, a number or an object never
    mounts: [mountRef] throws (the string-ref error in a development build, a
    bare error in a production build), so the Element Mounter never
    returns. *)
Theorem element_rejects_non_callback_ref fuel iv vNode parentDOM nextNode context isSVG
    insertIntoDom dom s :
  isInvalidRef (ref vNode) = false ->
  (forall cb, ref vNode <> RFunc cb) ->
  mountRef production iv dom (ref vNode) s
  = (Throw (if production then GenericError else StringRefError), s)
  /\ forall r s',
      mountElement fuel iv vNode parentDOM nextNode context isSVG insertIntoDom s
      <> (Ok r, s').
Proof.
  intros Hinv Hnf. split.
  - unfold mountRef. destruct (ref vNode) as [| | | | |cb|]; try discriminate;
      try (by destruct (Hnf cb)); simpl; by destruct production.
  - intros r s' Hrun. destruct fuel as [|fuel]; [discriminate|]. simpl in Hrun.
    destruct (type vNode) as [tag| | |] eqn:Hty; try discriminate.
    bstep Hrun as (d & s1 & Hdom & Hrun). bstep Hrun as ([] & s2 & Hch & Hrun).
    bstep Hrun as ([] & s3 & Hprops & Hrun). bstep Hrun as ([] & s4 & Hclass & Hrun).
    bstep Hrun as ([] & s5 & Href & Hrun).
    destruct (element_ref_run _ _ _ _ _ Href) as (_ & _ & [Hbad|[cb Hcb]]).
    + congruence.
    + by destruct (Hnf cb).
Qed.

(** ** One anchor for all *)

Lemma anchored_refl p a s : p < nextDom s -> anchored p a s s.
Proof. intros Hp. split; [done|]. exists []. by rewrite app_nil_r. Qed.

Lemma keeps_anchored_same {A} p a s0 (m : M A) :
  (forall s, nextDom (m s).2 = nextDom s /\ trace (m s).2 = trace s) ->
  keeps (anchored p a s0) m (fun _ => True).
Proof.
  intros Hm s x s' (Hp & evs & T & F) Hrun. split; [|done].
  destruct (Hm s) as [Hd Ht]. rewrite Hrun in Hd, Ht. simpl in *.
  split; [lia|]. exists evs. split; [congruence|done].
Qed.

Lemma keeps_anchored_get_iv p a s0 r : keeps (anchored p a s0) (get_iv r) (fun _ => True).
Proof.
  apply keeps_anchored_same. intros s. unfold get_iv. by destruct (ivs s !! r).
Qed.

Lemma keeps_anchored_emit p a s0 ev :
  anchoredAt p a ev = true -> keeps (anchored p a s0) (emit ev) (fun _ => True).
Proof.
  intros Hev. apply keeps_step. intros s (Hp & evs & T & F). split; [|done].
  split; [done|]. exists (evs ++ [ev]). unfold emit. simpl.
  split; [by rewrite T, app_assoc|]. apply Forall_app. split; [done|by constructor].
Qed.

Lemma keeps_anchored_freshDom p a s0 : keeps (anchored p a s0) freshDom (fun n => p < n).
Proof.
  apply keeps_step. intros s (Hp & evs & T & F). unfold freshDom. simpl.
  split; [|done]. split; [simpl; lia|]. by exists evs.
Qed.

Lemma keeps_anchored_documentCreateElement p a s0 tag isSVG :
  keeps (anchored p a s0) (documentCreateElement tag isSVG) (fun n => p < n).
Proof.
  unfold documentCreateElement. eapply keeps_bind; [apply keeps_anchored_freshDom|].
  intros n Hn. eapply keeps_seq; [by apply keeps_anchored_emit|by apply keeps_ret].
Qed.

Lemma anchoredAt_insert p a q n a' :
  q <> p \/ a' = a -> anchoredAt p a (EvInsert q n a') = true.
Proof.
  intros [Hne| ->]; simpl.
  - apply Nat.eqb_neq in Hne. by rewrite Hne.
  - rewrite bool_decide_eq_true_2 by done. by rewrite orb_true_r.
Qed.

Ltac prim_anchored _ :=
  lazymatch goal with
  | |- keeps _ (emit (EvInsert _ _ _)) _ =>
      apply keeps_anchored_emit; apply anchoredAt_insert;
      first [ assumption | left; cbv beta in *; lia ]
  | |- keeps _ (emit _) _ => apply keeps_anchored_emit; reflexivity
  | |- keeps _ (push _ _) _ => apply keeps_anchored_same; intros; split; reflexivity
  | |- keeps _ freshDom _ => apply keeps_anchored_freshDom
  | |- keeps _ (documentCreateElement _ _) _ =>
      apply keeps_anchored_documentCreateElement
  | |- keeps _ (get_iv _) _ => apply keeps_anchored_get_iv
  | |- keeps _ (createIV _ _) _ => apply keeps_anchored_same; intros; split; reflexivity
  | |- keeps _ (set_c _ _) _ => apply keeps_anchored_same; intros; split; reflexivity
  | |- keeps _ (set_f _ _) _ => apply keeps_anchored_same; intros; split; reflexivity
  | |- keeps _ (set_t _ _) _ => apply keeps_anchored_same; intros; split; reflexivity
  | |- keeps _ (set_b _ _) _ => apply keeps_anchored_same; intros; split; reflexivity
  | |- keeps _ (set_d _ _ _ _) _ => apply keeps_anchored_same; intros; split; reflexivity
  | |- _ => idtac
  end.

Lemma keeps_anchored_loop p a s0 mountChild iv forceKeyed l i firstValid :
  Forall (avoids p) l ->
  (forall c child, avoids p child ->
     keeps (anchored p a s0) (mountChild c child) (fun _ => True)) ->
  keeps (anchored p a s0)
        (mountArrayLoop IVFlags mountChild iv forceKeyed l i firstValid)
        (fun _ => True).
Proof.
  intros Hl Hchild. revert i firstValid.
  induction Hl as [|child rest Hc _ IH]; intros i firstValid;
    unfold mountArrayLoop; fold mountArrayLoop; [by apply keeps_ret|].
  destruct (negb (isInvalid child)); [|apply IH].
  specialize (IH (S i) false). kgo prim_anchored. by apply Hchild.
Qed.

(** While an input that avoids [p] is mounted, either under another parent
    or under [p] with the anchor [a], whatever is inserted into [p] is
    inserted before [a]. *)
Lemma mounters_anchored p a fuel :
  (forall iv input parentDOM nextNode context isSVG insertIntoDOM s0,
      avoids p input -> parentDOM <> p \/ nextNode = a ->
      keeps (anchored p a s0)
            (mount fuel iv input parentDOM nextNode context isSVG insertIntoDOM)
            (fun _ => True))
  /\ (forall iv input parentDOM nextNode context isSVG insertIntoDOM s0,
      avoids p (VObj input) -> parentDOM <> p \/ nextNode = a ->
      keeps (anchored p a s0)
            (mountVNode fuel iv input parentDOM nextNode context isSVG insertIntoDOM)
            (fun _ => True))
  /\ (forall iv vNode parentDOM nextNode context isSVG insertIntoDom s0,
      avoids p (VObj vNode) -> parentDOM <> p \/ nextNode = a ->
      keeps (anchored p a s0)
            (mountPortal fuel iv vNode parentDOM nextNode context isSVG insertIntoDom)
            (fun _ => True))
  /\ (forall iv vNode parentDOM nextNode context isSVG insertIntoDom s0,
      avoids p (VObj vNode) -> parentDOM <> p \/ nextNode = a ->
      keeps (anchored p a s0)
            (mountElement fuel iv vNode parentDOM nextNode context isSVG insertIntoDom)
            (fun _ => True))
  /\ (forall iv children parentDOM nextNode context isSVG forceKeyed isVirtual s0,
      avoids p children -> parentDOM <> p \/ nextNode = a ->
      keeps (anchored p a s0)
            (mountArrayChildren fuel iv children parentDOM nextNode context isSVG
                                forceKeyed isVirtual)
            (fun _ => True))
  /\ (forall iv vNode parentDOM nextNode context isSVG insertIntoDom s0,
      avoids p (VObj vNode) -> parentDOM <> p \/ nextNode = a ->
      keeps (anchored p a s0)
            (mountComponent fuel iv vNode parentDOM nextNode context isSVG insertIntoDom)
            (fun _ => True)).
Proof.
  induction fuel as [|fuel (IHm & IHv & IHp & IHe & IHa & IHc)].
  { split; [|split; [|split; [|split; [|split]]]];
      intros iv x parentDOM nextNode context isSVG;
      repeat lazymatch goal with |- forall _ : bool, _ => intros ? end;
      intros s0 Hav Hparent; apply keeps_outOfFuel. }
  split; [|split; [|split; [|split; [|split]]]];
    intros iv x parentDOM nextNode context isSVG;
    repeat lazymatch goal with |- forall _ : bool, _ => intros ? end;
    intros s0 Hav Hparent; simpl.
  - kgo prim_anchored.
    + eapply IHv; [by eapply avoids_asVNode|done].
    + by eapply IHa.
  - kgo prim_anchored; [by eapply IHe|by eapply IHc|by eapply IHp].
  - kgo prim_anchored.
    eapply IHm; [by apply avoids_children|left; by eapply avoids_container].
  - kgo prim_anchored.
    + eapply IHv; [eapply avoids_asVNode; [by apply avoids_children|done]
                  |left; cbv beta in *; lia].
    + eapply IHa; [by apply avoids_children|left; cbv beta in *; lia].
  - apply keeps_seq; [kgo prim_anchored|]. apply keeps_seq; [kgo prim_anchored|].
    eapply keeps_bind with (V1 := fun _ => True); [|intros ? ?; kgo prim_anchored].
    destruct (arrayLike x) as [l|] eqn:Hl; [|apply keeps_throw].
    apply keeps_anchored_loop; [by eapply avoids_arrayLike|].
    intros c child Hc. by eapply IHm.
  - eapply keeps_bind with (V1 := fun r => avoids p r.1.1).
    + kgo prim_anchored; simpl.
      * by eapply avoids_class.
      * by eapply avoids_function.
    + intros [[renderOutput context'] instance] Hro. simpl in Hro.
      kgo prim_anchored. by eapply IHm.
Qed.

(** X15. Everything a mount inserts into its parent is inserted before the
    anchor the mount was given: the entries of an array, the root of a
    component, a portal's placeholder all go before the same next sibling.
    The parent is a node that exists already, and no portal inside the input
    has it as its target. *)
Theorem mount_inserts_before_its_anchor fuel iv input parentDOM nextNode context isSVG
    insertIntoDOM s r s' :
  avoids parentDOM input ->
  parentDOM < nextDom s ->
  mount fuel iv input parentDOM nextNode context isSVG insertIntoDOM s = (Ok r, s') ->
  exists evs,
    trace s' = trace s ++ evs
    /\ forall q n a, EvInsert q n a ∈ evs -> q = parentDOM -> a = nextNode.
Proof.
  intros Hav Hp Hrun.
  destruct (proj1 (mounters_anchored parentDOM nextNode fuel) iv input parentDOM nextNode
              context isSVG insertIntoDOM s Hav (or_intror eq_refl) s r s'
              (anchored_refl _ _ _ Hp) Hrun) as ((_ & evs & T & F) & _).
  exists evs. split; [done|]. intros q n a Hin ->.
  rewrite Forall_forall in F. specialize (F _ Hin). simpl in F.
  rewrite Nat.eqb_refl in F. simpl in F. by apply bool_decide_eq_true in F.
Qed.

(** ** The shape of the IV tree *)

Lemma holds_sameStore iv phi s s' : sameStore s s' -> holds iv phi s -> holds iv phi s'.
Proof. intros (I & _) H. by eapply holds_same_ivs. Qed.

(** The child IV a mounter allocates and links to its own IV. *)
Lemma link_child iv input i s c s1 s2 :
  iv < length (ivs s) ->
  createIV input i s = (Ok c, s1) -> set_c iv (CSingle c) s1 = (Ok tt, s2) ->
  c = length (ivs s)
  /\ length (ivs s2) = S (length (ivs s))
  /\ holds iv (fun x => iv_c x = CSingle c) s2
  /\ holds c (fun y => iv_i y = input /\ iv_k y = i /\ iv_b y = None) s2
  /\ forall f, holds iv (fun x => iv_f x = f) s -> holds iv (fun x => iv_f x = f) s2.
Proof.
  intros Hlt Hc Hs. rewrite createIV_run in Hc. inversion Hc; subst c s1; clear Hc.
  inversion Hs; subst s2; clear Hs. unfold holds. simpl.
  rewrite length_alter, length_app. simpl.
  destruct (lookup_lt_is_Some_2 _ _ Hlt) as [x Hx].
  split; [done|]. split; [lia|]. split; [|split].
  - eexists. rewrite list_lookup_alter_eq, (lookup_app_l_Some _ _ _ _ Hx). simpl.
    split; reflexivity.
  - eexists. rewrite list_lookup_alter_ne by lia. rewrite lookup_app_r by lia.
    rewrite Nat.sub_diag. simpl. split; [reflexivity|]. by repeat split.
  - intros f (y & Hy & Hf). rewrite Hx in Hy. inversion Hy; subst y.
    eexists. rewrite list_lookup_alter_eq, (lookup_app_l_Some _ _ _ _ Hx). simpl.
    split; [reflexivity|]. done.
Qed.

(** X16. The IVs of a component that renders something: the component's IV
    is flagged HasBasicChildren and refers to one child IV, allocated for the
    render output with index 0; the child IV refers back to the component's
    IV and its [d] field holds what the component's mount returned, and so
    does the [d] field of the component's IV when the mount was asked to
    insert and returned something other than null. *)
Theorem component_iv_shape fuel iv vNode parentDOM nextNode context isSVG insertIntoDom
    renderOutput s r s' :
  renderOutputOf VNodeFlags vNode context = Some renderOutput ->
  isInvalid renderOutput = false ->
  iv < length (ivs s) ->
  mountComponent fuel iv vNode parentDOM nextNode context isSVG insertIntoDom s
  = (Ok r, s') ->
  holds iv (fun x => iv_c x = CSingle (length (ivs s))
                     /\ iv_f x = HasBasicChildren IVFlags) s'
  /\ holds (length (ivs s))
           (fun y => iv_i y = renderOutput /\ iv_k y = 0 /\ iv_b y = Some iv
                     /\ iv_d y = r) s'
  /\ (insertIntoDom = true -> r <> DNull -> holds iv (fun x => iv_d x = r) s').
Proof.
  intros Hro Hinv Hlt Hrun. destruct fuel as [|fuel]; [discriminate|]. simpl in Hrun.
  bstep Hrun as ([[ro context'] instance] & s1 & Hren & Hrun).
  cbv beta iota in Hrun. bstep Hrun as (dom & s2 & Hdom & Hrun).
  bstep Hrun as ([] & s3 & Hcb & Hrun). bstep Hrun as ([] & s4 & Hins & Hrun).
  apply ret_Ok_inv in Hrun as [-> ->].
  destruct (component_rendered _ _ _ _ _ _ _ _ Hren) as [Hro' _].
  rewrite Hro in Hro'. inversion Hro'; subst ro; clear Hro'.
  rewrite Hinv in Hdom. sameStore_of Hren as K1. sameStore_of Hcb as K3.
  destruct K1 as (I1 & _).
  bstep Hdom as ([] & sa & Hsf & Hdom). bstep Hdom as (c1 & sb & Hc1 & Hdom).
  bstep Hdom as ([] & sc & Hset & Hdom). bstep Hdom as ([] & sd & Hsb & Hdom).
  bstep Hdom as (d & se & Hm & Hdom). bstep Hdom as ([] & sf & Hsd & Hdom).
  apply ret_Ok_inv in Hdom as [-> ->].
  apply set_f_holds in Hsf as [Hf La]; [|by rewrite I1].
  destruct (link_child _ _ _ _ _ _ _ ltac:(rewrite La, I1; exact Hlt) Hc1 Hset)
    as (-> & Lc & Hc & Hchild & Hkeep).
  specialize (Hkeep _ Hf). rewrite La, I1 in *.
  pose proof (holds_and _ _ _ _ Hc Hkeep) as Hiv.
  assert (Hchild' : holds (length (ivs s))
                          (fun y => iv_i y = renderOutput /\ iv_k y = 0
                                    /\ iv_b y = Some iv) sd).
  { inversion Hsb; subst sd; clear Hsb. destruct Hchild as (y & Hy & Hi & Hk & _).
    unfold holds. simpl. eexists. rewrite list_lookup_alter_eq, Hy. simpl.
    split; [reflexivity|]. by repeat split. }
  holds_of Hiv Hsb.
  pose proof (mount_extends _ _ _ _ _ _ _ _ _ _ _ Hm) as He.
  assert (Hiv_e : holds iv (fun x => iv_c x = CSingle (length (ivs s))
                                     /\ iv_f x = HasBasicChildren IVFlags) se).
  { eapply holds_extends; [exact K|exact He|lia]. }
  assert (Hchild_e : holds (length (ivs s))
                           (fun y => iv_i y = renderOutput /\ iv_k y = 0
                                     /\ iv_b y = Some iv) se).
  { destruct Hchild' as (y & Hy & Hi & Hk & Hb).
    destruct (ext_self _ _ _ He y Hy) as (y' & Hy' & Hi' & Hk' & Hb').
    exists y'. split; [done|]. repeat split; congruence. }
  assert (Hchild_f : holds (length (ivs s))
                           (fun y => iv_i y = renderOutput /\ iv_k y = 0
                                     /\ iv_b y = Some iv /\ iv_d y = d) sf).
  { inversion Hsd; subst sf; clear Hsd. destruct Hchild_e as (y & Hy & Hi & Hk & Hb).
    unfold holds. simpl. eexists. rewrite list_lookup_alter_eq, Hy. simpl.
    split; [reflexivity|]. by repeat split. }
  holds_of Hiv_e Hsd.
  pose proof (holds_sameStore _ _ _ _ K3 K0) as Hiv3.
  pose proof (holds_sameStore _ _ _ _ K3 Hchild_f) as Hchild3.
  assert (Hlt3 : iv < length (ivs s3)) by (by eapply holds_lt).
  destruct (insertIntoDom && negb (isNullDom d)) eqn:Hcond.
  - change (when true ?m) with m in Hins.
    bstep Hins as ([] & s3a & Hsd' & Hins).
    assert (I4 : ivs s4 = ivs s3a).
    { destruct d; unfold insertOrAppend, emit, throw in Hins; inversion Hins;
        subst; reflexivity. }
    holds_of Hiv3 Hsd'.
    assert (K2 : holds (length (ivs s))
                       (fun y => iv_i y = renderOutput /\ iv_k y = 0
                                 /\ iv_b y = Some iv /\ iv_d y = d) s3a).
    { replace s3a with (set_d MComponent iv iv d s3).2 by (by rewrite Hsd').
      apply holds_set_d; [|exact Hchild3].
      intros [] (? & ? & ? & ?); simpl in *. by repeat split. }
    apply set_d_holds in Hsd' as [Hd _]; [|done].
    split; [by eapply holds_same_ivs; [|exact K1]|].
    split; [by eapply holds_same_ivs; [|exact K2]|].
    intros _ _. by eapply holds_same_ivs; [|exact Hd].
  - apply ret_Ok_inv in Hins as [_ ->]. split; [done|]. split; [done|].
    intros -> Hd. by destruct d.
Qed.

(** A mounter working on the child IV leaves the link alone. *)
Lemma linked_child_extends iv c input s s' :
  iv < c ->
  holds iv (fun x => iv_c x = CSingle c) s ->
  holds c (fun y => iv_i y = input /\ iv_k y = 0 /\ iv_b y = None) s ->
  extends c s s' ->
  holds iv (fun x => iv_c x = CSingle c) s'
  /\ holds c (fun y => iv_i y = input /\ iv_k y = 0 /\ iv_b y = None) s'.
Proof.
  intros Hlt Hiv (y & Hy & Hi & Hk & Hb) He. split.
  - eapply holds_extends; [exact Hiv|exact He|lia].
  - destruct (ext_self _ _ _ He y Hy) as (y' & Hy' & Hi' & Hk' & Hb').
    exists y'. split; [done|]. repeat split; congruence.
Qed.

(** X17. The IV of a mounted element tells the shape of its children:
    HasInvalidChildren for null, undefined and the booleans,
    HasTextChildren for a text, and for a single View Node
    HasBasicChildren together with one child IV, allocated for that View
    Node with index 0; an array of children leaves the IV a regular one, not
    a virtual array. *)
Theorem element_iv_shape fuel iv vNode parentDOM nextNode context isSVG insertIntoDom
    s r s' :
  iv < length (ivs s) ->
  mountElement fuel iv vNode parentDOM nextNode context isSVG insertIntoDom s
  = (Ok r, s') ->
  (isInvalid (children vNode) = true ->
   holds iv (fun x => iv_f x = HasInvalidChildren IVFlags) s'
   /\ length (ivs s') = length (ivs s))
  /\ (is_Some (asText (children vNode)) ->
      holds iv (fun x => iv_f x = HasTextChildren IVFlags) s'
      /\ length (ivs s') = length (ivs s))
  /\ (is_Some (asVNode (children vNode)) ->
      holds iv (fun x => iv_c x = CSingle (length (ivs s))
                         /\ iv_f x = HasBasicChildren IVFlags) s'
      /\ holds (length (ivs s))
               (fun y => iv_i y = children vNode /\ iv_k y = 0) s')
  /\ (isInvalid (children vNode) = false -> asText (children vNode) = None ->
      asVNode (children vNode) = None ->
      holds iv (fun x => iv_t x = Regular) s').
Proof.
  intros Hlt Hrun. destruct fuel as [|fuel]; [discriminate|]. simpl in Hrun.
  destruct (type vNode) as [tag| | |] eqn:Hty; try discriminate.
  bstep Hrun as (d & s1 & Hdom & Hrun). bstep Hrun as ([] & s2 & Hch & Hrun).
  rewrite documentCreateElement_run in Hdom.
  assert (I1 : ivs s1 = ivs s) by (by inversion Hdom). clear Hdom.
  assert (Hlt1 : iv < length (ivs s1)) by (by rewrite I1).
  assert (Hrest : forall phi,
             (forall x v, phi x ->
                phi (mkIV (iv_i x) (iv_k x) v (iv_c x) (iv_f x) (iv_t x) (iv_b x))) ->
             forall c, holds c phi s2 -> holds c phi s').
  { intros phi Hphi c Hc.
    bstep Hrun as ([] & s3 & Hprops & Hrun). bstep Hrun as ([] & s4 & Hclass & Hrun).
    bstep Hrun as ([] & s5 & Href & Hrun). bstep Hrun as ([] & s6 & Hins & Hrun).
    apply ret_Ok_inv in Hrun as [_ ->].
    destruct (element_props_run _ _ _ _ _ _ Hprops) as (_ & K3).
    destruct (element_class_run _ _ _ _ _ Hclass) as (_ & K4).
    destruct (element_ref_run _ _ _ _ _ Href) as (_ & K5 & _).
    pose proof (holds_sameStore _ _ _ _ K5
                  (holds_sameStore _ _ _ _ K4 (holds_sameStore _ _ _ _ K3 Hc))) as H5.
    destruct insertIntoDom; unfold when in Hins.
    - bstep Hins as ([] & s5a & Hsd & Hins). inversion Hins; subst s6; clear Hins.
      inversion Hsd; subst s5a; clear Hsd.
      eapply holds_same_ivs;
        [|apply (holds_set_d _ _ MElement iv iv (DNode d));
          [intros x; apply Hphi|exact H5]].
      reflexivity.
    - by apply ret_Ok_inv in Hins as [_ ->]. }
  assert (Hlen : length (ivs s') = length (ivs s2)).
  { bstep Hrun as ([] & s3 & Hprops & Hrun). bstep Hrun as ([] & s4 & Hclass & Hrun).
    bstep Hrun as ([] & s5 & Href & Hrun). bstep Hrun as ([] & s6 & Hins & Hrun).
    apply ret_Ok_inv in Hrun as [_ ->].
    destruct (element_props_run _ _ _ _ _ _ Hprops) as (_ & I3 & _).
    destruct (element_class_run _ _ _ _ _ Hclass) as (_ & I4 & _).
    destruct (element_ref_run _ _ _ _ _ Href) as (_ & (I5 & _) & _).
    destruct (element_insertion_run _ _ _ _ _ _ _ Hins) as (_ & _ & L6).
    by rewrite L6, I5, I4, I3. }
  clear Hrun. split; [|split; [|split]].
  - intros Hinv. rewrite Hinv in Hch. apply set_f_holds in Hch as [Hf L]; [|done].
    split; [|by rewrite Hlen, L, I1]. by apply Hrest.
  - intros [text Htext].
    assert (isInvalid (children vNode) = false) as Hinv
        by (destruct (children vNode); simpl in *; congruence).
    rewrite Hinv, Htext in Hch. bstep Hch as ([] & s1a & Hem & Hsf).
    inversion Hem; subst s1a; clear Hem.
    apply set_f_holds in Hsf as [Hf L]; [|done].
    split; [|by rewrite Hlen, L, I1]. by apply Hrest.
  - intros [ch Hchild].
    assert (isInvalid (children vNode) = false) as Hinv
        by (destruct (children vNode); simpl in *; congruence).
    assert (asText (children vNode) = None) as Htext
        by (destruct (children vNode); simpl in *; congruence).
    rewrite Hinv, Htext, Hchild in Hch.
    bstep Hch as (c1 & s1a & Hc1 & Hch). bstep Hch as ([] & s1b & Hset & Hch).
    bstep Hch as ([] & s1c & Hsf & Hch). bstep Hch as (dc & s1d & Hv & Hch).
    apply ret_Ok_inv in Hch as [_ ->].
    destruct (link_child iv _ _ _ _ _ _ Hlt1 Hc1 Hset) as (-> & Lc & Hc & Hkid & _).
    rewrite I1 in *. holds_of Hc Hsf. holds_of Hkid Hsf.
    apply set_f_holds in Hsf as [Hf _]; [|lia].
    pose proof (mountVNode_extends _ _ _ _ _ _ _ _ _ _ _ Hv) as He.
    destruct (linked_child_extends _ _ _ _ _ Hlt K K0 He) as [Hc' Hkid'].
    assert (Hf' : holds iv (fun x => iv_f x = HasBasicChildren IVFlags) s1d).
    { eapply holds_extends; [exact Hf|exact He|lia]. }
    split.
    + apply Hrest; [by intros [] v|]. by apply holds_and.
    + apply Hrest; [by intros [] v|].
      eapply holds_impl; [exact Hkid'|]. by intros y (? & ? & _).
  - intros Hinv Htext Hchild. rewrite Hinv, Htext, Hchild in Hch.
    pose proof (mountArrayChildren_extends _ _ _ _ _ _ _ _ _ _ _ _ Hch) as He.
    destruct (lookup_lt_is_Some_2 _ _ Hlt1) as [x0 Hx0].
    destruct (ext_self _ _ _ He x0 Hx0) as (x' & Hx' & _).
    destruct fuel as [|fuel]; [discriminate|]. simpl in Hch.
    bstep Hch as ([] & s1a & Hnull & Hch). bstep Hch as ([] & s1b & Hsf & Hch).
    bstep Hch as ([] & s1c & Hloop & Hch).
    apply Hrest; [by intros [] v|]. exists x'. split; [done|].
    inversion Hch as [Hs2]. rewrite <- Hs2 in Hx'. simpl in Hx'.
    rewrite list_lookup_alter_eq in Hx'.
    destruct (ivs s1c !! iv) as [x1|]; simpl in Hx'; [|done].
    by inversion Hx'.
Qed.

(** X18. The IV of a mounted portal refers to one child IV, allocated for
    the portal's content with index 0; the placeholder is mounted on the
    portal's own IV, which therefore ends up flagged HasTextChildren. *)
Theorem portal_iv_shape fuel iv vNode parentDOM nextNode context isSVG insertIntoDom
    s r s' :
  iv < length (ivs s) ->
  mountPortal fuel iv vNode parentDOM nextNode context isSVG insertIntoDom s
  = (Ok r, s') ->
  holds iv (fun x => iv_c x = CSingle (length (ivs s))
                     /\ iv_f x = HasTextChildren IVFlags) s'
  /\ holds (length (ivs s))
           (fun y => iv_i y = children vNode /\ iv_k y = 0) s'.
Proof.
  intros Hlt Hrun. destruct fuel as [|fuel]; [discriminate|]. simpl in Hrun.
  bstep Hrun as (c1 & s1 & Hc1 & Hrun). bstep Hrun as ([] & s2 & Hset & Hrun).
  bstep Hrun as (d & s3 & Hm & Hrun).
  destruct (type vNode) as [| | |container] eqn:Hty; try discriminate.
  destruct (link_child iv _ _ _ _ _ _ Hlt Hc1 Hset) as (-> & Lc & Hc & Hkid & _).
  pose proof (mount_extends _ _ _ _ _ _ _ _ _ _ _ Hm) as He.
  destruct (linked_child_extends _ _ _ _ _ Hlt Hc Hkid He) as [Hc' Hkid'].
  rewrite mountText_run in Hrun. inversion Hrun; subst r s'; clear Hrun.
  destruct Hc' as (x & Hx & Hcx), Hkid' as (y & Hy & Hky).
  unfold holds. simpl. split.
  - destruct insertIntoDom; eexists;
      rewrite ?list_lookup_alter_eq, Hx; simpl; (split; [reflexivity|]); by split.
  - exists y. split; [|by destruct Hky as (? & ? & _)].
    destruct insertIntoDom; rewrite ?list_lookup_alter_ne by lia; done.
Qed.

End MountProperties.

(** * The properties on concrete inputs *)

(** ** Array children *)

(** An array whose first valid entry is a keyed element, followed by a text. *)
Lemma array_flag_decided_by_first_valid_entry_witness :
  let keyed := element "span" VNull (KStr "x") RNull in
  let input := VArr ([VNull] ++ keyed :: [VStr "a"; VBool false]) in
  let s := rootState input in
  let s' := (mountArrayChildren sampleVNodeFlags sampleIVFlags sampleOptions false
               (fun _ => false) 5 0 input 1 None [] false false true s).2 in
  (Forall (fun x => isInvalid x = true) [VNull] /\ isInvalid keyed = false
   /\ 0 < length (ivs s))
  /\ holds 0 (fun x => iv_f x = HasKeyedChildren sampleIVFlags) s'.
Proof.
  intros keyed input s s'. split.
  - split; [repeat constructor|]. split; [reflexivity|]. vm_compute. lia.
  - apply (array_flag_decided_by_first_valid_entry sampleVNodeFlags sampleIVFlags
             sampleOptions false (fun _ => false) 5 0 [VNull] keyed [VStr "a"; VBool false]
             1 None [] false true s tt s').
    + repeat constructor.
    + reflexivity.
    + vm_compute. lia.
    + vm_compute. reflexivity.
Defined.

Lemma array_invalid_entries_are_skipped_witness :
  let input := [VNull; VStr "a"; VBool true; element "p" VNull KNull RNull; VUndefined] in
  let s := rootState (VArr input) in
  let s' := (mountArrayChildren sampleVNodeFlags sampleIVFlags sampleOptions false
               (fun _ => false) 5 0 (VArr input) 1 None [] false false true s).2 in
  0 < length (ivs s)
  /\ validEntries input 0 = [(1, VStr "a"); (3, element "p" VNull KNull RNull)]
  /\ exists rs, holds 0 (fun x => iv_c x = CArray rs) s'
                /\ Forall2 (mirrors s') rs (validEntries input 0).
Proof.
  intros input s s'. split; [vm_compute; lia|]. split; [reflexivity|].
  apply (array_invalid_entries_are_skipped sampleVNodeFlags sampleIVFlags sampleOptions
           false (fun _ => false) 5 0 input 1 None [] false false true s tt s').
  - vm_compute. lia.
  - vm_compute. reflexivity.
  - discriminate.
Defined.

(** ** Return value of the dispatcher *)



(** ** Element refs *)

(** C2, counterexample: the element's mount returns without having invoked
    the callback ref; the call sits in the lifecycle queue. *)
Lemma element_ref_not_invoked_during_mount :
  let res := mountRoot false 3 (element "div" (VStr "hello") KNull (RFunc 7)) 1 false true in
  res.1 = Ok (DNode 8)
  /\ trace res.2 = [EvCreateElement 8 "div" false; EvSetTextContent 8 (PStr "hello");
                    EvInsert 1 8 None]
  /\ ~ In (EvRefDom 7 8) (trace res.2)
  /\ lifecycle res.2 = [mkEntry 0 (LRef 7 8)].
Proof.
  vm_compute. repeat split; try reflexivity.
  intros [H|[H|[H|[]]]]; discriminate.
Qed.

Lemma element_ref_is_queued_witness :
  let vNode := mkVNode 2 (TTag "div") None (VStr "hello") KNull (RFunc 7) None in
  let s := rootState (VObj vNode) in
  let res := mountElement sampleVNodeFlags sampleIVFlags sampleOptions false
               (fun _ => false) 2 0 vNode 1 None [] false true s in
  ref vNode = RFunc 7
  /\ exists evs', flush (lifecycle res.2) = evs' ++ [EvRefDom 7 (nextDom s)].
Proof.
  intros vNode s res. split; [reflexivity|].
  apply (element_ref_is_queued sampleVNodeFlags sampleIVFlags sampleOptions false
           (fun _ => false) 2 0 vNode 1 None [] false true 7 s (DNode 8) res.2).
  - reflexivity.
  - vm_compute. reflexivity.
Defined.

(** ** Portals and the SVG flag *)

Lemma portal_content_is_mounted_outside_svg_witness :
  let vNode := mkVNode 4096 (TDom 5) None (element "circle" VNull KNull RNull)
                       KNull RNull None in
  (hasFlag (flags vNode) (Element sampleVNodeFlags) = false
   /\ hasFlag (flags vNode) (Component sampleVNodeFlags) = false
   /\ hasFlag (flags vNode) (Portal sampleVNodeFlags) = true)
  /\ forall fuel s,
      mountVNode sampleVNodeFlags sampleIVFlags sampleOptions false (fun _ => false)
                 fuel 0 vNode 1 None [] true true s
      = mountVNode sampleVNodeFlags sampleIVFlags sampleOptions false (fun _ => false)
                   fuel 0 vNode 1 None [] false true s.
Proof.
  intros vNode. split; [by repeat split|]. intros fuel s.
  destruct (portal_content_is_mounted_outside_svg sampleVNodeFlags sampleIVFlags
              sampleOptions false (fun _ => false) 0 0 vNode 1 None [] true true)
    as [_ H]; try reflexivity.
  by rewrite H.
Defined.

(** ** Portal content and placeholder *)



(** ** Nested components *)


(** ** Assignments to the [d] field *)



(** ** Validation *)

(** C8, failing input: in a production build an object that is not a View
    Node (its [flags] is 0) is mounted as an empty virtual array, without any
    fault, where a development build rejects it. *)
Theorem mount_production_accepts_non_vnode_object :
  let bad := VObj (mkVNode 0 (TTag "div") None VNull KNull RNull None) in
  (mountRoot false 2 bad 1 false true).1 = Throw (InvalidInputError true)
  /\ (mountRoot true 2 bad 1 false true).1 = Ok DNull
  /\ trace (mountRoot true 2 bad 1 false true).2 = []
  /\ ivs (mountRoot true 2 bad 1 false true).2
     = [mkIV bad 0 DNull CNull (HasInvalidChildren sampleIVFlags) IsVirtualArray None].
Proof. vm_compute. repeat split; reflexivity. Qed.

(** ** Frames, callbacks and DOM bookkeeping *)

Lemma mount_touches_only_its_iv_witness :
  let input := element "div" (element "p" (VStr "x") KNull RNull) KNull (RFunc 7) in
  let s := rootState input in
  let res := mountRoot false 6 input 1 false true in
  length (ivs s) <= length (ivs res.2)
  /\ (forall c, c < length (ivs s) -> c <> 0 -> ivs res.2 !! c = ivs s !! c)
  /\ (forall x, ivs s !! 0 = Some x ->
        exists x', ivs res.2 !! 0 = Some x'
                   /\ iv_i x' = iv_i x /\ iv_k x' = iv_k x /\ iv_b x' = iv_b x)
  /\ lifecycle s `prefix_of` lifecycle res.2
  /\ nextDom s <= nextDom res.2.
Proof.
  intros input s res.
  apply (mount_touches_only_its_iv sampleVNodeFlags sampleIVFlags sampleOptions false
           (fun _ => false) 6 0 input 1 None [] false true s (DNode 8) res.2).
  vm_compute. reflexivity.
Defined.


Lemma mount_inserts_each_created_node_once_witness :
  let input := VArr [VStr "a"; element "p" (VStr "x") KNull RNull] in
  let s := rootState input in
  let res := mountRoot false 8 input 1 false false in
  exists evs,
    trace res.2 = trace s ++ evs
    /\ created evs = seq (nextDom s) (nextDom res.2 - nextDom s)
    /\ NoDup (created evs)
    /\ created evs ≡ₚ inserted evs ++ pending false DNull
    /\ (false = true \/ isArray input = true -> created evs ≡ₚ inserted evs).
Proof.
  intros input s res.
  apply (mount_inserts_each_created_node_once sampleVNodeFlags sampleIVFlags
           sampleOptions false (fun _ => false) 8 0 input 1 None [] false false s
           DNull res.2).
  vm_compute. reflexivity.
Defined.

Lemma mount_inserts_its_root_last_witness :
  let input := element "div" (element "p" (VStr "x") KNull RNull) KNull RNull in
  let s := rootState input in
  let res := mountRoot false 6 input 1 false true in
  exists evs, trace res.2 = trace s ++ evs ++ [EvInsert 1 8 None].
Proof.
  intros input s res.
  apply (mount_inserts_its_root_last sampleVNodeFlags sampleIVFlags sampleOptions false
           (fun _ => false) 6 0 input 1 None [] false s 8 res.2).
  vm_compute. reflexivity.
Defined.

Lemma mount_anchors_the_iv_at_its_root_witness :
  let input := functional (element "p" (VStr "x") KNull RNull) RNull in
  let res := mountRoot false 6 input 1 false true in
  holds 0 (fun x => iv_d x = DNode 8) res.2.
Proof.
  intros input res.
  apply (mount_anchors_the_iv_at_its_root sampleVNodeFlags sampleIVFlags sampleOptions
           false (fun _ => false) 6 0 input 1 None [] false (rootState input) 8 res.2).
  - vm_compute. lia.
  - vm_compute. reflexivity.
Defined.

Lemma virtual_array_is_anchored_at_its_first_node_witness :
  let l := [VNull; VStr "a"; functional VNull RNull] in
  let res := mountRoot false 8 (VArr l) 1 false true in
  holds 0 (fun x => iv_t x = IsVirtualArray) res.2
  /\ holds 0 (fun x => iv_d x = DNode 8) res.2.
Proof.
  intros l res.
  destruct (virtual_array_is_anchored_at_its_first_node sampleVNodeFlags sampleIVFlags
              sampleOptions false (fun _ => false) 8 0 l 1 None [] false true
              (rootState (VArr l)) DNull res.2) as (Ht & _ & Hd).
  - vm_compute. lia.
  - vm_compute. reflexivity.
  - split; [exact Ht|].
    apply (Hd [VNull] (VStr "a") [functional VNull RNull]).
    + reflexivity.
    + repeat constructor.
    + left. by eexists.
    + simpl. lia.
    + simpl. lia.
Defined.

Lemma mount_inserts_before_its_anchor_witness :
  let input := VArr [VStr "a"; element "p" (VStr "x") KNull RNull] in
  let s := rootState input in
  let res := mount sampleVNodeFlags sampleIVFlags sampleOptions false (fun _ => false)
               8 0 input 1 (Some 2) [] false true s in
  exists evs,
    trace res.2 = trace s ++ evs
    /\ forall q n a, EvInsert q n a ∈ evs -> q = 1 -> a = Some 2.
Proof.
  intros input s res.
  apply (mount_inserts_before_its_anchor sampleVNodeFlags sampleIVFlags sampleOptions
           false (fun _ => false) 8 0 input 1 (Some 2) [] false true s DNull res.2).
  - apply avoids_arr. repeat constructor; intros c H; inversion H.
  - vm_compute. lia.
  - vm_compute. reflexivity.
Defined.

(** ** Components *)

Lemma component_with_invalid_render_output_witness :
  let vNode := mkVNode 8 (TFunc (fun _ _ => VNull)) None VNull KNull RNull None in
  let s := rootState (VObj vNode) in
  let res := mountComponent sampleVNodeFlags sampleIVFlags sampleOptions false
               (fun _ => false) 4 0 vNode 1 None [] false true s in
  res.1 = Ok DNull
  /\ ivs res.2 = alter (fun x => mkIV (iv_i x) (iv_k x) (iv_d x) (iv_c x)
                                      (HasInvalidChildren sampleIVFlags) (iv_t x) (iv_b x))
                       0 (ivs s)
  /\ nextDom res.2 = nextDom s
  /\ domWrites res.2 = domWrites s
  /\ exists evs, trace res.2 = trace s ++ evs /\ created evs = [] /\ inserted evs = [].
Proof.
  intros vNode s res. split; [vm_compute; reflexivity|].
  apply (component_with_invalid_render_output sampleVNodeFlags sampleIVFlags
           sampleOptions false (fun _ => false) 4 0 vNode 1 None [] false true VNull s
           DNull res.2).
  - reflexivity.
  - reflexivity.
  - vm_compute. reflexivity.
Defined.

Lemma class_component_ref_is_called_during_mount_witness :
  let new := fun (_ : propsT) (c : contextT) =>
               mkInstance (fun _ _ => element "p" (VStr "x") KNull RNull) c None in
  let vNode := mkVNode 4 (TClass new) None VNull KNull (RFunc 7) None in
  let s := rootState (VObj vNode) in
  let res := mountComponent sampleVNodeFlags sampleIVFlags sampleOptions false
               (fun _ => false) 6 0 vNode 1 None [] false true s in
  exists evs,
    trace res.2 = trace s ++ evs ++ [EvRefInstance 7 0; EvSetUPD 0 false]
                  ++ (if findDOMNodeEnabled sampleOptions then [EvMapSet 0 (DNode 8)] else [])
                  ++ rootInsertion true 1 (DNode 8) None.
Proof.
  intros new vNode s res.
  apply (class_component_ref_is_called_during_mount sampleVNodeFlags sampleIVFlags
           sampleOptions false (fun _ => false) 6 0 vNode 1 None [] false true new 7 s
           (DNode 8) res.2).
  - reflexivity.
  - reflexivity.
  - reflexivity.
  - vm_compute. reflexivity.
Defined.

Lemma class_component_queues_its_didMount_witness :
  let new := fun (_ : propsT) (c : contextT) =>
               mkInstance (fun _ _ => element "p" (VStr "x") KNull (RFunc 7)) c (Some 3) in
  let vNode := mkVNode 4 (TClass new) None VNull KNull RNull None in
  let s := rootState (VObj vNode) in
  let res := mountComponent sampleVNodeFlags sampleIVFlags sampleOptions false
               (fun _ => false) 6 0 vNode 1 None [] false true s in
  exists q,
    lifecycle res.2 = lifecycle s ++ q
      ++ [mkEntry 0 (LClassDidMount 0 HNull vNode (Some 3))]
    /\ Forall (fun e => length (ivs s) <= owner e /\ owner e <> 0) q.
Proof.
  intros new vNode s res.
  apply (class_component_queues_its_didMount sampleVNodeFlags sampleIVFlags sampleOptions
           false (fun _ => false) 6 0 vNode 1 None [] false true new s (DNode 8) res.2).
  - reflexivity.
  - reflexivity.
  - vm_compute. lia.
  - vm_compute. reflexivity.
Defined.

Lemma class_component_rejects_non_callback_ref_witness :
  let new := fun (_ : propsT) (c : contextT) =>
               mkInstance (fun _ _ => element "p" (VStr "x") KNull RNull) c None in
  let vNode := mkVNode 4 (TClass new) None VNull KNull (RStr "self") None in
  let s := rootState (VObj vNode) in
  mountClassComponentCallbacks sampleOptions false vNode (RStr "self") 0 (new [] []) s
  = (Throw StringRefError, s)
  /\ forall r s',
      mountComponent sampleVNodeFlags sampleIVFlags sampleOptions false (fun _ => false)
                     6 0 vNode 1 None [] false true s
      <> (Ok r, s').
Proof.
  intros new vNode s.
  apply (class_component_rejects_non_callback_ref sampleVNodeFlags sampleIVFlags
           sampleOptions false (fun _ => false) 6 0 vNode 1 None [] false true
           (new [] []) s).
  - reflexivity.
  - reflexivity.
  - intros cb. discriminate.
Defined.

Lemma functional_component_hooks_witness :
  let vNode := mkVNode 8 (TFunc (fun _ _ => element "p" (VStr "x") KNull RNull))
                       (Some [("id", "a")]) VNull KNull (RObj (Some 5) (Some 6)) None in
  let s := rootState (VObj vNode) in
  let res := mountComponent sampleVNodeFlags sampleIVFlags sampleOptions false
               (fun _ => false) 6 0 vNode 1 None [] false true s in
  exists evs q,
    trace res.2 = trace s ++ evs ++ [EvOnComponentWillMount 5 [("id", "a")]]
                  ++ rootInsertion true 1 (DNode 8) None
    /\ lifecycle res.2
       = lifecycle s ++ q ++ [mkEntry 0 (LFuncDidMount 6 (DNode 8) [("id", "a")])].
Proof.
  intros vNode s res.
  apply (functional_component_hooks sampleVNodeFlags sampleIVFlags sampleOptions false
           (fun _ => false) 6 0 vNode 1 None [] false true s (DNode 8) res.2).
  - reflexivity.
  - vm_compute. reflexivity.
Defined.

Lemma component_iv_shape_witness :
  let out := element "p" (VStr "x") KNull RNull in
  let vNode := mkVNode 8 (TFunc (fun _ _ => out)) None VNull KNull RNull None in
  let s := rootState (VObj vNode) in
  let res := mountComponent sampleVNodeFlags sampleIVFlags sampleOptions false
               (fun _ => false) 6 0 vNode 1 None [] false true s in
  holds 0 (fun x => iv_c x = CSingle 1 /\ iv_f x = HasBasicChildren sampleIVFlags) res.2
  /\ holds 1 (fun y => iv_i y = out /\ iv_k y = 0 /\ iv_b y = Some 0
                       /\ iv_d y = DNode 8) res.2
  /\ (true = true -> DNode 8 <> DNull -> holds 0 (fun x => iv_d x = DNode 8) res.2).
Proof.
  intros out vNode s res.
  apply (component_iv_shape sampleVNodeFlags sampleIVFlags sampleOptions false
           (fun _ => false) 6 0 vNode 1 None [] false true out s (DNode 8) res.2).
  - reflexivity.
  - reflexivity.
  - vm_compute. lia.
  - vm_compute. reflexivity.
Defined.

(** ** Elements and portals *)

Lemma element_mount_order_witness :
  let vNode := mkVNode 512 (TTag "input") (Some [("type", "text"); ("value", "v")])
                       VNull KNull RNull (Some "field") in
  let s := rootState (VObj vNode) in
  let res := mountElement sampleVNodeFlags sampleIVFlags sampleOptions false
               (fun _ => true) 4 0 vNode 1 None [] false true s in
  res.1 = Ok (DNode 8)
  /\ trace res.2 = [EvCreateElement 8 "input" false;
                    EvPatchProp "type" "text" 8 false true;
                    EvPatchProp "value" "v" 8 false true;
                    EvProcessElement 512 0 8 true;
                    EvSetClassName 8 "field";
                    EvInsert 1 8 None].
Proof.
  intros vNode s res. split; [vm_compute; reflexivity|].
  destruct (element_mount_order sampleVNodeFlags sampleIVFlags sampleOptions false
              (fun _ => true) 4 0 vNode 1 None [] false true s (DNode 8) res.2)
    as (_ & tag & childCalls & Hty & Htr & Hinv & _).
  - vm_compute. reflexivity.
  - destruct (Hinv eq_refl) as (-> & _). inversion Hty; subst tag. exact Htr.
Defined.

Lemma element_child_namespace_witness :
  let child := mkVNode 2 (TTag "div") None (VStr "x") KNull RNull None in
  let vNode := mkVNode 128 (TTag "foreignObject") None (VObj child) KNull RNull None in
  let s := rootState (VObj vNode) in
  let res := mountElement sampleVNodeFlags sampleIVFlags sampleOptions false
               (fun _ => false) 6 0 vNode 1 None [] true true s in
  exists evs,
    trace res.2 = trace s ++ EvCreateElement 8 "foreignObject" true
                          :: EvCreateElement 9 "div" false :: evs.
Proof.
  intros child vNode s res.
  destruct (element_child_namespace sampleVNodeFlags sampleIVFlags sampleOptions false
              (fun _ => false) 6 0 vNode 1 None [] true true child s (DNode 8) res.2)
    as (tag & childTag & evs & Hty & Hcty & Htr).
  - reflexivity.
  - reflexivity.
  - vm_compute. reflexivity.
  - inversion Hty; subst tag. inversion Hcty; subst childTag. by exists evs.
Defined.

Lemma element_rejects_non_callback_ref_witness :
  let vNode := mkVNode 2 (TTag "div") None (VStr "x") KNull (RStr "self") None in
  let s := rootState (VObj vNode) in
  mountRef true 0 8 (RStr "self") s = (Throw GenericError, s)
  /\ forall r s',
      mountElement sampleVNodeFlags sampleIVFlags sampleOptions true (fun _ => false)
                   6 0 vNode 1 None [] false true s
      <> (Ok r, s').
Proof.
  intros vNode s.
  apply (element_rejects_non_callback_ref sampleVNodeFlags sampleIVFlags sampleOptions
           true (fun _ => false) 6 0 vNode 1 None [] false true 8 s).
  - reflexivity.
  - intros cb. discriminate.
Defined.

Lemma element_iv_shape_witness :
  let child := element "p" (VStr "x") KNull RNull in
  let vNode := mkVNode 2 (TTag "div") None child KNull RNull None in
  let s := rootState (VObj vNode) in
  let res := mountElement sampleVNodeFlags sampleIVFlags sampleOptions false
               (fun _ => false) 6 0 vNode 1 None [] false true s in
  holds 0 (fun x => iv_c x = CSingle 1 /\ iv_f x = HasBasicChildren sampleIVFlags) res.2
  /\ holds 1 (fun y => iv_i y = child /\ iv_k y = 0) res.2.
Proof.
  intros child vNode s res.
  destruct (element_iv_shape sampleVNodeFlags sampleIVFlags sampleOptions false
              (fun _ => false) 6 0 vNode 1 None [] false true s (DNode 8) res.2)
    as (_ & _ & Hone & _).
  - vm_compute. lia.
  - vm_compute. reflexivity.
  - apply Hone. by eexists.
Defined.

Lemma portal_iv_shape_witness :
  let content := element "p" (VStr "x") KNull RNull in
  let vNode := mkVNode 4096 (TDom 5) None content KNull RNull None in
  let s := rootState (VObj vNode) in
  let res := mountPortal sampleVNodeFlags sampleIVFlags sampleOptions false
               (fun _ => false) 6 0 vNode 1 None [] false true s in
  holds 0 (fun x => iv_c x = CSingle 1 /\ iv_f x = HasTextChildren sampleIVFlags) res.2
  /\ holds 1 (fun y => iv_i y = content /\ iv_k y = 0) res.2.
Proof.
  intros content vNode s res.
  apply (portal_iv_shape sampleVNodeFlags sampleIVFlags sampleOptions false
           (fun _ => false) 6 0 vNode 1 None [] false true s (DNode 9) res.2).
  - vm_compute. lia.
  - vm_compute. reflexivity.
Defined.

(** * The recycling pools *)

Module RecyclingSpec.

Import Recycling.

(** The pools of [tag] before a call, a fresh one when the map has none. *)
Lemma pool_lookup_other vNode tagPools tag :
  tag <> type vNode -> pool vNode tagPools !! tag = tagPools !! tag.
Proof. intros Hne. unfold pool. by rewrite lookup_insert_ne. Qed.

(** C9. [pool(vNode, tagPools)] appends the node to the non-keyed sequence of
    the pool of its tag when its key is null, and to the sequence of its key
    otherwise, creating the pool and the per-key sequence on demand; the pools
    of other tags and the sequences of other keys are left alone, and no
    sequence of any pool loses an element: each one is a prefix of what it is
    after the call. *)
Theorem pool_appends vNode tagPools :
  (exists pools',
      pool vNode tagPools !! type vNode = Some pools'
      /\ (key vNode = KNull ->
          nonKeyed pools' = nonKeyed (default newPools (tagPools !! type vNode)) ++ [vNode]
          /\ keyed pools' = keyed (default newPools (tagPools !! type vNode)))
      /\ (key vNode <> KNull ->
          nonKeyed pools' = nonKeyed (default newPools (tagPools !! type vNode))
          /\ keyed pools' !! key vNode
             = Some (default [] (keyed (default newPools (tagPools !! type vNode))
                                       !! key vNode) ++ [vNode])
          /\ forall k, k <> key vNode ->
               keyed pools' !! k
               = keyed (default newPools (tagPools !! type vNode)) !! k))
  /\ (forall tag, tag <> type vNode -> pool vNode tagPools !! tag = tagPools !! tag)
  /\ (forall tag pools,
        tagPools !! tag = Some pools ->
        exists pools',
          pool vNode tagPools !! tag = Some pools'
          /\ nonKeyed pools `prefix_of` nonKeyed pools'
          /\ forall k l, keyed pools !! k = Some l ->
               exists l', keyed pools' !! k = Some l' /\ l `prefix_of` l').
Proof.
  split; [|split].
  - unfold pool. rewrite lookup_insert_eq. eexists. split; [reflexivity|].
    change (match tagPools !! type vNode with
            | Some pools => pools
            | None => newPools
            end) with (default newPools (tagPools !! type vNode)).
    set (pools := default newPools (tagPools !! type vNode)).
    split.
    + intros Hk. rewrite Hk. simpl. done.
    + intros Hk.
      assert (isNull (key vNode) = false) as -> by (by destruct (key vNode)).
      simpl. split; [done|]. split.
      * rewrite lookup_insert_eq. by destruct (keyed pools !! key vNode).
      * intros k Hne. by rewrite lookup_insert_ne.
  - intros tag Hne. by apply pool_lookup_other.
  - intros tag pools Hp. destruct (decide (tag = type vNode)) as [->|Hne].
    + unfold pool. rewrite lookup_insert_eq, Hp. eexists. split; [reflexivity|].
      destruct (isNull (key vNode)) eqn:E; simpl.
      * split; [by apply prefix_app_r|]. intros k l Hl. eauto.
      * split; [done|]. intros k l Hl.
        destruct (decide (k = key vNode)) as [->|Hk].
        -- rewrite lookup_insert_eq, Hl. eexists. split; [done|]. by apply prefix_app_r.
        -- rewrite lookup_insert_ne by done. eauto.
    + rewrite pool_lookup_other by done. exists pools. split; [done|]. split; [done|].
      eauto.
Qed.

(** ** Looking up what was pooled *)

Lemma pooledUnder_pool vNode tagPools tag k :
  pooledUnder (pool vNode tagPools) tag k
  = pooledUnder tagPools tag k
    ++ (if decide (type vNode = tag /\ key vNode = k) then [vNode] else []).
Proof.
  unfold pooledUnder, pool.
  destruct (decide (type vNode = tag)) as [<-|Hne].
  - rewrite lookup_insert_eq.
    destruct (isNull (key vNode)) eqn:Hkn; simpl.
    + assert (key vNode = KNull) as Hk by (by destruct (key vNode)).
      destruct (isNull k) eqn:Hk'.
      * assert (k = KNull) as -> by (by destruct k).
        rewrite decide_True by done. by destruct (tagPools !! type vNode).
      * rewrite decide_False by (intros [_ <-]; congruence).
        rewrite app_nil_r. by destruct (tagPools !! type vNode).
    + destruct (isNull k) eqn:Hk'.
      * rewrite decide_False by (intros [_ <-]; congruence).
        rewrite app_nil_r. by destruct (tagPools !! type vNode).
      * destruct (decide (key vNode = k)) as [<-|Hk].
        -- rewrite decide_True by done. rewrite lookup_insert_eq. simpl.
           destruct (tagPools !! type vNode) as [pools|]; simpl; [|done].
           by destruct (keyed pools !! key vNode).
        -- rewrite decide_False by (by intros [_ ?]).
           rewrite lookup_insert_ne by done. rewrite app_nil_r.
           by destruct (tagPools !! type vNode).
  - rewrite lookup_insert_ne by done. rewrite decide_False by (by intros [? _]).
    by rewrite app_nil_r.
Qed.

(** X19. What was pooled is found again, and nothing else: after [pool] was
    called on each node of a sequence, starting with no pool at all, the
    nodes found under a tag and a key are the nodes of the sequence that have
    this tag and this key, in the order they were pooled in. A node whose key
    is undefined is filed under the key [undefined], not with the non-keyed
    nodes. *)
Theorem pooled_nodes_are_found_under_their_tag_and_key vNodes tag k :
  pooledUnder (poolAll vNodes ∅) tag k
  = filter (fun v => type v = tag /\ key v = k) vNodes.
Proof.
  unfold poolAll.
  assert (H : forall m,
             pooledUnder (foldl (fun m v => pool v m) m vNodes) tag k
             = pooledUnder m tag k ++ filter (fun v => type v = tag /\ key v = k) vNodes).
  { induction vNodes as [|v rest IH]; intros m; simpl.
    - by rewrite app_nil_r.
    - rewrite IH, pooledUnder_pool, <- app_assoc. f_equal.
      rewrite filter_cons. by destruct (decide _). }
  rewrite H. unfold pooledUnder. by rewrite lookup_empty.
Qed.

(** X20. Pooling two nodes that differ in tag or in key gives the same
    pools in either order. *)
Theorem pool_commutes vNode1 vNode2 tagPools :
  type vNode1 <> type vNode2 \/ key vNode1 <> key vNode2 ->
  pool vNode1 (pool vNode2 tagPools) = pool vNode2 (pool vNode1 tagPools).
Proof.
  intros Hne. apply map_eq. intros tag.
  destruct (decide (type vNode1 = type vNode2)) as [Heq|Hty].
  - destruct Hne as [?|Hk]; [done|]. unfold pool. rewrite <- Heq.
    rewrite !lookup_insert_eq.
    destruct (decide (tag = type vNode1)) as [->|Htag];
      [|by rewrite !lookup_insert_ne by done].
    rewrite !lookup_insert_eq. f_equal.
    destruct (tagPools !! type vNode1) as [pools|];
      destruct (isNull (key vNode1)) eqn:H1, (isNull (key vNode2)) eqn:H2; simpl;
      rewrite ?H1, ?H2; simpl; try reflexivity.
    all: try (exfalso; apply Hk; destruct (key vNode1), (key vNode2); done).
    all: rewrite !lookup_insert_ne by done; f_equal; by apply insert_insert_ne.
  - f_equal. unfold pool. rewrite !lookup_insert_ne by done.
    by apply insert_insert_ne.
Qed.

(** X21. [pool] keeps the pools tidy: a pool exists only once a node was
    put into it, a per-key sequence exists only once a node with that key
    was pooled, and null is never a key of a keyed map. This holds after
    any sequence of [pool] calls that starts with no pool at all. *)
Theorem pool_keeps_pools_tidy vNodes :
  poolsTidy (poolAll vNodes ∅).
Proof.
  unfold poolAll.
  assert (H : forall m, poolsTidy m -> poolsTidy (foldl (fun m v => pool v m) m vNodes)).
  { induction vNodes as [|v rest IH]; intros m Hm; simpl; [done|].
    apply IH. intros tag pools Hp.
    destruct (decide (tag = type v)) as [->|Hne];
      [|rewrite pool_lookup_other in Hp by done; by eapply Hm].
    unfold pool in Hp. rewrite lookup_insert_eq in Hp.
    change (match m !! type v with
            | Some pools => pools
            | None => newPools
            end) with (default newPools (m !! type v)) in Hp.
    set (p0 := default newPools (m !! type v)) in Hp.
    assert (Hp0 : forall k l, keyed p0 !! k = Some l -> k <> KNull /\ l <> []).
    { subst p0. destruct (m !! type v) as [pools0|] eqn:E; simpl.
      - apply (Hm _ _ E).
      - intros k l Hl. by rewrite lookup_empty in Hl. }
    destruct (isNull (key v)) eqn:Hk; simpl in Hp; inversion Hp; subst pools;
      clear Hp; simpl.
    - split; [left; by destruct (nonKeyed p0)|exact Hp0].
    - split.
      + right. intros He. apply (f_equal (fun m => m !! key v)) in He.
        by rewrite lookup_insert_eq, lookup_empty in He.
      + intros k l Hl. destruct (decide (k = key v)) as [->|Hkk].
        * rewrite lookup_insert_eq in Hl. inversion Hl; subst l.
          split; [by destruct (key v)|]. by destruct (keyed p0 !! key v) as [[|]|].
        * rewrite lookup_insert_ne in Hl by done. by apply Hp0. }
  apply H. intros tag pools Hp. by rewrite lookup_empty in Hp.
Qed.

Lemma pool_commutes_witness :
  let a := mkIVNode (TagName "div") KNull (Some 1) in
  let b := mkIVNode (TagName "div") (KStr "k") (Some 2) in
  pool a (pool b ∅) = pool b (pool a ∅).
Proof. intros a b. apply (pool_commutes a b ∅). right. discriminate. Defined.

End RecyclingSpec.
